(** * obsidian-tikzjax: a shallow embedding of [src/main.ts]

    The plugin parses a [tikz] code block into a style string and a diagram
    source, injects the TikZJax engine into every window, and rewrites the
    rendered SVG when the engine reports completion.

    JavaScript strings are modelled as [string]; one [ascii] stands for one
    code unit below 256 (so code 160 is the no-break space U+00A0).  The
    platform functions the source calls ([replaceAll], [split], [trim], ...)
    follow ECMAScript on that fragment.  The DOM is a tree of elements and
    text nodes with the HTML serializer; the parser behind the [innerHTML]
    and [outerHTML] setters, the UUID generator, SVGO and the engine script
    are parameters of the plugin, and [DOM.parse_markup] is a parser for the
    markup the serializer writes, used where a run is evaluated.

    The definitions come first: the platform ([JS], [DOM], [Doc]), the
    plugin, the vocabulary of the specifications and the sample inputs.
    The facts and the theorems follow. *)

From Stdlib Require Import String Ascii List Bool Arith ZArith Lia.
Import ListNotations.
Open Scope string_scope.

(** ** Platform: ECMAScript strings *)

Module JS.

(** Code units used by the source that a string literal cannot hold. *)
Definition LF : ascii := "010"%char.
Definition DQUOTE : ascii := "034"%char.
Definition NBSP : ascii := "160"%char.

Definition nl : string := String LF EmptyString.

(** [quoted s] is [s] between two double-quote code units. *)
Definition quoted (s : string) : string :=
  String DQUOTE (s ++ String DQUOTE EmptyString).

Definition chars (s : string) : list ascii := list_ascii_of_string s.

(** WhiteSpace and LineTerminator code units below 256: TAB, LF, VT, FF, CR,
    SP and NBSP.  This is the set of [String.prototype.trim] and of the
    regular expression class [\s]. *)
Definition is_whitespace (c : ascii) : bool :=
  let n := nat_of_ascii c in
  ((n =? 9) || (n =? 10) || (n =? 11) || (n =? 12) || (n =? 13)
   || (n =? 32) || (n =? 160))%nat.

Definition is_empty (s : string) : bool :=
  match s with EmptyString => true | String _ _ => false end.

Fixpoint trimStart (s : string) : string :=
  match s with
  | EmptyString => EmptyString
  | String c s' => if is_whitespace c then trimStart s' else s
  end.

Fixpoint trimEnd (s : string) : string :=
  match s with
  | EmptyString => EmptyString
  | String c s' =>
      match trimEnd s' with
      | EmptyString => if is_whitespace c then EmptyString else String c EmptyString
      | t => String c t
      end
  end.

Definition trim (s : string) : string := trimEnd (trimStart s).

Definition startsWith (s p : string) : bool := prefix p s.

(** [s.includes(p)]: [p] occurs in [s] as a contiguous substring. *)
Fixpoint includes (s p : string) : bool :=
  match s with
  | EmptyString => prefix p EmptyString
  | String _ s' => prefix p s || includes s' p
  end.

(** [s.split(sep)] for a separator of one code unit (the source only splits
    on the line break). *)
Fixpoint split (sep : ascii) (s : string) : list string :=
  match s with
  | EmptyString => [EmptyString]
  | String c s' =>
      if Ascii.eqb c sep then EmptyString :: split sep s'
      else match split sep s' with
           | [] => [String c EmptyString]
           | h :: t => String c h :: t
           end
  end.

(** [lines.join(sep)]. *)
Fixpoint join (sep : string) (l : list string) : string :=
  match l with
  | [] => EmptyString
  | [x] => x
  | x :: t => x ++ sep ++ join sep t
  end.

(** The first alternative, in the order written, that matches at the head of
    [s]: the leftmost-first choice of a regular expression [(p1|p2|...)] whose
    alternatives are literals. *)
Fixpoint first_match (pats : list string) (s : string) : option string :=
  match pats with
  | [] => None
  | p :: ps => if prefix p s then Some p else first_match ps s
  end.

(** One left-to-right pass replacing every non-overlapping match of one of
    the non-empty literals [pats] by [rep].  [skip] counts the code units of
    the current match that are still to be consumed. *)
Fixpoint scan_replace (pats : list string) (rep : string) (skip : nat)
    (s : string) : string :=
  match s with
  | EmptyString => EmptyString
  | String c s' =>
      match skip with
      | S k => scan_replace pats rep k s'
      | O =>
          match first_match pats s with
          | Some p => rep ++ scan_replace pats rep (String.length p - 1) s'
          | None => String c (scan_replace pats rep 0 s')
          end
      end
  end.

(** The empty search string matches before every code unit and at the end. *)
Fixpoint replace_at_every_index (rep : string) (s : string) : string :=
  match s with
  | EmptyString => rep
  | String c s' => rep ++ String c (replace_at_every_index rep s')
  end.

(** [s.replaceAll(searchValue, replaceValue)] with a string [searchValue].
    The replacement is inserted as it is: none of the replacement values of
    the source (the empty string, a UUID, the two colour references) holds
    a dollar sign, so no substitution pattern is ever expanded. *)
Definition replaceAll (searchValue replaceValue : string) (s : string) : string :=
  match searchValue with
  | EmptyString => replace_at_every_index replaceValue s
  | _ => scan_replace [searchValue] replaceValue 0 s
  end.

(** [s.replaceAll(/(p1|p2|...)/g, replaceValue)] for literal alternatives. *)
Definition replaceAll_regexp (alternatives : list string) (replaceValue : string)
    (s : string) : string :=
  scan_replace alternatives replaceValue 0 s.

(** [s.replace(/^%\s*/, EmptyString)]: the pattern is anchored at the start
    of the string (no multiline flag), so it removes a percent sign in the
    first position together with the white space after it, and nothing when
    the string starts otherwise. *)
Definition replace_leading_percent (s : string) : string :=
  match s with
  | String "%"%char s' => trimStart s'
  | _ => s
  end.

(** [arr.findIndex(p)], -1 when no element satisfies [p]. *)
Fixpoint findIndex {A : Type} (p : A -> bool) (l : list A) : Z :=
  match l with
  | [] => (-1)%Z
  | x :: t =>
      if p x then 0%Z
      else let r := findIndex p t in
           if (r <? 0)%Z then (-1)%Z else (r + 1)%Z
  end.

(** [arr.slice(start, end)], negative indices counting from the end. *)
Definition clamp_index (len i : Z) : nat :=
  Z.to_nat (if (i <? 0)%Z then Z.max (len + i) 0 else Z.min i len).

Definition slice {A : Type} (l : list A) (start stop : Z) : list A :=
  let len := Z.of_nat (List.length l) in
  let k := clamp_index len start in
  let final := clamp_index len stop in
  firstn (final - k) (skipn k l).

Definition slice_from {A : Type} (l : list A) (start : Z) : list A :=
  slice l start (Z.of_nat (List.length l)).

(** [s.substring(n)]: [s] without its first [n] code units. *)
Fixpoint drop (n : nat) (s : string) : string :=
  match n, s with
  | O, _ => s
  | S k, String _ s' => drop k s'
  | S _, EmptyString => EmptyString
  end.

End JS.

(** ** The plugin's pure text functions *)

(** [tidyTikzSource], main.ts lines 142-159. *)
Definition tidyTikzSource (tikzSource : string) : string :=
  let remove := "&nbsp;" in
  let tikzSource := JS.replaceAll remove EmptyString tikzSource in
  let lines := JS.split JS.LF tikzSource in
  let lines := map JS.trim lines in
  let lines := filter (fun line => negb (JS.is_empty line)) lines in
  JS.join JS.nl lines.

Definition dark_tokens : list string := [JS.quoted "#000"; JS.quoted "black"].
Definition light_tokens : list string := [JS.quoted "#fff"; JS.quoted "white"].
Definition currentColor : string := JS.quoted "currentColor".
Definition background_primary : string := JS.quoted "var(--background-primary)".

(** [colorSVGinDarkMode], main.ts lines 162-171. *)
Definition colorSVGinDarkMode (svg : string) : string :=
  JS.replaceAll_regexp light_tokens background_primary
    (JS.replaceAll_regexp dark_tokens currentColor svg).

(** What the code block processor of [registerTikzCodeBlock] computes from
    the source, main.ts lines 98-115 and 127: the style declarations
    [cssLines], the style string [cssString], the lines of the diagram
    [cleanedSource] and the text it gives the script element. *)
Record ParsedBlock := {
  cssLines : list string;
  cssString : string;
  cleanedSource : string;
  scriptText : string
}.

Definition is_style_line (line : string) : bool :=
  JS.startsWith (JS.trimStart line) "%".

Definition cssText_of (line : string) : string :=
  JS.trim (JS.replace_leading_percent line).

Definition parseTikzBlock (source : string) : ParsedBlock :=
  let lines := JS.split JS.LF source in
  let codeStart := JS.findIndex (fun line => negb (is_style_line line)) lines in
  let codeLines :=
    if (codeStart =? -1)%Z then [] else JS.slice_from lines codeStart in
  let cssLines :=
    filter (fun cssText => negb (JS.is_empty cssText))
      (map cssText_of
         (JS.slice lines 0
            (if (codeStart =? -1)%Z then Z.of_nat (List.length lines)
             else codeStart))) in
  let cssString := JS.join "; " cssLines in
  let cleanedSource := JS.join JS.nl codeLines in
  {| cssLines := cssLines;
     cssString := cssString;
     cleanedSource := cleanedSource;
     scriptText := tidyTikzSource cleanedSource |}.

(** ** Platform: the DOM *)

Module DOM.

(** A node of a rendered graphic: an element with its attributes in source
    order and its children, or a text node. *)
#[warning="-register-all"]
Inductive node : Type :=
| Element (tagName : string) (attributes : list (string * string))
    (childNodes : list node)
| Text (data : string).

(** An element held by the program (the event target [svgEl]). *)
Record HTMLElement : Type := mkElement {
  tagName : string;
  attributes : list (string * string);
  childNodes : list node
}.

Definition as_node (e : HTMLElement) : node :=
  Element (tagName e) (attributes e) (childNodes e).

Fixpoint getAttribute (attrs : list (string * string)) (name : string)
    : option string :=
  match attrs with
  | [] => None
  | (n, v) :: rest => if (n =? name)%string then Some v else getAttribute rest name
  end.

(** [element.id]: the value of the id attribute, empty when there is none. *)
Definition id (e : HTMLElement) : string :=
  match getAttribute (attributes e) "id" with
  | Some v => v
  | None => EmptyString
  end.

(** *** Serialization ([innerHTML] and [outerHTML] getters)

    The HTML fragment serialization algorithm for elements and text: every
    element is written with a start and an end tag, attribute values between
    double quotes with the ampersand, the no-break space and the double quote
    escaped, text with the ampersand, the no-break space and the angle
    brackets escaped. *)

Fixpoint escape (attributeMode : bool) (s : string) : string :=
  match s with
  | EmptyString => EmptyString
  | String c s' =>
      let rest := escape attributeMode s' in
      if Ascii.eqb c "&" then "&amp;" ++ rest
      else if Ascii.eqb c JS.NBSP then "&nbsp;" ++ rest
      else if attributeMode then
        if Ascii.eqb c JS.DQUOTE then "&quot;" ++ rest else String c rest
      else if Ascii.eqb c "<" then "&lt;" ++ rest
      else if Ascii.eqb c ">" then "&gt;" ++ rest
      else String c rest
  end.

Fixpoint serialize_attributes (attrs : list (string * string)) : string :=
  match attrs with
  | [] => EmptyString
  | (n, v) :: rest =>
      " " ++ n ++ "=" ++ JS.quoted (escape true v) ++ serialize_attributes rest
  end.

Fixpoint serialize (n : node) : string :=
  match n with
  | Text d => escape false d
  | Element tag attrs kids =>
      "<" ++ tag ++ serialize_attributes attrs ++ ">"
      ++ (fix children (l : list node) : string :=
            match l with
            | [] => EmptyString
            | k :: l' => serialize k ++ children l'
            end) kids
      ++ "</" ++ tag ++ ">"
  end.

Fixpoint serialize_nodes (l : list node) : string :=
  match l with
  | [] => EmptyString
  | k :: l' => serialize k ++ serialize_nodes l'
  end.

Definition innerHTML (e : HTMLElement) : string := serialize_nodes (childNodes e).
Definition outerHTML (e : HTMLElement) : string := serialize (as_node e).

(** *** [querySelectorAll('[id]')]

    The descendants that carry an id attribute, in tree order.  The result is
    a static list: it keeps the elements found at the time of the call. *)
Fixpoint elements_with_id (n : node) : list HTMLElement :=
  match n with
  | Text _ => []
  | Element tag attrs kids =>
      (match getAttribute attrs "id" with
       | Some _ => [mkElement tag attrs kids]
       | None => []
       end
       ++ (fix children (l : list node) : list HTMLElement :=
             match l with
             | [] => []
             | k :: l' => elements_with_id k ++ children l'
             end) kids)%list
  end.

Definition querySelectorAll_id (e : HTMLElement) : list HTMLElement :=
  flat_map elements_with_id (childNodes e).

(** Fragment references held by the descendants: the attribute values of the
    form [#name], without the hash sign. *)
Definition fragment_of (v : string) : list string :=
  match v with
  | String "#"%char name => [name]
  | _ => []
  end.

Fixpoint references_of (n : node) : list string :=
  match n with
  | Text _ => []
  | Element _ attrs kids =>
      (flat_map (fun nv => fragment_of (snd nv)) attrs
       ++ (fix children (l : list node) : list string :=
             match l with
             | [] => []
             | k :: l' => references_of k ++ children l'
             end) kids)%list
  end.

Definition ids_in (e : HTMLElement) : list string :=
  map id (querySelectorAll_id e).

Definition references_in (e : HTMLElement) : list string :=
  flat_map references_of (childNodes e).

(** *** Parsing ([innerHTML] and [outerHTML] setters)

    A tokenizer and a tree builder for the markup the serializer writes, with
    self-closing tags as foreign (SVG) content has them.  The states and their
    transitions are those of the HTML tokenizer for tags, attributes and
    text; names are kept in the case they are written in, and comments,
    doctypes and character references other than the five the serializer
    writes are read as text. *)

Inductive token : Type :=
| StartTag (name : string) (attrs : list (string * string)) (selfClosing : bool)
| EndTag (name : string)
| Characters (data : string).

Inductive tokenizer_state : Type :=
| Data
| TagOpen
| EndTagOpen
| TagName
| BeforeAttributeName
| AttributeName
| AfterAttributeName
| BeforeAttributeValue
| AttributeValue (quote : option ascii)
| AfterAttributeValue
| SelfClosingStartTag.

Record tokenizer : Type := mkTokenizer {
  state : tokenizer_state;
  pending_text : string;
  is_end_tag : bool;
  tag_name : string;
  tag_attrs : list (string * string);
  attr_name : string;
  attr_value : string;
  emitted : list token            (* most recent first *)
}.

Definition snoc (s : string) (c : ascii) : string := s ++ String c EmptyString.

Definition is_ascii_alpha (c : ascii) : bool :=
  let n := nat_of_ascii c in
  ((65 <=? n) && (n <=? 90) || (97 <=? n) && (n <=? 122))%nat.

Fixpoint decode_from (skip : nat) (s : string) : string :=
  match s with
  | EmptyString => EmptyString
  | String c s' =>
      match skip with
      | S k => decode_from k s'
      | O =>
          if prefix "&amp;" s then String "&" (decode_from 4 s')
          else if prefix "&lt;" s then String "<" (decode_from 3 s')
          else if prefix "&gt;" s then String ">" (decode_from 3 s')
          else if prefix "&quot;" s then String JS.DQUOTE (decode_from 5 s')
          else if prefix "&nbsp;" s then String JS.NBSP (decode_from 5 s')
          else String c (decode_from 0 s')
      end
  end.

Definition decode (s : string) : string := decode_from 0 s.

Definition with_state (st : tokenizer_state) (z : tokenizer) : tokenizer :=
  mkTokenizer st (pending_text z) (is_end_tag z) (tag_name z) (tag_attrs z)
    (attr_name z) (attr_value z) (emitted z).

Definition add_text (t : string) (z : tokenizer) : tokenizer :=
  mkTokenizer Data (pending_text z ++ t) (is_end_tag z) (tag_name z)
    (tag_attrs z) (attr_name z) (attr_value z) (emitted z).

Definition flush_text (z : tokenizer) : tokenizer :=
  match pending_text z with
  | EmptyString => z
  | t =>
      mkTokenizer (state z) EmptyString (is_end_tag z) (tag_name z) (tag_attrs z)
        (attr_name z) (attr_value z) (Characters (decode t) :: emitted z)
  end.

Definition begin_tag (closing : bool) (c : ascii) (z : tokenizer) : tokenizer :=
  let z := flush_text z in
  mkTokenizer TagName EmptyString closing (String c EmptyString) []
    EmptyString EmptyString (emitted z).

Definition tag_name_add (c : ascii) (z : tokenizer) : tokenizer :=
  mkTokenizer TagName (pending_text z) (is_end_tag z) (snoc (tag_name z) c)
    (tag_attrs z) (attr_name z) (attr_value z) (emitted z).

Definition begin_attribute (c : ascii) (z : tokenizer) : tokenizer :=
  mkTokenizer AttributeName (pending_text z) (is_end_tag z) (tag_name z)
    (tag_attrs z) (String c EmptyString) EmptyString (emitted z).

Definition attr_name_add (c : ascii) (z : tokenizer) : tokenizer :=
  mkTokenizer AttributeName (pending_text z) (is_end_tag z) (tag_name z)
    (tag_attrs z) (snoc (attr_name z) c) (attr_value z) (emitted z).

Definition attr_value_add (q : option ascii) (c : ascii) (z : tokenizer)
    : tokenizer :=
  mkTokenizer (AttributeValue q) (pending_text z) (is_end_tag z) (tag_name z)
    (tag_attrs z) (attr_name z) (snoc (attr_value z) c) (emitted z).

(** The attribute being read is complete; a name already present on the tag
    is dropped. *)
Definition push_attribute (z : tokenizer) : tokenizer :=
  match attr_name z with
  | EmptyString => z
  | n =>
      let attrs :=
        match getAttribute (tag_attrs z) n with
        | Some _ => tag_attrs z
        | None => (tag_attrs z ++ [(n, decode (attr_value z))])%list
        end in
      mkTokenizer (state z) (pending_text z) (is_end_tag z) (tag_name z) attrs
        EmptyString EmptyString (emitted z)
  end.

Definition emit_tag (selfClosing : bool) (z : tokenizer) : tokenizer :=
  let t := if is_end_tag z then EndTag (tag_name z)
           else StartTag (tag_name z) (tag_attrs z) selfClosing in
  mkTokenizer Data EmptyString false EmptyString [] EmptyString EmptyString
    (t :: emitted z).

Definition before_attribute_name (c : ascii) (z : tokenizer) : tokenizer :=
  if JS.is_whitespace c then with_state BeforeAttributeName z
  else if Ascii.eqb c "/" then with_state SelfClosingStartTag z
  else if Ascii.eqb c ">" then emit_tag false z
  else begin_attribute c z.

Definition data_state (c : ascii) (z : tokenizer) : tokenizer :=
  if Ascii.eqb c "<" then with_state TagOpen z
  else add_text (String c EmptyString) z.

Definition step (z : tokenizer) (c : ascii) : tokenizer :=
  match state z with
  | Data => data_state c z
  | TagOpen =>
      if Ascii.eqb c "/" then with_state EndTagOpen z
      else if is_ascii_alpha c then begin_tag false c z
      else data_state c (add_text "<" z)
  | EndTagOpen =>
      if is_ascii_alpha c then begin_tag true c z
      else if Ascii.eqb c ">" then with_state Data z
      else data_state c (add_text "</" z)
  | TagName =>
      if JS.is_whitespace c then with_state BeforeAttributeName z
      else if Ascii.eqb c "/" then with_state SelfClosingStartTag z
      else if Ascii.eqb c ">" then emit_tag false z
      else tag_name_add c z
  | BeforeAttributeName => before_attribute_name c z
  | AttributeName =>
      if JS.is_whitespace c then with_state AfterAttributeName z
      else if Ascii.eqb c "/" then with_state SelfClosingStartTag (push_attribute z)
      else if Ascii.eqb c "=" then with_state BeforeAttributeValue z
      else if Ascii.eqb c ">" then emit_tag false (push_attribute z)
      else attr_name_add c z
  | AfterAttributeName =>
      if JS.is_whitespace c then z
      else if Ascii.eqb c "/" then with_state SelfClosingStartTag (push_attribute z)
      else if Ascii.eqb c "=" then with_state BeforeAttributeValue z
      else if Ascii.eqb c ">" then emit_tag false (push_attribute z)
      else begin_attribute c (push_attribute z)
  | BeforeAttributeValue =>
      if JS.is_whitespace c then z
      else if Ascii.eqb c JS.DQUOTE then with_state (AttributeValue (Some c)) z
      else if Ascii.eqb c "'" then with_state (AttributeValue (Some c)) z
      else if Ascii.eqb c ">" then emit_tag false (push_attribute z)
      else attr_value_add None c z
  | AttributeValue (Some q) =>
      if Ascii.eqb c q then with_state AfterAttributeValue (push_attribute z)
      else attr_value_add (Some q) c z
  | AttributeValue None =>
      if JS.is_whitespace c then with_state BeforeAttributeName (push_attribute z)
      else if Ascii.eqb c ">" then emit_tag false (push_attribute z)
      else attr_value_add None c z
  | AfterAttributeValue => before_attribute_name c z
  | SelfClosingStartTag =>
      if Ascii.eqb c ">" then emit_tag true z else before_attribute_name c z
  end.

Fixpoint run (z : tokenizer) (s : string) : tokenizer :=
  match s with
  | EmptyString => z
  | String c s' => run (step z c) s'
  end.

Definition initial : tokenizer :=
  mkTokenizer Data EmptyString false EmptyString [] EmptyString EmptyString [].

(** At the end of the input pending text is emitted; a tag that is still
    open is dropped. *)
Definition tokenize (s : string) : list token :=
  let z := run initial s in
  rev (emitted (match state z with Data => flush_text z | _ => z end)).

(** An open element: its name, its attributes and the children read so far,
    most recent first. *)
Definition frame : Type := (string * list (string * string) * list node)%type.

Definition add_child (n : node) (stack : list frame) (root : list node)
    : list frame * list node :=
  match stack with
  | (t, a, kids) :: rest => ((t, a, n :: kids) :: rest, root)
  | [] => ([], n :: root)
  end.

Fixpoint pop_to (name : string) (carry : list node) (stack : list frame)
    (root : list node) : list frame * list node :=
  match stack with
  | [] => ([], (carry ++ root)%list)
  | (t, a, kids) :: rest =>
      let el := Element t a (rev (carry ++ kids)) in
      if (t =? name)%string then add_child el rest root
      else pop_to name [el] rest root
  end.

Fixpoint close_all (carry : list node) (stack : list frame) (root : list node)
    : list node :=
  match stack with
  | [] => rev (carry ++ root)
  | (t, a, kids) :: rest => close_all [Element t a (rev (carry ++ kids))] rest root
  end.

Definition is_open (name : string) (stack : list frame) : bool :=
  existsb (fun f => (fst (fst f) =? name)%string) stack.

Fixpoint build (tokens : list token) (stack : list frame) (root : list node)
    : list node :=
  match tokens with
  | [] => close_all [] stack root
  | Characters d :: rest =>
      let '(stack', root') := add_child (Text d) stack root in
      build rest stack' root'
  | StartTag n a true :: rest =>
      let '(stack', root') := add_child (Element n a []) stack root in
      build rest stack' root'
  | StartTag n a false :: rest => build rest ((n, a, []) :: stack) root
  | EndTag n :: rest =>
      if is_open n stack then
        let '(stack', root') := pop_to n [] stack root in
        build rest stack' root'
      else build rest stack root
  end.

Definition parse_markup (s : string) : list node := build (tokenize s) [] [].

End DOM.

(** *** Documents, event listeners and faults *)

Module Doc.
Import DOM.

(** The listeners the plugin can tell apart: its own [postProcessSvg] (one
    function object per plugin instance) and those of other code. *)
Inductive EventListener : Type :=
| PostProcessSvg
| Foreign (k : nat).

Definition listener_eqb (a b : EventListener) : bool :=
  match a, b with
  | PostProcessSvg, PostProcessSvg => true
  | Foreign i, Foreign j => Nat.eqb i j
  | _, _ => false
  end.

Record Document : Type := mkDocument {
  head : list node;
  body : list node;
  listeners : list (string * EventListener)
}.

Inductive exn : Type := TypeError.

Inductive result (A : Type) : Type :=
| Ok (value : A)
| Throw (e : exn).
Arguments Ok {A} value.
Arguments Throw {A} e.

Definition has_id (i : string) (attrs : list (string * string)) : bool :=
  match getAttribute attrs "id" with
  | Some v => (v =? i)%string
  | None => false
  end.

(** The first element in tree order, among [n] and its descendants, whose id
    is [i], and what is left of [n] once that element is detached ([None]
    when the element is [n] itself). *)
Fixpoint detach (i : string) (n : node) : option (node * option node) :=
  match n with
  | Text _ => None
  | Element tag attrs kids =>
      if has_id i attrs then Some (n, None)
      else
        match
          (fix children (l : list node) : option (node * list node) :=
             match l with
             | [] => None
             | k :: l' =>
                 match detach i k with
                 | Some (found, Some k') => Some (found, k' :: l')
                 | Some (found, None) => Some (found, l')
                 | None =>
                     match children l' with
                     | Some (found, l'') => Some (found, k :: l'')
                     | None => None
                     end
                 end
             end) kids
        with
        | Some (found, kids') => Some (found, Some (Element tag attrs kids'))
        | None => None
        end
  end.

Fixpoint detach_in (i : string) (l : list node) : option (node * list node) :=
  match l with
  | [] => None
  | k :: l' =>
      match detach i k with
      | Some (found, Some k') => Some (found, k' :: l')
      | Some (found, None) => Some (found, l')
      | None =>
          match detach_in i l' with
          | Some (found, l'') => Some (found, k :: l'')
          | None => None
          end
      end
  end.

(** [doc.getElementById(i)] together with the document as it is after
    [remove()] is called on the element found. *)
Definition locate (doc : Document) (i : string) : option (node * Document) :=
  match detach_in i (head doc) with
  | Some (found, head') => Some (found, mkDocument head' (body doc) (listeners doc))
  | None =>
      match detach_in i (body doc) with
      | Some (found, body') =>
          Some (found, mkDocument (head doc) body' (listeners doc))
      | None => None
      end
  end.

Definition getElementById (doc : Document) (i : string) : option node :=
  option_map fst (locate doc i).

Definition appendChild_body (doc : Document) (n : node) : Document :=
  mkDocument (head doc) (body doc ++ [n])%list (listeners doc).

Definition same_listener (type : string) (callback : EventListener)
    (l : string * EventListener) : bool :=
  (fst l =? type)%string && listener_eqb (snd l) callback.

(** [addEventListener]: a listener already registered for the same type with
    the same callback is not registered again. *)
Definition addEventListener (doc : Document) (type : string)
    (callback : EventListener) : Document :=
  if existsb (same_listener type callback) (listeners doc) then doc
  else mkDocument (head doc) (body doc) (listeners doc ++ [(type, callback)])%list.

Definition removeEventListener (doc : Document) (type : string)
    (callback : EventListener) : Document :=
  mkDocument (head doc) (body doc)
    (filter (fun l => negb (same_listener type callback l)) (listeners doc)).

(** The children the [innerText] setter gives an element: the text between
    line breaks as text nodes, one [br] element per line break. *)
Fixpoint rendered_text_fragment (pending : string) (afterCR : bool) (s : string)
    : list node :=
  let flush := match pending with EmptyString => [] | t => [Text t] end in
  match s with
  | EmptyString => flush
  | String c s' =>
      if Ascii.eqb c JS.LF then
        if afterCR then rendered_text_fragment EmptyString false s'
        else (flush ++ Element "br" [] [] :: rendered_text_fragment EmptyString false s')%list
      else if Ascii.eqb c "013" then
        (flush ++ Element "br" [] [] :: rendered_text_fragment EmptyString true s')%list
      else rendered_text_fragment (snoc pending c) false s'
  end.

End Doc.

(** ** The plugin *)

(** Modelled from the spec: the settings type of [settings.ts], which is not
    among the sources; the spec gives it the boolean option
    [invertColorsInDarkMode], the one field [main.ts] reads. *)
Record TikzjaxPluginSettings : Type := {
  invertColorsInDarkMode : bool
}.

(** The configuration [optimizeSVG] hands to SVGO. *)
Record SvgoConfig : Type := {
  plugin_name : string;
  cleanupIDs : bool
}.

(** The calls [postProcessSvg] makes, in the order it makes them. *)
Inductive call : Type :=
| CallIsolateIds
| CallColorSVGinDarkMode
| CallOptimizeSVG
| SetOuterHTML (markup : string).

Definition Traced (A : Type) : Type := (list call * A)%type.
Definition ret {A : Type} (a : A) : Traced A := ([], a).
Definition bind {A B : Type} (m : Traced A) (f : A -> Traced B) : Traced B :=
  let '(t1, a) := m in let '(t2, b) := f a in ((t1 ++ t2)%list, b).
Definition traced {A : Type} (c : call) (a : A) : Traced A := ([c], a).

Notation "x <- m ;; f" := (bind m (fun x => f))
  (at level 61, m at next level, right associativity).

Section Plugin.
Import DOM Doc.

(** The collaborators the plugin imports: the HTML fragment parser behind the
    [innerHTML] and [outerHTML] setters, the values successive calls of
    [uuidv4()] return, SVGO's [optimize] (its [data] field) and the inlined
    engine script. *)
Variable parseHTML : string -> list node.
Variable uuidv4 : nat -> string.
Variable optimize : string -> SvgoConfig -> string.
Variable tikzjaxJs : string.
Variable settings : TikzjaxPluginSettings.

Definition set_innerHTML (e : HTMLElement) (markup : string) : HTMLElement :=
  mkElement (tagName e) (attributes e) (parseHTML markup).

(** The loop of [isolateIds], main.ts lines 198-203; [k] counts the calls of
    [uuidv4] made so far.  The elements of the list were found before the
    first assignment and keep the id they had then. *)
Fixpoint isolate_loop (elementsWithIds : list HTMLElement) (k : nat)
    (svgEl : HTMLElement) : HTMLElement :=
  match elementsWithIds with
  | [] => svgEl
  | element :: rest =>
      let oldId := DOM.id element in
      let newId := uuidv4 k in
      isolate_loop rest (S k)
        (set_innerHTML svgEl (JS.replaceAll oldId newId (innerHTML svgEl)))
  end.

(** [isolateIds], main.ts lines 196-204. *)
Definition isolateIds (svgEl : HTMLElement) : HTMLElement :=
  let elementsWithIds := querySelectorAll_id svgEl in
  isolate_loop elementsWithIds 0 svgEl.

(** [optimizeSVG], main.ts lines 174-194. *)
Definition optimizeSVG (svg : string) : string :=
  optimize svg {| plugin_name := "preset-default"; cleanupIDs := false |}.

(** [postProcessSvg], main.ts lines 206-221: the trace of calls and the
    nodes that stand in place of the event target afterwards. *)
Definition postProcessSvg (svgEl : HTMLElement) : Traced (list node) :=
  svgEl <- traced CallIsolateIds (isolateIds svgEl) ;;
  let svg := outerHTML svgEl in
  svg <- (if invertColorsInDarkMode settings
          then traced CallColorSVGinDarkMode (colorSVGinDarkMode svg)
          else ret svg) ;;
  svg <- traced CallOptimizeSVG (optimizeSVG svg) ;;
  traced (SetOuterHTML svg) (parseHTML svg).

(** [loadTikZJax], main.ts lines 45-54. *)
Definition loadTikZJax (doc : Document) : Document :=
  let s :=
    Element "script" [("id", "tikzjax"); ("type", "text/javascript")]
      (rendered_text_fragment EmptyString false tikzjaxJs) in
  let doc := appendChild_body doc s in
  addEventListener doc "tikzjax-load-finished" PostProcessSvg.

(** [unloadTikZJax], main.ts lines 56-61: calling [remove] on the null that
    [getElementById] returns for a missing element throws. *)
Definition unloadTikZJax (doc : Document) : result Document :=
  match locate doc "tikzjax" with
  | None => Throw TypeError
  | Some (_, doc) =>
      Ok (removeEventListener doc "tikzjax-load-finished" PostProcessSvg)
  end.

(** The wrapper the code block processor of [registerTikzCodeBlock] adds to
    the page, main.ts lines 117-127. *)
Definition registerTikzCodeBlock (source : string) : node :=
  let p := parseTikzBlock source in
  let script :=
    Element "script" [("type", "text/tikz"); ("data-show-console", "true")]
      (match scriptText p with EmptyString => [] | t => [Text t] end) in
  Element "div"
    (if JS.is_empty (cssString p) then [] else [("style", cssString p)])
    [script].

End Plugin.

(** ** Vocabulary of the specifications *)

Module Spec.
Import JS.

(** [p] occurs in [s]. *)
Definition occurs (p s : string) : Prop := exists l r, s = l ++ p ++ r.

Definition mem (c : ascii) (s : string) : bool := existsb (Ascii.eqb c) (chars s).

(** No code unit of [a] occurs in [b]. *)
Definition disjoint_chars (a b : string) : bool :=
  forallb (fun c => negb (mem c b)) (chars a).

(** [Rewritten pats rep s s']: [s'] is [s] with some non-overlapping
    occurrences of the literals [pats] replaced by [rep], every code unit
    that starts no occurrence copied, read from left to right. *)
Inductive Rewritten (pats : list string) (rep : string) : string -> string -> Prop :=
| Rewritten_end : Rewritten pats rep EmptyString EmptyString
| Rewritten_token (p r r' : string) :
    In p pats -> Rewritten pats rep r r' ->
    Rewritten pats rep (p ++ r) (rep ++ r')
| Rewritten_keep (c : ascii) (r r' : string) :
    (forall p, In p pats -> prefix p (String c r) = false) ->
    Rewritten pats rep r r' ->
    Rewritten pats rep (String c r) (String c r').

(** The lines [tidyTikzSource] joins. *)
Definition tidy_lines (s : string) : list string :=
  filter (fun line => negb (is_empty line))
    (map trim (split LF (replaceAll "&nbsp;" EmptyString s))).

(** The four quoted literals [colorSVGinDarkMode] looks for. *)
Definition color_tokens : list string := dark_tokens ++ light_tokens.

(** The sum of the lengths of the strings of a list. *)
Definition total_length (l : list string) : nat :=
  fold_right (fun x n => String.length x + n) 0 l.

End Spec.

(** ** Markup with quoted values *)

Module Quoting.
Import JS Spec.

Definition no_quote (s : string) : bool := negb (mem DQUOTE s).

(** Text before a quoted value, and the value between the quotes. *)
Definition segment : Type := (string * string)%type.

(** [p1 "v1" p2 "v2" ... tail] *)
Fixpoint render_quoted (segs : list segment) (tail : string) : string :=
  match segs with
  | [] => tail
  | (p, v) :: r => p ++ quoted v ++ render_quoted r tail
  end.

Definition dark_values : list string := ["#000"; "black"].
Definition light_values : list string := ["#fff"; "white"].

Definition is_one_of (l : list string) (v : string) : bool :=
  existsb (String.eqb v) l.

(** What [colorSVGinDarkMode] is to make of a quoted value. *)
Definition recolor_value (v : string) : string :=
  if is_one_of dark_values v then "currentColor"
  else if is_one_of light_values v then "var(--background-primary)"
  else v.

Definition recolor_segment (pv : segment) : segment :=
  (fst pv, recolor_value (snd pv)).

(** Replace the values that are among [values] by [by_value]. *)
Definition replace_values (values : list string) (by_value : string)
    (pv : segment) : segment :=
  (fst pv, if is_one_of values (snd pv) then by_value else snd pv).

(** No double quote stands outside the delimiters of the values, and no
    text between two quoted values is one of [values]. *)
Definition well_quoted_for (values : list string) (segs : list segment)
    (tail : string) : bool :=
  forallb (fun pv => no_quote (fst pv) && negb (is_one_of values (fst pv))
                     && no_quote (snd pv)) segs
  && no_quote tail.

Definition well_quoted (segs : list segment) (tail : string) : bool :=
  well_quoted_for (dark_values ++ light_values) segs tail.

End Quoting.

(** ** Specification of the identifier isolation *)

Module Template.
Import JS Spec.

(** Markup seen as literal text with slots for the identifiers: [Ref i] is a
    place that holds the identifier of the [i]-th element that carries one
    (its id attribute, or a reference to it). *)
Inductive piece : Type :=
| Lit (s : string)
| Ref (i : nat).

Definition template : Type := list piece.

Fixpoint render (ids : nat -> string) (t : template) : string :=
  match t with
  | [] => EmptyString
  | Lit s :: r => s ++ render ids r
  | Ref i :: r => ids i ++ render ids r
  end.

Fixpoint refs (t : template) : list nat :=
  match t with
  | [] => []
  | Lit _ :: r => refs r
  | Ref i :: r => i :: refs r
  end.

(** A graphic seen as a tree whose attribute values are literal text with
    slots for the identifiers. *)
#[warning="-register-all"]
Inductive tnode : Type :=
| TElement (tag : string) (attrs : list (string * template)) (kids : list tnode)
| TText (data : string).

Definition instantiate_attribute (ids : nat -> string) (nv : string * template)
    : string * string :=
  (fst nv, render ids (snd nv)).

(** The graphic with the identifiers [ids] in the slots. *)
Fixpoint instantiate (ids : nat -> string) (T : tnode) : DOM.node :=
  match T with
  | TText d => DOM.Text d
  | TElement tag attrs kids =>
      DOM.Element tag (map (instantiate_attribute ids) attrs)
        (map (instantiate ids) kids)
  end.

Definition escape_piece (p : piece) : piece :=
  match p with
  | Lit s => Lit (DOM.escape true s)
  | Ref i => Ref i
  end.

Fixpoint attribute_pieces (attrs : list (string * template)) : template :=
  match attrs with
  | [] => []
  | (n, v) :: r =>
      (Lit (" " ++ n ++ "=" ++ String DQUOTE EmptyString)
       :: map escape_piece v
       ++ Lit (String DQUOTE EmptyString) :: attribute_pieces r)%list
  end.

(** The markup of the tree, slots kept. *)
Fixpoint flatten (T : tnode) : template :=
  match T with
  | TText d => [Lit (DOM.escape false d)]
  | TElement tag attrs kids =>
      (Lit ("<" ++ tag)
       :: attribute_pieces attrs
       ++ Lit ">" :: flat_map flatten kids
       ++ [Lit ("</" ++ tag ++ ">")])%list
  end.

(** The identifiers in force after [k] passes of the loop: fresh for the
    first [k] elements, old for the others. *)
Definition ids_after (olds : list string) (uuidv4 : nat -> string) (k : nat)
    (i : nat) : string :=
  if (i <? k)%nat then uuidv4 i else nth i olds EmptyString.

End Template.

Module UUID.
Import JS.

Definition is_hex (c : ascii) : bool :=
  let n := nat_of_ascii c in
  ((48 <=? n) && (n <=? 57) || (97 <=? n) && (n <=? 102))%nat.

Definition position_ok (i : nat) (c : ascii) : bool :=
  if ((i =? 8) || (i =? 13) || (i =? 18) || (i =? 23))%nat then Ascii.eqb c "-"
  else if (i =? 14)%nat then Ascii.eqb c "4"
  else if (i =? 19)%nat then
    Ascii.eqb c "8" || Ascii.eqb c "9" || Ascii.eqb c "a" || Ascii.eqb c "b"
  else is_hex c.

Fixpoint positions_ok (i : nat) (l : list ascii) : bool :=
  match l with
  | [] => true
  | c :: r => position_ok i c && positions_ok (S i) r
  end.

(** The textual form of a version 4 UUID, as [uuidv4()] returns it. *)
Definition is_uuid_v4 (s : string) : bool :=
  (String.length s =? 36)%nat && positions_ok 0 (chars s).

End UUID.

Section IsolationSpec.
Import DOM JS Spec.

Variable parseHTML : string -> list node.
Variable uuidv4 : nat -> string.

(** The place of [r] in [olds], if any. *)
Fixpoint index_of (r : string) (olds : list string) : option nat :=
  match olds with
  | [] => None
  | o :: rest =>
      if (o =? r)%string then Some 0 else option_map S (index_of r rest)
  end.

Definition redirect (olds : list string) (r : string) : string :=
  match index_of r olds with
  | Some i => uuidv4 i
  | None => r
  end.

(** What the isolation is to achieve on [svgEl]: afterwards no two
    descendants carry the same identifier, the [i]-th descendant that carried
    one carries the [i]-th fresh identifier, every fragment reference to an
    old identifier names the fresh identifier of the element that carried
    it, and no reference is left without its element. *)
Definition isolates (svgEl : HTMLElement) : Prop :=
  let olds := ids_in svgEl in
  let after := isolateIds parseHTML uuidv4 svgEl in
  NoDup (ids_in after)
  /\ ids_in after = map uuidv4 (seq 0 (List.length olds))
  /\ references_in after = map (redirect olds) (references_in svgEl)
  /\ ((forall r, In r (references_in svgEl) -> In r olds) ->
      forall r, In r (references_in after) -> In r (ids_in after)).

(** A pass of the loop for [element] leaves every fresh identifier of an
    earlier element as it is: wherever [uuidv4 j] stands in the markup, the
    pass rewrites what is on its left and what is on its right and nothing
    of it.  [fresh_ids_kept] asks this of every pass of the loop. *)
Definition pass_keeps (oldId newId kept markup : string) : Prop :=
  forall l r, markup = l ++ kept ++ r ->
    replaceAll oldId newId markup
    = replaceAll oldId newId l ++ kept ++ replaceAll oldId newId r.

Fixpoint fresh_ids_kept (elementsWithIds : list HTMLElement) (k : nat)
    (svgEl : HTMLElement) : Prop :=
  match elementsWithIds with
  | [] => True
  | element :: rest =>
      let oldId := DOM.id element in
      let newId := uuidv4 k in
      (forall j, j < k -> pass_keeps oldId newId (uuidv4 j) (innerHTML svgEl))
      /\ fresh_ids_kept rest (S k)
           (set_innerHTML parseHTML svgEl
              (replaceAll oldId newId (innerHTML svgEl)))
  end.

Definition keeps_fresh_ids (svgEl : HTMLElement) : Prop :=
  fresh_ids_kept (querySelectorAll_id svgEl) 0 svgEl.

End IsolationSpec.

(** ** Sample inputs *)

Module Sample.
Import DOM Doc Template.

Definition uuid_a : string := "1b9d6bcd-bbfd-4b2d-9b5d-ab8dfbbd4bed".
Definition uuid_b : string := "6ec0bd7f-11c0-43da-975e-2a8ad9ebae0b".

(** A run of [uuidv4] that returns [uuid_a], then [uuid_b]. *)
Definition uuids (k : nat) : string := nth k [uuid_a; uuid_b] uuid_b.

(** [<svg><circle id="d"/><use href="#d"/></svg>] *)
Definition svg_d : HTMLElement :=
  mkElement "svg" []
    [Element "circle" [("id", "d")] []; Element "use" [("href", "#d")] []].

(** [<svg><circle id="a"/><rect id="b"/><use href="#a"/></svg>] *)
Definition svg_ab : HTMLElement :=
  mkElement "svg" []
    [Element "circle" [("id", "a")] []; Element "rect" [("id", "b")] [];
     Element "use" [("href", "#a")] []].

(** [<svg id="root"><circle id="X"/><rect id="Y"/><use href="#X"/></svg>] *)
Definition svg_XY : HTMLElement :=
  mkElement "svg" [("id", "root")]
    [Element "circle" [("id", "X")] []; Element "rect" [("id", "Y")] [];
     Element "use" [("href", "#X")] []].

(** The quoted literal of black followed by the word black and one more
    double quote. *)
Definition black_black : string :=
  JS.quoted "black" ++ "black" ++ String JS.DQUOTE EmptyString.

(** The text of [<path stroke="#000" fill="white" d="M0 0"></path>]. *)
Definition path_markup : list Quoting.segment * string :=
  ([("<path stroke=", "#000"); (" fill=", "white"); (" d=", "M0 0")],
   "></path>").

(** [<svg><path id="P" stroke="#000" fill="white"/></svg>] *)
Definition svg_path : HTMLElement :=
  mkElement "svg" []
    [Element "path" [("id", "P"); ("stroke", "#000"); ("fill", "white")] []].

(** A document with content and a listener of other code. *)
Definition note_document : Document :=
  mkDocument [Element "title" [] [Text "Note"]]
    [Element "div" [("id", "app")] [Element "p" [] [Text "text"]]]
    [("click", Foreign 0)].

Definition identity_optimize (svg : string) (_ : SvgoConfig) : string := svg.

End Sample.

(** ** The rest of the plugin: windows, syntax highlighting, life cycle *)

Module Workspace.
Import DOM Doc.

(** A child of the floating split: a pop-out window (an instance of
    [WorkspaceWindow], with the document of its [win]) or another item. *)
Inductive SplitChild : Type :=
| WorkspaceWindow (win : Document)
| OtherItem.

(** The part of [app.workspace] that [getAllWindows] reads; a window is
    given by its document. *)
Record Workspace : Type := mkWorkspace {
  rootSplit_win : Document;
  floatingSplit_children : list SplitChild
}.

Definition windows_of (children : list SplitChild) : list Document :=
  flat_map (fun child =>
              match child with
              | WorkspaceWindow win => [win]
              | OtherItem => []
              end) children.

(** [getAllWindows], main.ts lines 75-93. *)
Definition getAllWindows (ws : Workspace) : list Document :=
  rootSplit_win ws :: windows_of (floatingSplit_children ws).

(** The workspace once the documents of its windows have become [docs],
    window by window in the order of [getAllWindows]: the loops below change
    the documents where they are. *)
Fixpoint set_children (children : list SplitChild) (docs : list Document)
    : list SplitChild :=
  match children with
  | [] => []
  | OtherItem :: rest => OtherItem :: set_children rest docs
  | WorkspaceWindow win :: rest =>
      match docs with
      | d :: ds => WorkspaceWindow d :: set_children rest ds
      | [] => WorkspaceWindow win :: set_children rest []
      end
  end.

Definition set_windows (ws : Workspace) (docs : list Document) : Workspace :=
  match docs with
  | d :: ds => mkWorkspace d (set_children (floatingSplit_children ws) ds)
  | [] => ws
  end.

(** An entry of [CodeMirror.modeInfo]: its name and its other fields. *)
Record ModeInfo : Type := mkModeInfo {
  name : string;
  fields : list (string * string)
}.

(** What the plugin changes outside itself: the windows and the list of
    editor modes. *)
Record App : Type := mkApp {
  workspace : Workspace;
  modeInfo : list ModeInfo
}.

End Workspace.

Section Lifecycle.
Import DOM Doc Workspace.

Variable tikzjaxJs : string.

(** [loadTikZJaxAllWindows], main.ts lines 63-67. *)
Definition loadTikZJaxAllWindows (ws : Workspace) : Workspace :=
  set_windows ws (map (loadTikZJax tikzjaxJs) (getAllWindows ws)).

(** The loop of [unloadTikZJaxAllWindows] over the windows that are left:
    the documents as the loop leaves them, and the exception that ended it,
    if one did. *)
Fixpoint unload_each (windows : list Document) : list Document * option exn :=
  match windows with
  | [] => ([], None)
  | doc :: rest =>
      match unloadTikZJax doc with
      | Throw e => (doc :: rest, Some e)
      | Ok doc' =>
          let '(rest', thrown) := unload_each rest in (doc' :: rest', thrown)
      end
  end.

(** [unloadTikZJaxAllWindows], main.ts lines 69-73. *)
Definition unloadTikZJaxAllWindows (ws : Workspace) : Workspace * option exn :=
  let '(docs, thrown) := unload_each (getAllWindows ws) in
  (set_windows ws docs, thrown).

Definition tikz_mode : ModeInfo :=
  mkModeInfo "Tikz" [("mime", "text/x-latex"); ("mode", "stex")].

(** [addSyntaxHighlighting], main.ts lines 132-135. *)
Definition addSyntaxHighlighting (info : list ModeInfo) : list ModeInfo :=
  (info ++ [tikz_mode])%list.

(** [removeSyntaxHighlighting], main.ts lines 137-140. *)
Definition removeSyntaxHighlighting (info : list ModeInfo) : list ModeInfo :=
  filter (fun el => negb (name el =? "Tikz")%string) info.

(** The callback [onload] gives to [onLayoutReady], main.ts lines 18-23, as
    far as it changes the windows. *)
Definition whenLayoutReady (app : App) : App :=
  mkApp (loadTikZJaxAllWindows (workspace app)) (modeInfo app).

(** The handler of the window-open event, main.ts lines 20-22. *)
Definition onWindowOpen (document : Document) : Document :=
  loadTikZJax tikzjaxJs document.

(** [onload], main.ts lines 13-29, as far as it changes the application:
    the callback runs at once when the layout is ready and waits otherwise
    ([true] in the second component), then the editor mode is added. *)
Definition onload (layoutReady : bool) (app : App) : App * bool :=
  let app := if layoutReady then whenLayoutReady app else app in
  (mkApp (workspace app) (addSyntaxHighlighting (modeInfo app)),
   negb layoutReady).

(** [onunload], main.ts lines 31-34: an exception of the first call leaves
    the second one out. *)
Definition onunload (app : App) : App * option exn :=
  let '(ws, thrown) := unloadTikZJaxAllWindows (workspace app) in
  match thrown with
  | Some e => (mkApp ws (modeInfo app), Some e)
  | None => (mkApp ws (removeSyntaxHighlighting (modeInfo app)), None)
  end.

End Lifecycle.

(** ** Vocabulary of the identifier isolation: where a string occurs *)

Module Slots.
Import JS Spec DOM Template.

(** Some occurrence of [o] in [s ++ rest] begins inside [s]. *)
Fixpoint starts_in (o s rest : string) : bool :=
  match s with
  | EmptyString => false
  | String c s' => prefix o (String c s' ++ rest) || starts_in o s' rest
  end.

(** Some occurrence of [o] in the markup [render ids t] begins outside the
    slots [k]: in a literal, or in a slot for another identifier. *)
Fixpoint occurs_outside (o : string) (ids : nat -> string) (k : nat)
    (t : template) : bool :=
  match t with
  | [] => false
  | Lit s :: r => starts_in o s (render ids r) || occurs_outside o ids k r
  | Ref i :: r =>
      (if (i =? k)%nat then false else starts_in o (ids i) (render ids r))
      || occurs_outside o ids k r
  end.

Fixpoint get_template (attrs : list (string * template)) (name : string)
    : option template :=
  match attrs with
  | [] => None
  | (n, v) :: rest =>
      if (n =? name)%string then Some v else get_template rest name
  end.

(** The values of the id attributes of a tree with slots, in tree order:
    one for every element that carries an id attribute. *)
Fixpoint id_values (T : tnode) : list template :=
  match T with
  | TText _ => []
  | TElement tag attrs kids =>
      (match get_template attrs "id" with
       | Some v => [v]
       | None => []
       end
       ++ (fix children (l : list tnode) : list template :=
             match l with
             | [] => []
             | k :: l' => id_values k ++ children l'
             end) kids)%list
  end.

(** Some occurrence of [o] in [l ++ kept ++ r] overlaps [kept]: it begins
    in [l] and ends after it, or begins in [kept]. *)
Fixpoint overlaps (o l kept r : string) : bool :=
  match l with
  | EmptyString => starts_in o kept r
  | String c l' =>
      (prefix o (String c l' ++ kept ++ r)
       && (String.length (String c l') <? String.length o)%nat)
      || overlaps o l' kept r
  end.

(** The id attribute of the [i]-th element that carries one is the slot
    [i], for the [n] elements of the trees. *)
Definition id_slots (n : nat) : list template :=
  map (fun i => [Ref i]) (seq 0 n).

End Slots.

(** ** Vocabulary of the further properties *)

Module Spec2.
Import JS Spec DOM Doc Workspace.

(** The code units of [s] that are not white space, in order. *)
Definition non_whitespace (s : string) : list ascii :=
  filter (fun c => negb (is_whitespace c)) (chars s).

(** How often the code unit [c] stands in [s]. *)
Definition count_char (c : ascii) (s : string) : nat :=
  List.length (filter (Ascii.eqb c) (chars s)).

(** The script element [loadTikZJax] builds. *)
Definition engine_script (tikzjaxJs : string) : node :=
  Element "script" [("id", "tikzjax"); ("type", "text/javascript")]
    (rendered_text_fragment EmptyString false tikzjaxJs).

Definition is_plugin_listener : string * EventListener -> bool :=
  same_listener "tikzjax-load-finished" PostProcessSvg.

(** A document before any injection: no element with the id [tikzjax] and
    no listener of the plugin. *)
Definition pristine (doc : Document) : bool :=
  match locate doc "tikzjax" with
  | None => negb (existsb is_plugin_listener (listeners doc))
  | Some _ => false
  end.

(** The workspace after the host has opened a pop-out window with the
    document [doc]. *)
Definition with_popout (ws : Workspace) (doc : Document) : Workspace :=
  mkWorkspace (rootSplit_win ws)
    (floatingSplit_children ws ++ [WorkspaceWindow doc])%list.

Definition is_tikz_mode (el : ModeInfo) : bool := (name el =? "Tikz")%string.

End Spec2.

Module Sample2.
Import DOM Doc Workspace Sample.

(** A document that holds an element with the id [tikzjax] of its own. *)
Definition clash_document : Document :=
  mkDocument [] [Element "div" [("id", "tikzjax")] [Text "mine"]] [].

Definition popout_document : Document :=
  mkDocument [] [Element "p" [] [Text "pop-out"]] [("keydown", Foreign 1)].

Definition sample_workspace : Workspace :=
  mkWorkspace note_document [OtherItem; WorkspaceWindow popout_document].

Definition sample_modes : list ModeInfo :=
  [mkModeInfo "LaTeX" [("mime", "text/x-latex"); ("mode", "stex")]].

(** [<svg><path id="pgfcp1"/><rect id="pgfcp2"/><use href="#pgfcp1"/></svg>]:
    the identifiers share code units with the tag and attribute names and
    with the fresh identifiers, and occur in none of them. *)
Definition svg_pgf : HTMLElement :=
  mkElement "svg" []
    [Element "path" [("id", "pgfcp1")] []; Element "rect" [("id", "pgfcp2")] [];
     Element "use" [("href", "#pgfcp1")] []].

Definition tree_pgf : list Template.tnode :=
  [Template.TElement "path" [("id", [Template.Ref 0])] [];
   Template.TElement "rect" [("id", [Template.Ref 1])] [];
   Template.TElement "use" [("href", [Template.Lit "#"; Template.Ref 0])] []].

(** [<svg><circle id="X"/><rect id="X"/></svg>]: two elements with one
    identifier. *)
Definition svg_XX : HTMLElement :=
  mkElement "svg" []
    [Element "circle" [("id", "X")] []; Element "rect" [("id", "X")] []].

End Sample2.

(** * Facts about the platform strings *)

Module StringFacts.
Import JS Spec.

Lemma append_nil_r (s : string) : s ++ EmptyString = s.
Proof. induction s; simpl; congruence. Qed.

Lemma append_assoc (a b c : string) : (a ++ b) ++ c = a ++ b ++ c.
Proof. induction a; simpl; congruence. Qed.

Lemma length_append (a b : string) :
  String.length (a ++ b) = String.length a + String.length b.
Proof. induction a; simpl; congruence. Qed.

Lemma append_inv_head (a b c : string) : a ++ b = a ++ c -> b = c.
Proof. induction a; simpl; intros H; [assumption | injection H; auto]. Qed.

Lemma prefix_nil (s : string) : prefix EmptyString s = true.
Proof. destruct s; reflexivity. Qed.

Lemma prefix_cons (c d : ascii) (p s : string) :
  prefix (String c p) (String d s) = Ascii.eqb c d && prefix p s.
Proof.
  simpl. destruct (ascii_dec c d) as [->|n].
  - now rewrite Ascii.eqb_refl.
  - apply Ascii.eqb_neq in n. now rewrite n.
Qed.

Lemma prefix_append (p r : string) : prefix p (p ++ r) = true.
Proof.
  induction p as [|c p IH]; simpl; [apply prefix_nil|].
  destruct (ascii_dec c c); [exact IH | congruence].
Qed.

Lemma prefix_inv (p s : string) :
  prefix p s = true -> exists r, s = p ++ r.
Proof.
  revert s; induction p as [|c p IH]; intros s H.
  - exists s; reflexivity.
  - destruct s as [|d s]; [discriminate|].
    rewrite prefix_cons in H. apply andb_prop in H as [Hc Hp].
    apply Ascii.eqb_eq in Hc; subst d.
    destruct (IH _ Hp) as [r ->]. exists r; reflexivity.
Qed.

(** A prefix of [x ++ y] is a prefix of [x] or runs into [y]. *)
Lemma prefix_append_split (p x y : string) :
  prefix p (x ++ y) = true ->
  prefix p x = true \/
  exists c q, p = x ++ String c q /\ prefix (String c q) y = true.
Proof.
  revert p; induction x as [|d x IH]; intros p H.
  - destruct p as [|c q]; [left; reflexivity|].
    right; exists c, q; split; [reflexivity | exact H].
  - destruct p as [|c q]; [left; reflexivity|].
    simpl append in H. rewrite prefix_cons in H.
    apply andb_prop in H as [Hc Hq].
    destruct (IH _ Hq) as [Hl | (c' & q' & -> & Hr)].
    + left. rewrite prefix_cons, Hc, Hl; reflexivity.
    + right; exists c', q'. apply Ascii.eqb_eq in Hc; subst d.
      split; [reflexivity | exact Hr].
Qed.

Lemma prefix_weaken (p x y : string) :
  prefix p x = true -> prefix p (x ++ y) = true.
Proof.
  intros H. destruct (prefix_inv _ _ H) as [r ->].
  rewrite append_assoc. apply prefix_append.
Qed.

(** *** Occurrences *)

Lemma includes_occurs (s p : string) : includes s p = true <-> occurs p s.
Proof.
  induction s as [|c s IH]; cbn [includes].
  - split.
    + intros H. destruct (prefix_inv _ _ H) as [r Hr].
      exists EmptyString, r. exact Hr.
    + intros (l & r & H). destruct l; [|discriminate].
      destruct p; [reflexivity | discriminate].
  - rewrite orb_true_iff, IH. split.
    + intros [H | (l & r & ->)].
      * destruct (prefix_inv _ _ H) as [r Hr]. exists EmptyString, r. exact Hr.
      * exists (String c l), r. reflexivity.
    + intros (l & r & H). destruct l as [|d l].
      * left. simpl in H. rewrite H. apply prefix_append.
      * right. injection H as _ ->. exists l, r; reflexivity.
Qed.

Lemma includes_false_prefix (s p : string) :
  includes s p = false -> prefix p s = false.
Proof.
  destruct s; cbn [includes]; [auto|]. intros H. now apply orb_false_elim in H.
Qed.

Lemma includes_false_tail (c : ascii) (s p : string) :
  includes (String c s) p = false -> includes s p = false.
Proof. cbn [includes]. intros H. now apply orb_false_elim in H. Qed.

Lemma includes_append_r (l s p : string) :
  includes s p = true -> includes (l ++ s) p = true.
Proof.
  rewrite !includes_occurs. intros (a & b & ->).
  exists (l ++ a), b. now rewrite append_assoc.
Qed.

Lemma includes_append_l (s r p : string) :
  includes s p = true -> includes (s ++ r) p = true.
Proof.
  rewrite !includes_occurs. intros (a & b & ->).
  exists a, (b ++ r). now rewrite !append_assoc.
Qed.

(** *** Shared code units *)

Lemma mem_cons (c d : ascii) (s : string) :
  mem c (String d s) = Ascii.eqb c d || mem c s.
Proof. reflexivity. Qed.

Lemma mem_append (c : ascii) (a b : string) :
  mem c (a ++ b) = mem c a || mem c b.
Proof.
  induction a as [|d a IH]; [reflexivity|].
  simpl append. rewrite !mem_cons, IH. now rewrite orb_assoc.
Qed.

Lemma disjoint_cons_l (c : ascii) (a b : string) :
  disjoint_chars (String c a) b = negb (mem c b) && disjoint_chars a b.
Proof. reflexivity. Qed.

Lemma disjoint_head (c d : ascii) (a b : string) :
  disjoint_chars (String c a) (String d b) = true -> Ascii.eqb c d = false.
Proof.
  rewrite disjoint_cons_l, mem_cons. intros H.
  apply andb_prop in H as [H _]. apply negb_true_iff in H.
  now apply orb_false_elim in H.
Qed.

Lemma disjoint_mem (a b : string) (c : ascii) :
  disjoint_chars a b = true -> mem c a = true -> mem c b = false.
Proof.
  induction a as [|d a IH]; [discriminate|].
  rewrite disjoint_cons_l, mem_cons. intros H Hc.
  apply andb_prop in H as [Hd Ha]. apply orb_prop in Hc as [Hc | Hc].
  - apply Ascii.eqb_eq in Hc; subst. now apply negb_true_iff.
  - auto.
Qed.

Lemma disjoint_sym (a b : string) :
  disjoint_chars a b = true -> disjoint_chars b a = true.
Proof.
  intros H. unfold disjoint_chars. apply forallb_forall. intros c Hc.
  apply negb_true_iff. destruct (mem c a) eqn:E; [|reflexivity].
  assert (Hm : mem c b = true).
  { unfold mem. apply existsb_exists. exists c. split; [exact Hc|].
    apply Ascii.eqb_refl. }
  rewrite (disjoint_mem _ _ _ H E) in Hm. discriminate.
Qed.

Lemma disjoint_append_l (a1 a2 b : string) :
  disjoint_chars (a1 ++ a2) b = disjoint_chars a1 b && disjoint_chars a2 b.
Proof.
  induction a1 as [|c a1 IH]; [reflexivity|].
  simpl append. rewrite !disjoint_cons_l, IH. now rewrite andb_assoc.
Qed.

(** A non-empty string does not occur in a string it shares no code unit
    with. *)
Lemma disjoint_not_included (p s : string) :
  p <> EmptyString -> disjoint_chars p s = true -> includes s p = false.
Proof.
  intros Hp Hd. destruct (includes s p) eqn:E; [|reflexivity].
  apply includes_occurs in E as (l & r & ->).
  destruct p as [|c p]; [congruence|].
  rewrite disjoint_cons_l in Hd. apply andb_prop in Hd as [Hc _].
  apply negb_true_iff in Hc.
  rewrite mem_append in Hc. simpl append in Hc. rewrite mem_cons in Hc.
  rewrite Ascii.eqb_refl in Hc. simpl in Hc. now rewrite orb_true_r in Hc.
Qed.

End StringFacts.

(** * Facts about the replacement scan *)

Module ScanFacts.
Import JS Spec StringFacts.

Lemma drop_append (p r : string) : drop (String.length p) (p ++ r) = r.
Proof. induction p; simpl; auto. Qed.

Lemma scan_skip (pats : list string) (rep : string) (k : nat) (s : string) :
  scan_replace pats rep k s = scan_replace pats rep 0 (drop k s).
Proof.
  revert k; induction s as [|c s IH]; intros [|k]; try reflexivity.
  simpl drop. cbn [scan_replace]. apply IH.
Qed.

Lemma first_match_In (pats : list string) (s p : string) :
  first_match pats s = Some p -> In p pats /\ prefix p s = true.
Proof.
  induction pats as [|q ps IH]; simpl; [discriminate|].
  destruct (prefix q s) eqn:E.
  - intros [= <-]. auto.
  - intros H. destruct (IH H). auto.
Qed.

Lemma first_match_None (pats : list string) (s : string) :
  first_match pats s = None <-> forall p, In p pats -> prefix p s = false.
Proof.
  induction pats as [|q ps IH]; simpl.
  - split; [intros _ p [] | reflexivity].
  - destruct (prefix q s) eqn:E.
    + split; [discriminate|]. intros H. rewrite (H q) in E; [discriminate | auto].
    + rewrite IH. split.
      * intros H p [<- | Hp]; auto.
      * intros H p Hp. apply H. auto.
Qed.

Lemma scan_nil (pats : list string) (rep : string) :
  scan_replace pats rep 0 EmptyString = EmptyString.
Proof. reflexivity. Qed.

Lemma scan_miss (pats : list string) (rep : string) (c : ascii) (s : string) :
  first_match pats (String c s) = None ->
  scan_replace pats rep 0 (String c s) = String c (scan_replace pats rep 0 s).
Proof. intros H. cbn [scan_replace]. now rewrite H. Qed.

Lemma scan_hit (pats : list string) (rep p r : string) :
  p <> EmptyString ->
  first_match pats (p ++ r) = Some p ->
  scan_replace pats rep 0 (p ++ r) = rep ++ scan_replace pats rep 0 r.
Proof.
  destruct p as [|c p]; [congruence|]. intros _ H.
  simpl append in *. cbn [scan_replace]. rewrite H.
  rewrite scan_skip.
  replace (String.length (String c p) - 1) with (String.length p) by (simpl; lia).
  now rewrite drop_append.
Qed.

#[local] Arguments scan_replace : simpl never.

(** Induction along the scan: the empty string, a code unit that starts no
    match, and a match followed by the rest. *)
Lemma scan_ind (pats : list string) (P : string -> Prop) :
  Forall (fun p => p <> EmptyString) pats ->
  P EmptyString ->
  (forall c s, first_match pats (String c s) = None -> P s -> P (String c s)) ->
  (forall p r, p <> EmptyString -> first_match pats (p ++ r) = Some p ->
               P r -> P (p ++ r)) ->
  forall s, P s.
Proof.
  intros Hne Hnil Hmiss Hhit s.
  remember (String.length s) as n eqn:Hn.
  revert s Hn. induction n as [n IH] using lt_wf_ind. intros s Hn.
  destruct s as [|c s]; [exact Hnil|].
  destruct (first_match pats (String c s)) as [p|] eqn:E.
  - destruct (first_match_In _ _ _ E) as [Hin Hp].
    destruct (prefix_inv _ _ Hp) as [r Hr].
    assert (Hpne : p <> EmptyString).
    { rewrite Forall_forall in Hne. auto. }
    rewrite Hr in *. apply Hhit; auto.
    apply (IH (String.length r)); [|reflexivity].
    subst n. rewrite length_append.
    destruct p; [congruence | simpl; lia].
  - apply Hmiss; [exact E|]. apply (IH (String.length s)); [|reflexivity].
    subst n; simpl; lia.
Qed.

(** A string that holds none of the patterns is left as it is. *)
Lemma scan_absent (pats : list string) (rep s : string) :
  (forall p, In p pats -> includes s p = false) ->
  scan_replace pats rep 0 s = s.
Proof.
  induction s as [|c s IH]; intros H; [reflexivity|].
  rewrite scan_miss.
  - f_equal. apply IH. intros p Hp. eapply includes_false_tail; eauto.
  - apply first_match_None. intros p Hp. apply includes_false_prefix; auto.
Qed.

(** A pattern that shares no code unit with a non-empty [b] matches at the
    head of [x ++ b ++ r] exactly when it matches at the head of [x]. *)
Lemma prefix_barrier (q x b r : string) :
  b <> EmptyString -> disjoint_chars q b = true ->
  prefix q (x ++ b ++ r) = prefix q x.
Proof.
  intros Hb Hd. destruct (prefix q x) eqn:E.
  - now apply prefix_weaken.
  - destruct (prefix q (x ++ b ++ r)) eqn:E'; [|reflexivity].
    destruct (prefix_append_split _ _ _ E') as [H | (c & q' & -> & H)];
      [congruence|].
    destruct b as [|e b]; [congruence|]. simpl append in H.
    rewrite prefix_cons in H. apply andb_prop in H as [Hc _].
    apply Ascii.eqb_eq in Hc; subst e.
    rewrite disjoint_append_l in Hd. apply andb_prop in Hd as [_ Hd].
    apply disjoint_head in Hd. now rewrite Ascii.eqb_refl in Hd.
Qed.

Lemma first_match_barrier (pats : list string) (x b r : string) :
  b <> EmptyString ->
  (forall p, In p pats -> disjoint_chars p b = true) ->
  first_match pats (x ++ b ++ r) = first_match pats x.
Proof.
  intros Hb. induction pats as [|q ps IH]; intros Hd; [reflexivity|].
  simpl. rewrite prefix_barrier by (auto; apply Hd; simpl; auto).
  destruct (prefix q x); [reflexivity|]. apply IH. intros p Hp. apply Hd. simpl; auto.
Qed.

(** The scan passes over a string it shares no code unit with. *)
Lemma scan_barrier_head (pats : list string) (rep b r : string) :
  Forall (fun p => p <> EmptyString) pats ->
  (forall p, In p pats -> disjoint_chars p b = true) ->
  scan_replace pats rep 0 (b ++ r) = b ++ scan_replace pats rep 0 r.
Proof.
  intros Hne. induction b as [|c b IH]; intros Hd; [reflexivity|].
  simpl append. rewrite scan_miss.
  - f_equal. apply IH. intros p Hp. specialize (Hd p Hp).
    apply disjoint_sym in Hd. rewrite disjoint_cons_l in Hd.
    apply andb_prop in Hd as [_ Hd]. now apply disjoint_sym.
  - apply first_match_None. intros p Hp.
    rewrite Forall_forall in Hne. specialize (Hne p Hp). specialize (Hd p Hp).
    destruct p as [|d p]; [congruence|].
    rewrite prefix_cons. apply disjoint_head in Hd. now rewrite Hd.
Qed.

(** The scan of [l ++ b ++ r] is the scan of [l], then [b], then the scan
    of [r], when [b] is not empty and shares no code unit with a pattern. *)
Lemma scan_barrier (pats : list string) (rep l b r : string) :
  Forall (fun p => p <> EmptyString) pats ->
  b <> EmptyString ->
  (forall p, In p pats -> disjoint_chars p b = true) ->
  scan_replace pats rep 0 (l ++ b ++ r)
  = scan_replace pats rep 0 l ++ b ++ scan_replace pats rep 0 r.
Proof.
  intros Hne Hb Hd. revert l.
  apply (scan_ind pats (fun l => scan_replace pats rep 0 (l ++ b ++ r)
    = scan_replace pats rep 0 l ++ b ++ scan_replace pats rep 0 r) Hne).
  - simpl. now apply scan_barrier_head.
  - intros c s Hm IH.
    assert (Hm' : first_match pats (String c s ++ b ++ r) = None)
      by (rewrite first_match_barrier; auto).
    simpl append in *. rewrite (scan_miss _ _ _ _ Hm), (scan_miss _ _ _ _ Hm').
    simpl append. now rewrite IH.
  - intros p x Hp Hm IH.
    assert (Hm' : first_match pats ((p ++ x) ++ b ++ r) = Some p)
      by (rewrite first_match_barrier; auto).
    rewrite append_assoc in *.
    rewrite (scan_hit _ _ _ _ Hp Hm), (scan_hit _ _ _ _ Hp Hm'), IH.
    now rewrite append_assoc.
Qed.

(** ** [replaceAll] with a string pattern *)

Lemma replaceAll_scan (o n s : string) :
  o <> EmptyString -> replaceAll o n s = scan_replace [o] n 0 s.
Proof. destruct o; [congruence | reflexivity]. Qed.

Lemma replaceAll_absent (o n s : string) :
  includes s o = false -> replaceAll o n s = s.
Proof.
  intros H. destruct o as [|c o].
  - destruct s; discriminate.
  - rewrite replaceAll_scan by discriminate. apply scan_absent.
    intros p [<- | []]. exact H.
Qed.

Lemma replaceAll_exact (o n : string) :
  o <> EmptyString -> replaceAll o n o = n.
Proof.
  intros Ho. rewrite replaceAll_scan by assumption.
  rewrite <- (append_nil_r o) at 2. rewrite scan_hit; auto.
  - apply append_nil_r.
  - cbn [first_match]. now rewrite prefix_append.
Qed.

Lemma replaceAll_barrier (o n l b r : string) :
  o <> EmptyString -> b <> EmptyString -> disjoint_chars o b = true ->
  replaceAll o n (l ++ b ++ r) = replaceAll o n l ++ b ++ replaceAll o n r.
Proof.
  intros Ho Hb Hd. rewrite !replaceAll_scan by assumption.
  apply scan_barrier;
    [constructor; auto | assumption | intros p [<- | []]; exact Hd].
Qed.

Lemma replaceAll_barrier_head (o n b r : string) :
  o <> EmptyString -> disjoint_chars o b = true ->
  replaceAll o n (b ++ r) = b ++ replaceAll o n r.
Proof.
  intros Ho Hd. rewrite !replaceAll_scan by assumption.
  apply scan_barrier_head; [constructor; auto | intros p [<- | []]; exact Hd].
Qed.

End ScanFacts.

(** * [tidyTikzSource] and [colorSVGinDarkMode] *)

Module TextFacts.
Import JS Spec StringFacts ScanFacts.

#[local] Arguments scan_replace : simpl never.

(** ** Lengths along the scan *)

Lemma includes_cons_miss (pats : list string) (c : ascii) (s : string) :
  first_match pats (String c s) = None ->
  (forall p, In p pats -> includes s p = false) ->
  forall p, In p pats -> includes (String c s) p = false.
Proof.
  intros Hm H p Hp. cbn [includes].
  rewrite first_match_None in Hm. now rewrite (Hm p Hp), (H p Hp).
Qed.

(** The scan changes the length one way when every replacement does. *)
Ltac scan_length pats Hne Hlen :=
  apply (scan_ind pats); [exact Hne | | |];
  [ split; [reflexivity|]; intros _ p Hp;
    rewrite Forall_forall in Hne; specialize (Hne p Hp);
    destruct p; [congruence | reflexivity]
  | intros c s Hm [IH1 IH2]; rewrite (scan_miss _ _ _ _ Hm);
    simpl String.length; split; [lia|]; intros E;
    apply includes_cons_miss; auto
  | intros p r Hp Hm [IH1 IH2]; rewrite (scan_hit _ _ _ _ Hp Hm);
    destruct (first_match_In _ _ _ Hm) as [Hin _]; specialize (Hlen p Hin);
    rewrite !length_append; split; lia ].

(** When every pattern is shorter than the replacement the scan never
    shortens its input, and keeps its length only if nothing matched. *)
Lemma scan_grows (pats : list string) (rep s : string) :
  Forall (fun p => p <> EmptyString) pats ->
  (forall p, In p pats -> String.length p < String.length rep) ->
  String.length s <= String.length (scan_replace pats rep 0 s) /\
  (String.length (scan_replace pats rep 0 s) = String.length s ->
   forall p, In p pats -> includes s p = false).
Proof. intros Hne Hlen. revert s. scan_length pats Hne Hlen. Qed.

(** When every pattern is longer than the replacement the scan never
    lengthens its input, and keeps its length only if nothing matched. *)
Lemma scan_shrinks (pats : list string) (rep s : string) :
  Forall (fun p => p <> EmptyString) pats ->
  (forall p, In p pats -> String.length rep < String.length p) ->
  String.length (scan_replace pats rep 0 s) <= String.length s /\
  (String.length (scan_replace pats rep 0 s) = String.length s ->
   forall p, In p pats -> includes s p = false).
Proof. intros Hne Hlen. revert s. scan_length pats Hne Hlen. Qed.

(** The scan meets the relational description of a replacement pass. *)
Lemma scan_Rewritten (pats : list string) (rep s : string) :
  Forall (fun p => p <> EmptyString) pats ->
  Rewritten pats rep s (scan_replace pats rep 0 s).
Proof.
  intros Hne. revert s. apply (scan_ind pats); [exact Hne | | |].
  - constructor.
  - intros c s Hm IH. rewrite (scan_miss _ _ _ _ Hm).
    constructor; [|exact IH]. now apply first_match_None.
  - intros p r Hp Hm IH. rewrite (scan_hit _ _ _ _ Hp Hm).
    constructor; [|exact IH]. now destruct (first_match_In _ _ _ Hm).
Qed.

(** ** Trimming *)

Lemma trimStart_head (s : string) :
  trimStart s = EmptyString \/
  exists c r, trimStart s = String c r /\ is_whitespace c = false.
Proof.
  induction s as [|c s IH]; [left; reflexivity|].
  cbn [trimStart]. destruct (is_whitespace c) eqn:E; [exact IH|].
  right. exists c, s. auto.
Qed.

Lemma trimEnd_head (c : ascii) (r : string) :
  is_whitespace c = false -> exists r', trimEnd (String c r) = String c r'.
Proof.
  intros E. cbn [trimEnd]. destruct (trimEnd r); rewrite ?E; eauto.
Qed.

Lemma trimEnd_idem (s : string) : trimEnd (trimEnd s) = trimEnd s.
Proof.
  induction s as [|c s IH]; [reflexivity|].
  cbn [trimEnd]. destruct (trimEnd s) as [|d t] eqn:E.
  - destruct (is_whitespace c) eqn:W; [reflexivity|].
    cbn [trimEnd]. now rewrite W.
  - cbn [trimEnd]. cbn [trimEnd] in IH. rewrite IH. reflexivity.
Qed.

Lemma trim_idem (s : string) : trim (trim s) = trim s.
Proof.
  unfold trim. destruct (trimStart_head s) as [-> | (c & r & -> & W)];
    [reflexivity|].
  destruct (trimEnd_head c r W) as [r' E]. rewrite E.
  cbn [trimStart]. rewrite W. rewrite <- E. apply trimEnd_idem.
Qed.

Lemma trimStart_mem (c : ascii) (s : string) :
  mem c (trimStart s) = true -> mem c s = true.
Proof.
  induction s as [|d s IH]; [auto|]. cbn [trimStart].
  destruct (is_whitespace d); [|auto].
  intros H. rewrite mem_cons, (IH H). apply orb_true_r.
Qed.

Lemma trimEnd_mem (c : ascii) (s : string) :
  mem c (trimEnd s) = true -> mem c s = true.
Proof.
  induction s as [|d s IH]; [auto|]. cbn [trimEnd].
  destruct (trimEnd s) as [|e t].
  - destruct (is_whitespace d); [discriminate|].
    rewrite !mem_cons. intros H. apply orb_prop in H as [-> | H]; [reflexivity|].
    discriminate.
  - rewrite !mem_cons. intros H. apply orb_prop in H as [-> | H]; [reflexivity|].
    rewrite (IH H). apply orb_true_r.
Qed.

Lemma trim_mem (c : ascii) (s : string) :
  mem c s = false -> mem c (trim s) = false.
Proof.
  intros H. destruct (mem c (trim s)) eqn:E; [|reflexivity].
  apply trimEnd_mem, trimStart_mem in E. congruence.
Qed.

Lemma trimStart_length (s : string) : String.length (trimStart s) <= String.length s.
Proof.
  induction s as [|c s IH]; [reflexivity|]. cbn [trimStart].
  destruct (is_whitespace c); simpl; lia.
Qed.

Lemma trimEnd_length (s : string) : String.length (trimEnd s) <= String.length s.
Proof.
  induction s as [|c s IH]; [reflexivity|]. cbn [trimEnd].
  destruct (trimEnd s); [destruct (is_whitespace c)|]; simpl in *; lia.
Qed.

Lemma trim_length (s : string) : String.length (trim s) <= String.length s.
Proof.
  unfold trim. pose proof (trimEnd_length (trimStart s)).
  pose proof (trimStart_length s). lia.
Qed.

(** ** Splitting and joining *)

Lemma split_not_nil (sep : ascii) (s : string) : split sep s <> [].
Proof.
  destruct s as [|c s]; cbn [split]; [discriminate|].
  destruct (Ascii.eqb c sep); [discriminate|]. destruct (split sep s); discriminate.
Qed.

Lemma split_no_sep (sep : ascii) (s x : string) :
  In x (split sep s) -> mem sep x = false.
Proof.
  revert x; induction s as [|c s IH]; intros x; cbn [split].
  - intros [<- | []]. reflexivity.
  - destruct (Ascii.eqb c sep) eqn:E.
    + intros [<- | H]; [reflexivity | auto].
    + destruct (split sep s) as [|h t] eqn:Es.
      * now destruct (split_not_nil sep s).
      * intros [<- | H].
        -- rewrite mem_cons, Ascii.eqb_sym, E. apply IH. now left.
        -- apply IH. now right.
Qed.

Lemma split_absent (sep : ascii) (x : string) :
  mem sep x = false -> split sep x = [x].
Proof.
  induction x as [|c x IH]; [reflexivity|].
  rewrite mem_cons. intros H. apply orb_false_elim in H as [Hc Hx].
  cbn [split]. rewrite Ascii.eqb_sym, Hc, (IH Hx). reflexivity.
Qed.

Lemma split_append (sep : ascii) (x r : string) :
  mem sep x = false ->
  split sep (x ++ String sep r) = x :: split sep r.
Proof.
  induction x as [|c x IH].
  - intros _. simpl append. cbn [split]. now rewrite Ascii.eqb_refl.
  - rewrite mem_cons. intros H. apply orb_false_elim in H as [Hc Hx].
    simpl append. cbn [split]. rewrite Ascii.eqb_sym, Hc, (IH Hx). reflexivity.
Qed.

Lemma join_cons (sep x : string) (y : string) (l : list string) :
  join sep (x :: y :: l) = x ++ sep ++ join sep (y :: l).
Proof. reflexivity. Qed.

Lemma split_join (sep : ascii) (l : list string) :
  l <> [] -> (forall x, In x l -> mem sep x = false) ->
  split sep (join (String sep EmptyString) l) = l.
Proof.
  induction l as [|x l IH]; [congruence|]. intros _ H.
  destruct l as [|y l].
  - cbn [join]. apply split_absent. apply H. now left.
  - rewrite join_cons. simpl append.
    rewrite split_append by (apply H; now left).
    f_equal. apply IH; [discriminate|]. intros z Hz. apply H. now right.
Qed.

Lemma total_length_cons (x : string) (l : list string) :
  total_length (x :: l) = String.length x + total_length l.
Proof. reflexivity. Qed.

Lemma join_length (sep : string) (l : list string) :
  String.length (join sep l)
  = total_length l + String.length sep * pred (List.length l).
Proof.
  induction l as [|x l IH]; [cbn; lia|].
  destruct l as [|y l].
  - cbn. lia.
  - rewrite join_cons, !length_append, IH, !total_length_cons.
    cbn [List.length pred]. lia.
Qed.

Lemma join_split (sep : ascii) (s : string) :
  join (String sep EmptyString) (split sep s) = s.
Proof.
  induction s as [|c s IH]; [reflexivity|].
  cbn [split]. destruct (Ascii.eqb c sep) eqn:E.
  - apply Ascii.eqb_eq in E; subst c.
    destruct (split sep s) as [|h t] eqn:Es; [now destruct (split_not_nil sep s)|].
    rewrite join_cons, IH. reflexivity.
  - destruct (split sep s) as [|h t] eqn:Es; [now destruct (split_not_nil sep s)|].
    rewrite <- IH. destruct t; reflexivity.
Qed.

Lemma filter_map_shorter (f : string -> bool) (g : string -> string)
    (l : list string) :
  (forall x, String.length (g x) <= String.length x) ->
  total_length (filter f (map g l)) <= total_length l /\
  List.length (filter f (map g l)) <= List.length l.
Proof.
  intros Hg. induction l as [|x l [IH1 IH2]]; [split; reflexivity|].
  cbn [map filter]. specialize (Hg x).
  destruct (f (g x)); rewrite ?total_length_cons; cbn [List.length]; split; lia.
Qed.

End TextFacts.

(** * The text functions of the plugin *)

Module PluginTextFacts.
Import JS Spec StringFacts ScanFacts TextFacts.

#[local] Arguments scan_replace : simpl never.

(** ** [tidyTikzSource] *)

Lemma tidy_unfold (s : string) : tidyTikzSource s = join nl (tidy_lines s).
Proof. reflexivity. Qed.

Lemma tidy_lines_spec (s x : string) :
  In x (tidy_lines s) ->
  mem LF x = false /\ trim x = x /\ is_empty x = false.
Proof.
  unfold tidy_lines. rewrite filter_In, in_map_iff.
  intros [(y & <- & Hy) Hne]. repeat split.
  - apply trim_mem. eapply split_no_sep; eauto.
  - apply trim_idem.
  - now apply negb_true_iff.
Qed.

Lemma tidy_of_clean_lines (l : list string) :
  (forall x, In x l -> mem LF x = false /\ trim x = x /\ is_empty x = false) ->
  includes (join nl l) "&nbsp;" = false ->
  tidyTikzSource (join nl l) = join nl l.
Proof.
  intros Hl Hn. unfold tidyTikzSource. rewrite (replaceAll_absent _ _ _ Hn).
  destruct l as [|x l]; [reflexivity|].
  unfold nl at 1. rewrite split_join; [|discriminate | intros y Hy; now apply Hl].
  f_equal. remember (x :: l) as xs eqn:E. clear E Hn.
  induction xs as [|y ys IH]; [reflexivity|].
  cbn [map filter]. destruct (Hl y (or_introl eq_refl)) as (_ & -> & ->).
  cbn [negb]. f_equal. apply IH. intros z Hz. apply Hl. now right.
Qed.

Lemma tidy_length (s : string) :
  String.length (tidyTikzSource s)
  <= String.length (replaceAll "&nbsp;" EmptyString s).
Proof.
  rewrite tidy_unfold. unfold tidy_lines.
  set (r := replaceAll "&nbsp;" EmptyString s).
  rewrite <- (join_split LF r) at 2. fold nl. rewrite !join_length.
  destruct (filter_map_shorter (fun line => negb (is_empty line)) trim
              (split LF r) trim_length) as [H1 H2].
  assert (String.length nl * pred (List.length (filter (fun line => negb (is_empty line)) (map trim (split LF r))))
          <= String.length nl * pred (List.length (split LF r)))
    by (apply Nat.mul_le_mono_l; lia).
  lia.
Qed.

Lemma remove_nbsp_length (s : string) :
  String.length (replaceAll "&nbsp;" EmptyString s) <= String.length s /\
  (String.length (replaceAll "&nbsp;" EmptyString s) = String.length s ->
   includes s "&nbsp;" = false).
Proof.
  rewrite replaceAll_scan by discriminate.
  destruct (scan_shrinks ["&nbsp;"] EmptyString s) as [H1 H2].
  - constructor; [discriminate | constructor].
  - intros p [<- | []]. simpl. lia.
  - split; [exact H1|]. intros E. apply (H2 E). now left.
Qed.

(** ** [colorSVGinDarkMode] *)

Lemma dark_tokens_nonempty : Forall (fun p => p <> EmptyString) dark_tokens.
Proof. repeat constructor; discriminate. Qed.

Lemma light_tokens_nonempty : Forall (fun p => p <> EmptyString) light_tokens.
Proof. repeat constructor; discriminate. Qed.

Lemma dark_tokens_short (p : string) :
  In p dark_tokens -> String.length p < String.length currentColor.
Proof. intros [<- | [<- | []]]; vm_compute; lia. Qed.

Lemma light_tokens_short (p : string) :
  In p light_tokens -> String.length p < String.length background_primary.
Proof. intros [<- | [<- | []]]; vm_compute; lia. Qed.

Lemma color_of_token_free (s : string) :
  (forall t, In t color_tokens -> includes s t = false) ->
  colorSVGinDarkMode s = s.
Proof.
  intros H. unfold colorSVGinDarkMode, replaceAll_regexp.
  rewrite (scan_absent dark_tokens).
  - apply scan_absent. intros p Hp. apply H. apply in_or_app. now right.
  - intros p Hp. apply H. apply in_or_app. now left.
Qed.

Lemma color_fixed_token_free (s : string) :
  colorSVGinDarkMode s = s ->
  forall t, In t color_tokens -> includes s t = false.
Proof.
  unfold colorSVGinDarkMode, replaceAll_regexp. intros E.
  set (m := scan_replace dark_tokens currentColor 0 s) in *.
  destruct (scan_grows dark_tokens currentColor s dark_tokens_nonempty
              dark_tokens_short) as [D1 D2]. fold m in D1, D2.
  destruct (scan_grows light_tokens background_primary m light_tokens_nonempty
              light_tokens_short) as [L1 L2].
  rewrite E in L1, L2.
  assert (Hm : String.length m = String.length s) by lia.
  specialize (D2 Hm).
  assert (Em : m = s) by (apply scan_absent; exact D2).
  rewrite Em in L2. specialize (L2 eq_refl).
  intros t Ht. apply in_app_or in Ht as [Ht | Ht]; auto.
Qed.

End PluginTextFacts.

(** * One pass over markup with quoted values *)

Module QuotingFacts.
Import JS Spec StringFacts ScanFacts Quoting.

#[local] Arguments scan_replace : simpl never.

Lemma no_quote_cons (c : ascii) (s : string) :
  no_quote (String c s) = true -> Ascii.eqb DQUOTE c = false /\ no_quote s = true.
Proof.
  unfold no_quote. rewrite mem_cons, negb_orb. intros H.
  apply andb_prop in H as [H1 H2]. split; [now apply negb_true_iff | exact H2].
Qed.

Lemma is_one_of_In (l : list string) (v : string) :
  is_one_of l v = true <-> In v l.
Proof.
  unfold is_one_of. rewrite existsb_exists. split.
  - intros (x & Hx & E). apply String.eqb_eq in E. now subst.
  - intros H. exists v. split; [exact H | apply String.eqb_refl].
Qed.

Lemma quoted_append (v x : string) :
  quoted v ++ x = String DQUOTE (v ++ String DQUOTE x).
Proof. unfold quoted. simpl. now rewrite append_assoc. Qed.

(** A quoted value matches at the head of a quoted value only if the two
    values are the same. *)
Lemma prefix_closing_quote (b v x : string) :
  no_quote b = true -> no_quote v = true ->
  prefix (b ++ String DQUOTE EmptyString) (v ++ String DQUOTE x) = true -> b = v.
Proof.
  revert v; induction b as [|c b IH]; intros [|d v] Hb Hv H; simpl append in H.
  - reflexivity.
  - rewrite prefix_cons in H. apply andb_prop in H as [H _].
    apply no_quote_cons in Hv as [Hd _]. congruence.
  - rewrite prefix_cons in H. apply andb_prop in H as [H _].
    apply no_quote_cons in Hb as [Hc _]. rewrite Ascii.eqb_sym in H. congruence.
  - rewrite prefix_cons in H. apply andb_prop in H as [Hcd H].
    apply Ascii.eqb_eq in Hcd; subst d.
    apply no_quote_cons in Hb as [_ Hb]. apply no_quote_cons in Hv as [_ Hv].
    f_equal. now apply IH.
Qed.

(** A quoted value does not match where the closing quote is missing. *)
Lemma prefix_no_closing_quote (b t : string) :
  no_quote t = true ->
  prefix (b ++ String DQUOTE EmptyString) t = false.
Proof.
  revert t; induction b as [|c b IH]; intros [|d t] Ht; simpl append;
    try reflexivity.
  - rewrite prefix_cons. apply no_quote_cons in Ht as [-> _]. reflexivity.
  - rewrite prefix_cons. apply no_quote_cons in Ht as [_ Ht].
    rewrite (IH _ Ht). apply andb_false_r.
Qed.

Section OnePass.

Variable values : list string.
Variable by_value : string.
Hypothesis values_no_quote : forall b, In b values -> no_quote b = true.

Let pats : list string := map quoted values.
Let rep : string := quoted by_value.

Lemma pats_nonempty : Forall (fun p => p <> EmptyString) pats.
Proof. apply Forall_forall. intros p Hp. apply in_map_iff in Hp as (b & <- & _). discriminate. Qed.

Lemma no_match_at (c : ascii) (x : string) :
  Ascii.eqb DQUOTE c = false -> first_match pats (String c x) = None.
Proof.
  intros Hc. apply first_match_None. intros p Hp.
  apply in_map_iff in Hp as (b & <- & _). unfold quoted.
  rewrite prefix_cons, Hc. reflexivity.
Qed.

(** The pass copies text that holds no double quote. *)
Lemma scan_plain (p x : string) :
  no_quote p = true ->
  scan_replace pats rep 0 (p ++ x) = p ++ scan_replace pats rep 0 x.
Proof.
  induction p as [|c p IH]; intros Hp; [reflexivity|].
  apply no_quote_cons in Hp as [Hc Hp]. simpl append.
  rewrite scan_miss by (now apply no_match_at). now rewrite IH.
Qed.

Lemma first_match_quoted (v x : string) :
  no_quote v = true ->
  first_match pats (quoted v ++ x)
  = if is_one_of values v then Some (quoted v) else None.
Proof.
  intros Hv. subst pats. unfold is_one_of.
  induction values as [|b bs IH]; [reflexivity|].
  cbn [map first_match existsb].
  assert (Hb : no_quote b = true) by (apply values_no_quote; now left).
  destruct (String.eqb_spec v b) as [->|Hne].
  - rewrite prefix_append. reflexivity.
  - assert (E : prefix (quoted b) (quoted v ++ x) = false).
    { destruct (prefix (quoted b) (quoted v ++ x)) eqn:E; [|reflexivity].
      unfold quoted in E. simpl append in E. rewrite prefix_cons in E.
      apply andb_prop in E as [_ E]. rewrite append_assoc in E. simpl append in E.
      apply prefix_closing_quote in E; congruence. }
    rewrite E. cbn [orb]. apply IH. intros b' Hb'. apply values_no_quote. now right.
Qed.

(** After the closing quote of a value nothing matches when the text up to
    the next double quote is none of the values. *)
Lemma no_match_after_value (segs : list segment) (tail : string) :
  well_quoted_for values segs tail = true ->
  first_match pats (String DQUOTE (render_quoted segs tail)) = None.
Proof.
  intros H. apply first_match_None. intros q Hq.
  apply in_map_iff in Hq as (b & <- & Hb). unfold quoted.
  rewrite prefix_cons, Ascii.eqb_refl. cbn [andb].
  unfold well_quoted_for in H. apply andb_prop in H as [Hs Ht].
  destruct segs as [|[p v] segs]; cbn [render_quoted].
  - now apply prefix_no_closing_quote.
  - cbn [forallb fst snd] in Hs. apply andb_prop in Hs as [Hpv _].
    apply andb_prop in Hpv as [Hp _]. apply andb_prop in Hp as [Hp Hnot].
    destruct (prefix (b ++ String DQUOTE EmptyString)
                (p ++ quoted v ++ render_quoted segs tail)) eqn:E; [|reflexivity].
    unfold quoted in E. simpl append in E.
    apply prefix_closing_quote in E; auto. subst p.
    apply negb_true_iff in Hnot. apply is_one_of_In in Hb. congruence.
Qed.

Lemma well_quoted_for_tail (pv : segment) (segs : list segment) (tail : string) :
  well_quoted_for values (pv :: segs) tail = true ->
  well_quoted_for values segs tail = true.
Proof.
  unfold well_quoted_for. cbn [forallb]. intros H.
  apply andb_prop in H as [H Ht]. apply andb_prop in H as [_ H].
  now rewrite H, Ht.
Qed.

(** One pass over well-quoted text replaces the values it looks for and
    nothing else. *)
Lemma scan_well_quoted (segs : list segment) (tail : string) :
  well_quoted_for values segs tail = true ->
  scan_replace pats rep 0 (render_quoted segs tail)
  = render_quoted (map (replace_values values by_value) segs) tail.
Proof.
  induction segs as [|[p v] segs IH]; intros H.
  - cbn [render_quoted map]. unfold well_quoted_for in H. cbn [forallb andb] in H.
    rewrite <- (append_nil_r tail) at 1. rewrite scan_plain by exact H.
    now rewrite scan_nil, append_nil_r.
  - pose proof (well_quoted_for_tail _ _ _ H) as Hrest.
    unfold well_quoted_for in H. cbn [forallb fst snd] in H.
    apply andb_prop in H as [H _]. apply andb_prop in H as [H _].
    apply andb_prop in H as [H Hv]. apply andb_prop in H as [Hp _].
    cbn [render_quoted map]. unfold replace_values at 1. cbn [fst snd].
    rewrite scan_plain by exact Hp. f_equal.
    pose proof (first_match_quoted v (render_quoted segs tail) Hv) as Hm.
    destruct (is_one_of values v).
    + rewrite scan_hit by (exact Hm || discriminate). now rewrite IH.
    + rewrite !quoted_append in *.
      rewrite (scan_miss _ _ _ _ Hm), scan_plain by exact Hv.
      rewrite scan_miss by (now apply no_match_after_value).
      now rewrite IH.
Qed.

End OnePass.

Lemma well_quoted_for_app_l (a b : list string) (segs : list segment)
    (tail : string) :
  well_quoted_for (a ++ b) segs tail = true -> well_quoted_for a segs tail = true.
Proof.
  unfold well_quoted_for. intros H. apply andb_prop in H as [H ->].
  rewrite andb_true_r. rewrite forallb_forall in *. intros pv Hpv.
  specialize (H pv Hpv). apply andb_prop in H as [H ->].
  apply andb_prop in H as [-> H]. rewrite andb_true_r. cbn [andb].
  apply negb_true_iff in H. apply negb_true_iff.
  destruct (is_one_of a (fst pv)) eqn:E; [|reflexivity].
  apply is_one_of_In in E.
  assert (In (fst pv) (a ++ b)) by (apply in_or_app; now left).
  apply is_one_of_In in H0. congruence.
Qed.

Lemma well_quoted_for_replaced (a b : list string) (w : string)
    (segs : list segment) (tail : string) :
  no_quote w = true ->
  well_quoted_for (a ++ b) segs tail = true ->
  well_quoted_for b (map (replace_values a w) segs) tail = true.
Proof.
  unfold well_quoted_for. intros Hw H. apply andb_prop in H as [H ->].
  rewrite andb_true_r. rewrite forallb_forall in *. intros pv Hpv.
  apply in_map_iff in Hpv as ([p v] & <- & Hin).
  specialize (H (p, v) Hin). cbn [fst snd replace_values] in *.
  apply andb_prop in H as [H Hv]. apply andb_prop in H as [-> H]. cbn [andb].
  assert (Hb : is_one_of b p = false).
  { apply negb_true_iff in H. destruct (is_one_of b p) eqn:E; [|reflexivity].
    apply is_one_of_In in E.
    assert (Hab : In p (a ++ b)) by (apply in_or_app; now right).
    apply is_one_of_In in Hab. congruence. }
  rewrite Hb. cbn [negb andb]. destruct (is_one_of a v); assumption.
Qed.

Lemma dark_values_no_quote (b : string) : In b dark_values -> no_quote b = true.
Proof. intros [<- | [<- | []]]; reflexivity. Qed.

Lemma light_values_no_quote (b : string) : In b light_values -> no_quote b = true.
Proof. intros [<- | [<- | []]]; reflexivity. Qed.

Lemma recolor_in_two_passes (pv : segment) :
  replace_values light_values "var(--background-primary)"
    (replace_values dark_values "currentColor" pv)
  = recolor_segment pv.
Proof.
  destruct pv as [p v]. unfold replace_values, recolor_segment, recolor_value.
  cbn [fst snd]. destruct (is_one_of dark_values v); reflexivity.
Qed.

(** On well-quoted text [colorSVGinDarkMode] recolours the values. *)
Lemma color_well_quoted (segs : list segment) (tail : string) :
  well_quoted segs tail = true ->
  colorSVGinDarkMode (render_quoted segs tail)
  = render_quoted (map recolor_segment segs) tail.
Proof.
  intros H. unfold colorSVGinDarkMode, replaceAll_regexp.
  change dark_tokens with (map quoted dark_values).
  change light_tokens with (map quoted light_values).
  change currentColor with (quoted "currentColor").
  change background_primary with (quoted "var(--background-primary)").
  rewrite (scan_well_quoted dark_values "currentColor" dark_values_no_quote)
    by (eapply well_quoted_for_app_l; exact H).
  rewrite (scan_well_quoted light_values "var(--background-primary)"
             light_values_no_quote)
    by (apply well_quoted_for_replaced; [reflexivity | exact H]).
  rewrite map_map. f_equal. apply map_ext. apply recolor_in_two_passes.
Qed.

Lemma recolor_value_idem (v : string) :
  recolor_value (recolor_value v) = recolor_value v.
Proof.
  unfold recolor_value.
  destruct (is_one_of dark_values v) eqn:D; [reflexivity|].
  destruct (is_one_of light_values v) eqn:L; [reflexivity|].
  now rewrite D, L.
Qed.

Lemma recolor_value_no_quote (v : string) :
  no_quote v = true -> no_quote (recolor_value v) = true.
Proof.
  intros H. unfold recolor_value.
  destruct (is_one_of dark_values v); [reflexivity|].
  destruct (is_one_of light_values v); [reflexivity | exact H].
Qed.

Lemma well_quoted_recolored (segs : list segment) (tail : string) :
  well_quoted segs tail = true ->
  well_quoted (map recolor_segment segs) tail = true.
Proof.
  unfold well_quoted, well_quoted_for. intros H. apply andb_prop in H as [H ->].
  rewrite andb_true_r. rewrite forallb_forall in *. intros pv Hpv.
  apply in_map_iff in Hpv as ([p v] & <- & Hin). specialize (H (p, v) Hin).
  cbn [fst snd recolor_segment] in *. apply andb_prop in H as [-> Hv].
  cbn [andb]. now apply recolor_value_no_quote.
Qed.

End QuotingFacts.

(** * Facts about the identifier isolation *)

Module IsolationFacts.
Import JS Spec StringFacts ScanFacts DOM Template Slots.

Lemma render_ext (f g : nat -> string) (t : template) :
  (forall i, In i (refs t) -> f i = g i) -> render f t = render g t.
Proof.
  induction t as [|[s|i] t IH]; intros H; cbn [render]; [reflexivity | |].
  - f_equal. apply IH. exact H.
  - rewrite (H i) by (now left). f_equal. apply IH. intros j Hj. apply H. now right.
Qed.

(** While no occurrence of [o] begins in [s], the scan copies [s]. *)
Lemma scan_no_start (o n s rest : string) :
  starts_in o s rest = false ->
  scan_replace [o] n 0 (s ++ rest) = s ++ scan_replace [o] n 0 rest.
Proof.
  induction s as [|c s IH]; [reflexivity|]. cbn [starts_in]. intros H.
  apply orb_false_iff in H as [Hp Hs]. cbn [append] in *. rewrite scan_miss.
  - f_equal. now apply IH.
  - cbn [first_match]. now rewrite Hp.
Qed.

(** One pass over markup in which no occurrence of the old identifier [o]
    begins outside the slots [k] puts [n] in those slots and leaves the
    rest. *)
Lemma pass_render (o n : string) (ids ids' : nat -> string) (k : nat)
    (t : template) :
  o <> EmptyString ->
  occurs_outside o ids k t = false ->
  (forall i, In i (refs t) -> i <> k -> ids' i = ids i) ->
  ids k = o -> ids' k = n ->
  replaceAll o n (render ids t) = render ids' t.
Proof.
  intros Ho Hout Hother Hk Hk'. rewrite replaceAll_scan by exact Ho.
  induction t as [|p t IH]; [reflexivity|].
  destruct p as [b|i]; cbn [render occurs_outside] in *;
    apply orb_false_iff in Hout as [Hhere Hout].
  - rewrite scan_no_start by exact Hhere. f_equal. apply IH; auto.
  - assert (IHt : scan_replace [o] n 0 (render ids t) = render ids' t).
    { apply IH; [exact Hout|]. intros j Hj. apply Hother. cbn [refs]. now right. }
    destruct (Nat.eqb_spec i k) as [->|Hne].
    + rewrite Hk, Hk', scan_hit; [now rewrite IHt | exact Ho |].
      cbn [first_match]. now rewrite prefix_append.
    + rewrite scan_no_start by exact Hhere.
      rewrite (Hother i (or_introl eq_refl) Hne). now rewrite IHt.
Qed.

(** An occurrence that begins in [l] and is no longer than [l] lies in
    [l]. *)
Lemma prefix_within (o l x : string) :
  prefix o (l ++ x) = true -> String.length o <= String.length l ->
  prefix o l = true.
Proof.
  intros H Hlen. destruct (prefix_append_split _ _ _ H) as [E | (c & q & -> & _)];
    [exact E|].
  rewrite length_append in Hlen. cbn [String.length] in Hlen. lia.
Qed.

Lemma drop_length_append (p : nat) (a x : string) :
  drop (String.length a + p) (a ++ x) = drop p x.
Proof. induction a as [|c a IH]; [reflexivity | exact IH]. Qed.

Lemma starts_in_false (o s rest : string) :
  (forall p, p < String.length s -> prefix o (drop p (s ++ rest)) = false) ->
  starts_in o s rest = false.
Proof.
  induction s as [|c s IH]; intros H; [reflexivity|]. cbn [starts_in].
  apply orb_false_iff. split.
  - apply (H 0). cbn [String.length]. lia.
  - apply IH. intros p Hp. apply (H (S p)). cbn [String.length]. lia.
Qed.

(** A replacement pass over [l ++ kept ++ r] in which every occurrence of
    the non-empty [o] lies before [kept] or after it works on [l] and on
    [r] apart, and copies [kept]. *)
Lemma scan_around (o n kept r l : string) :
  o <> EmptyString ->
  (forall p, prefix o (drop p (l ++ kept ++ r)) = true ->
             p + String.length o <= String.length l
             \/ String.length l + String.length kept <= p) ->
  scan_replace [o] n 0 (l ++ kept ++ r)
  = scan_replace [o] n 0 l ++ kept ++ scan_replace [o] n 0 r.
Proof.
  intros Ho. revert l.
  assert (Hlen : 0 < String.length o) by (destruct o; [congruence | cbn; lia]).
  apply (scan_ind [o]
           (fun l =>
              (forall p, prefix o (drop p (l ++ kept ++ r)) = true ->
                         p + String.length o <= String.length l
                         \/ String.length l + String.length kept <= p) ->
              scan_replace [o] n 0 (l ++ kept ++ r)
              = scan_replace [o] n 0 l ++ kept ++ scan_replace [o] n 0 r)).
  - constructor; [exact Ho | constructor].
  - intros H. cbn [append scan_replace]. apply scan_no_start, starts_in_false.
    intros p Hp. destruct (prefix o (drop p (kept ++ r))) eqn:E; [|reflexivity].
    destruct (H p E) as [Hl | Hr]; cbn [String.length] in *; lia.
  - intros c s Hmiss IH H.
    assert (Hnone : first_match [o] (String c s ++ kept ++ r) = None).
    { cbn [first_match] in *. destruct (prefix o (String c s)) eqn:E1; [discriminate|].
      destruct (prefix o (String c s ++ kept ++ r)) eqn:E2; [|reflexivity].
      destruct (H 0 E2) as [Hl | Hr]; cbn [String.length] in *; [|lia].
      rewrite (prefix_within _ _ _ E2) in E1 by (cbn [String.length]; lia).
      discriminate. }
    rewrite (scan_miss _ _ _ _ Hmiss). cbn [append] in *.
    rewrite (scan_miss _ _ _ _ Hnone). f_equal. apply IH.
    intros p Hp. destruct (H (S p) Hp) as [Hl | Hr]; cbn [String.length] in *; lia.
  - intros q s Hq Hhit IH H.
    apply first_match_In in Hhit as Hin. destruct Hin as [[<- | []] _].
    rewrite (scan_hit _ _ _ _ Hq Hhit), !append_assoc.
    rewrite scan_hit; [|exact Hq|cbn [first_match]; now rewrite prefix_append].
    rewrite IH; [reflexivity|]. intros p Hp.
    destruct (H (String.length o + p)) as [Hl | Hr].
    + now rewrite append_assoc, drop_length_append.
    + rewrite length_append in Hl. lia.
    + rewrite length_append in Hr. lia.
Qed.

Lemma starts_in_spec (o s rest : string) (p : nat) :
  starts_in o s rest = false -> p < String.length s ->
  prefix o (drop p (s ++ rest)) = false.
Proof.
  revert p. induction s as [|c s IH]; intros p H Hp; cbn [String.length] in Hp;
    [lia|].
  cbn [starts_in] in H. apply orb_false_iff in H as [H0 Hs].
  destruct p as [|p]; [exact H0|]. cbn [append drop]. apply IH; [exact Hs | lia].
Qed.

(** [overlaps] decides whether every occurrence lies before or after. *)
Lemma overlaps_false (o l kept r : string) :
  overlaps o l kept r = false ->
  forall p, prefix o (drop p (l ++ kept ++ r)) = true ->
            p + String.length o <= String.length l
            \/ String.length l + String.length kept <= p.
Proof.
  induction l as [|c l IH]; cbn [overlaps]; intros H p Hp.
  - right. cbn [append String.length] in *.
    destruct (Nat.le_gt_cases (String.length kept) p) as [Hle | Hlt]; [lia|].
    rewrite (starts_in_spec _ _ _ _ H Hlt) in Hp. discriminate.
  - apply orb_false_iff in H as [H0 Hl]. destruct p as [|p].
    + cbn [drop] in Hp. rewrite Hp in H0. cbn [andb] in H0.
      apply Nat.ltb_ge in H0. left. lia.
    + cbn [append drop] in Hp. destruct (IH Hl p Hp); cbn [String.length]; lia.
Qed.

Lemma replaceAll_around (o n l kept r : string) :
  o <> EmptyString ->
  (forall p, prefix o (drop p (l ++ kept ++ r)) = true ->
             p + String.length o <= String.length l
             \/ String.length l + String.length kept <= p) ->
  replaceAll o n (l ++ kept ++ r)
  = replaceAll o n l ++ kept ++ replaceAll o n r.
Proof.
  intros Ho H. rewrite !replaceAll_scan by exact Ho. now apply scan_around.
Qed.

(** *** Trees with slots *)

Lemma tnode_forall_ind (P : tnode -> Prop) :
  (forall d, P (TText d)) ->
  (forall tag attrs kids, Forall P kids -> P (TElement tag attrs kids)) ->
  forall T, P T.
Proof.
  intros Htext Helem. fix IH 1. intros [tag attrs kids | d].
  - apply Helem. induction kids as [|k kids IHk]; constructor; [apply IH | exact IHk].
  - apply Htext.
Qed.

Lemma serialize_element (tag : string) (attrs : list (string * string))
    (kids : list node) :
  serialize (Element tag attrs kids)
  = "<" ++ tag ++ serialize_attributes attrs ++ ">" ++ serialize_nodes kids
    ++ "</" ++ tag ++ ">".
Proof.
  cbn [serialize].
  match goal with
  | |- context [?f kids ++ _] =>
      assert (E : forall l, f l = serialize_nodes l)
  end.
  { induction l as [|k l IH]; [reflexivity|]. cbn [serialize_nodes]. now rewrite IH. }
  now rewrite E.
Qed.

Lemma escape_append (m : bool) (a b : string) :
  escape m (a ++ b) = escape m a ++ escape m b.
Proof.
  induction a as [|c a IH]; [reflexivity|]. simpl append. cbn [escape].
  rewrite IH.
  repeat match goal with
         | |- context [if ?x then _ else _] => destruct x
         end; now rewrite ?append_assoc.
Qed.

Lemma render_app (ids : nat -> string) (a b : template) :
  render ids (a ++ b)%list = render ids a ++ render ids b.
Proof.
  induction a as [|[s|i] a IH]; cbn [app render]; [reflexivity | |];
    now rewrite IH, append_assoc.
Qed.

Lemma refs_app (a b : template) : refs (a ++ b)%list = (refs a ++ refs b)%list.
Proof.
  induction a as [|[s|i] a IH]; cbn [app refs]; [reflexivity | exact IH |].
  now rewrite IH.
Qed.

Lemma refs_escape (v : template) : refs (map escape_piece v) = refs v.
Proof.
  induction v as [|[s|i] v IH]; cbn [map refs escape_piece];
    [reflexivity | exact IH | now rewrite IH].
Qed.

Section Escape.

Variable ids : nat -> string.

Lemma render_escaped_value (v : template) :
  (forall i, In i (refs v) -> escape true (ids i) = ids i) ->
  render ids (map escape_piece v) = escape true (render ids v).
Proof.
  induction v as [|[s|i] v IH]; intros H; cbn [map render escape_piece];
    [reflexivity | |]; rewrite escape_append, IH.
  - reflexivity.
  - intros j Hj. apply H. exact Hj.
  - now rewrite (H i (or_introl eq_refl)).
  - intros j Hj. apply H. now right.
Qed.

Lemma render_attribute_pieces (attrs : list (string * template)) :
  (forall i, In i (refs (attribute_pieces attrs)) -> escape true (ids i) = ids i) ->
  render ids (attribute_pieces attrs)
  = serialize_attributes (map (instantiate_attribute ids) attrs).
Proof.
  induction attrs as [|[n v] attrs IH]; intros H; [reflexivity|].
  cbn [attribute_pieces map instantiate_attribute fst snd serialize_attributes
       render].
  cbn [attribute_pieces refs] in H. rewrite refs_app, refs_escape in H.
  cbn [refs] in H.
  rewrite render_app. cbn [render].
  rewrite render_escaped_value by (intros i Hi; apply H, in_or_app; now left).
  rewrite IH by (intros i Hi; apply H, in_or_app; now right).
  unfold quoted. rewrite !append_assoc. simpl. now rewrite !append_assoc.
Qed.

Lemma serialize_instantiate (T : tnode) :
  (forall i, In i (refs (flatten T)) -> escape true (ids i) = ids i) ->
  serialize (instantiate ids T) = render ids (flatten T).
Proof.
  induction T as [d | tag attrs kids IH] using tnode_forall_ind; intros H.
  - cbn. now rewrite append_nil_r.
  - cbn [instantiate flatten]. rewrite serialize_element.
    cbn [flatten refs] in H. rewrite refs_app in H. cbn [refs] in H.
    rewrite refs_app in H. cbn [refs] in H. rewrite app_nil_r in H.
    cbn [render]. rewrite render_app. cbn [render].
    rewrite render_app. cbn [render].
    rewrite render_attribute_pieces by (intros i Hi; apply H, in_or_app; now left).
    rewrite !append_assoc, append_nil_r. do 4 f_equal.
    assert (E : serialize_nodes (map (instantiate ids) kids)
                = render ids (flat_map flatten kids)).
    { assert (Hk : forall i, In i (refs (flat_map flatten kids)) ->
                             escape true (ids i) = ids i)
        by (intros i Hi; apply H, in_or_app; now right).
      clear H. induction kids as [|k kids IHk]; [reflexivity|].
      cbn [map serialize_nodes flat_map]. rewrite render_app.
      cbn [flat_map] in Hk. rewrite refs_app in Hk.
      inversion IH as [|? ? Hhead Htail]; subst.
      rewrite Hhead by (intros i Hi; apply Hk, in_or_app; now left).
      rewrite IHk; [reflexivity | exact Htail |].
      intros i Hi. apply Hk, in_or_app. now right. }
    rewrite E. simpl. reflexivity.
Qed.

Lemma serialize_instantiate_all (Ts : list tnode) :
  (forall i, In i (refs (flat_map flatten Ts)) -> escape true (ids i) = ids i) ->
  serialize_nodes (map (instantiate ids) Ts) = render ids (flat_map flatten Ts).
Proof.
  induction Ts as [|T Ts IH]; intros H; [reflexivity|].
  cbn [map serialize_nodes flat_map]. cbn [flat_map] in H.
  rewrite refs_app in H. rewrite render_app.
  rewrite serialize_instantiate by (intros i Hi; apply H, in_or_app; now left).
  rewrite IH; [reflexivity|]. intros i Hi. apply H, in_or_app. now right.
Qed.

End Escape.

Lemma instantiate_ext (f g : nat -> string) (T : tnode) :
  (forall i, In i (refs (flatten T)) -> f i = g i) ->
  instantiate f T = instantiate g T.
Proof.
  induction T as [d | tag attrs kids IH] using tnode_forall_ind; intros H;
    [reflexivity|].
  cbn [instantiate]. cbn [flatten refs] in H. rewrite refs_app in H.
  cbn [refs] in H. rewrite refs_app in H. f_equal.
  - assert (Ha : forall i, In i (refs (attribute_pieces attrs)) -> f i = g i)
      by (intros i Hi; apply H, in_or_app; now left).
    clear H IH. induction attrs as [|[n v] attrs IHa]; [reflexivity|].
    cbn [map]. cbn [attribute_pieces refs] in Ha.
    rewrite refs_app, refs_escape in Ha. cbn [refs] in Ha. f_equal.
    + unfold instantiate_attribute. cbn [fst snd]. f_equal.
      apply render_ext. intros i Hi. apply Ha, in_or_app. now left.
    + apply IHa. intros i Hi. apply Ha, in_or_app. now right.
  - assert (Hk : forall i, In i (refs (flat_map flatten kids)) -> f i = g i)
      by (intros i Hi; apply H, in_or_app; right; apply in_or_app; now left).
    clear H. induction kids as [|k kids IHk]; [reflexivity|].
    cbn [map]. cbn [flat_map] in Hk. rewrite refs_app in Hk.
    inversion IH as [|? ? Hhead Htail]; subst. f_equal.
    + apply Hhead. intros i Hi. apply Hk, in_or_app. now left.
    + apply IHk; [exact Htail|]. intros i Hi. apply Hk, in_or_app. now right.
Qed.

Lemma instantiate_all_ext (f g : nat -> string) (Ts : list tnode) :
  (forall i, In i (refs (flat_map flatten Ts)) -> f i = g i) ->
  map (instantiate f) Ts = map (instantiate g) Ts.
Proof.
  induction Ts as [|T Ts IH]; intros H; [reflexivity|].
  cbn [map]. cbn [flat_map] in H. rewrite refs_app in H. f_equal.
  - apply instantiate_ext. intros i Hi. apply H, in_or_app. now left.
  - apply IH. intros i Hi. apply H, in_or_app. now right.
Qed.

Lemma ids_after_self (olds : list string) (u : nat -> string) (k : nat) :
  ids_after olds u k k = nth k olds EmptyString.
Proof. unfold ids_after. now rewrite Nat.ltb_irrefl. Qed.

Lemma ids_after_next (olds : list string) (u : nat -> string) (k : nat) :
  ids_after olds u (S k) k = u k.
Proof.
  unfold ids_after. destruct (Nat.ltb_spec k (S k)); [reflexivity | lia].
Qed.

Lemma ids_after_other (olds : list string) (u : nat -> string) (k i : nat) :
  i <> k -> ids_after olds u (S k) i = ids_after olds u k i.
Proof.
  intros H. unfold ids_after.
  destruct (Nat.ltb_spec i (S k)), (Nat.ltb_spec i k); (reflexivity || lia).
Qed.

Lemma ids_after_all (olds : list string) (u : nat -> string) (i : nat) :
  i < List.length olds -> ids_after olds u (List.length olds) i = u i.
Proof.
  intros H. unfold ids_after. destruct (Nat.ltb_spec i (List.length olds));
    [reflexivity | lia].
Qed.

Lemma skipn_cons_nth {A : Type} (k : nat) (l : list A) (x : A) (r : list A) (d : A) :
  skipn k l = x :: r -> nth k l d = x /\ skipn (S k) l = r.
Proof.
  revert l; induction k as [|k IH]; intros [|y l]; cbn; try discriminate.
  - intros [= -> ->]. auto.
  - intros H. apply IH in H. exact H.
Qed.

Section Loop.

Variable parseHTML : string -> list node.
Variable uuidv4 : nat -> string.

Lemma isolate_loop_root (l : list HTMLElement) (k : nat) (svgEl : HTMLElement) :
  tagName (isolate_loop parseHTML uuidv4 l k svgEl) = tagName svgEl /\
  attributes (isolate_loop parseHTML uuidv4 l k svgEl) = attributes svgEl.
Proof.
  revert k svgEl; induction l as [|e l IH]; intros k svgEl; [split; reflexivity|].
  cbn [isolate_loop]. destruct (IH (S k) (set_innerHTML parseHTML svgEl
    (replaceAll (DOM.id e) (uuidv4 k) (innerHTML svgEl)))) as [-> ->].
  split; reflexivity.
Qed.

(** The children the loop leaves depend on the children it starts from and
    on the list it runs over, not on the root. *)
Lemma isolate_loop_children (l : list HTMLElement) (k : nat)
    (e1 e2 : HTMLElement) :
  childNodes e1 = childNodes e2 ->
  childNodes (isolate_loop parseHTML uuidv4 l k e1)
  = childNodes (isolate_loop parseHTML uuidv4 l k e2).
Proof.
  revert k e1 e2; induction l as [|e l IH]; intros k e1 e2 H; [exact H|].
  cbn [isolate_loop]. apply IH. unfold set_innerHTML, innerHTML.
  cbn [childNodes]. now rewrite H.
Qed.

Section Whole.

Variable olds : list string.
Variable t : template.

Hypothesis Hrefs : forall i, In i (refs t) -> i < List.length olds.
Hypothesis Hne : forall i, i < List.length olds -> nth i olds EmptyString <> EmptyString.
Hypothesis Hout : forall k, k < List.length olds ->
  occurs_outside (nth k olds EmptyString) (ids_after olds uuidv4 k) k t = false.

Lemma one_pass (k : nat) :
  k < List.length olds ->
  replaceAll (nth k olds EmptyString) (uuidv4 k) (render (ids_after olds uuidv4 k) t)
  = render (ids_after olds uuidv4 (S k)) t.
Proof.
  intros Hk. apply pass_render with (k := k); auto.
  - intros i Hi Hik. now apply ids_after_other.
  - apply ids_after_self.
  - apply ids_after_next.
Qed.

(** The loop at the level of the tree. *)
Variable Ts : list tnode.
Hypothesis Ht : t = flat_map flatten Ts.
Hypothesis Hescape_old : forall i, i < List.length olds ->
  escape true (nth i olds EmptyString) = nth i olds EmptyString.
Hypothesis Hescape_new : forall i, i < List.length olds ->
  escape true (uuidv4 i) = uuidv4 i.
Hypothesis Hparse_tree : forall k, 1 <= k <= List.length olds ->
  parseHTML (serialize_nodes (map (instantiate (ids_after olds uuidv4 k)) Ts))
  = map (instantiate (ids_after olds uuidv4 k)) Ts.

Lemma ids_after_escape (k i : nat) :
  In i (refs (flat_map flatten Ts)) ->
  escape true (ids_after olds uuidv4 k i) = ids_after olds uuidv4 k i.
Proof.
  intros Hi. rewrite <- Ht in Hi. specialize (Hrefs i Hi). unfold ids_after.
  destruct (i <? k)%nat; auto.
Qed.

Lemma loop_tree (rest : list HTMLElement) (k : nat) (svgEl : HTMLElement) :
  map DOM.id rest = skipn k olds ->
  childNodes svgEl = map (instantiate (ids_after olds uuidv4 k)) Ts ->
  childNodes (isolate_loop parseHTML uuidv4 rest k svgEl)
  = map (instantiate (ids_after olds uuidv4 (List.length olds))) Ts.
Proof.
  revert k svgEl. induction rest as [|e rest IH]; intros k svgEl Hids Hm.
  - cbn [isolate_loop]. rewrite Hm. apply instantiate_all_ext. intros i Hi.
    cbn [map] in Hids. symmetry in Hids.
    assert (List.length olds <= k).
    { destruct (Nat.le_gt_cases (List.length olds) k) as [H|H]; [exact H|].
      apply (f_equal (@List.length string)) in Hids.
      rewrite length_skipn in Hids. cbn in Hids. lia. }
    rewrite <- Ht in Hi. specialize (Hrefs i Hi). unfold ids_after.
    destruct (Nat.ltb_spec i k), (Nat.ltb_spec i (List.length olds));
      (reflexivity || lia).
  - cbn [map] in Hids. symmetry in Hids.
    assert (Hk : k < List.length olds).
    { apply (f_equal (@List.length string)) in Hids.
      rewrite length_skipn in Hids. cbn in Hids. lia. }
    destruct (skipn_cons_nth _ _ _ _ EmptyString Hids) as [Hnth Hrest].
    cbn [isolate_loop]. apply IH; [now rewrite Hrest|].
    unfold set_innerHTML, innerHTML. cbn [childNodes].
    rewrite Hm, serialize_instantiate_all by (intros i Hi; now apply ids_after_escape).
    rewrite <- Ht, <- Hnth, one_pass by exact Hk.
    rewrite Ht, <- serialize_instantiate_all
      by (intros i Hi; now apply ids_after_escape).
    apply Hparse_tree. lia.
Qed.

End Whole.

End Loop.

(** *** The identifiers a tree with slots carries *)

Lemma getAttribute_instantiate (f : nat -> string)
    (attrs : list (string * template)) (name : string) :
  getAttribute (map (instantiate_attribute f) attrs) name
  = option_map (render f) (get_template attrs name).
Proof.
  induction attrs as [|[n v] attrs IH]; [reflexivity|].
  cbn [map instantiate_attribute fst snd getAttribute get_template].
  destruct (n =? name)%string; [reflexivity | exact IH].
Qed.

Lemma ids_of_instantiate (f : nat -> string) (T : tnode) :
  map DOM.id (elements_with_id (instantiate f T)) = map (render f) (id_values T).
Proof.
  induction T as [d | tag attrs kids IH] using tnode_forall_ind; [reflexivity|].
  cbn [instantiate elements_with_id id_values]. rewrite !map_app. f_equal.
  - rewrite getAttribute_instantiate.
    destruct (get_template attrs "id") as [v|] eqn:E; [|reflexivity].
    cbn [option_map map]. unfold DOM.id. cbn [attributes].
    now rewrite getAttribute_instantiate, E.
  - induction IH as [|k kids Hk _ IHkids]; [reflexivity|].
    cbn [map]. rewrite !map_app, Hk. f_equal. exact IHkids.
Qed.

Lemma ids_of_instantiate_all (f : nat -> string) (Ts : list tnode) :
  map DOM.id (flat_map elements_with_id (map (instantiate f) Ts))
  = map (render f) (flat_map id_values Ts).
Proof.
  induction Ts as [|T Ts IH]; [reflexivity|].
  cbn [map flat_map]. now rewrite !map_app, ids_of_instantiate, IH.
Qed.

Lemma render_id_slots (f : nat -> string) (n : nat) :
  map (render f) (id_slots n) = map f (seq 0 n).
Proof.
  unfold id_slots. rewrite map_map. apply map_ext. intros i.
  cbn [render]. apply append_nil_r.
Qed.

Lemma nth_seq_all {A : Type} (l : list A) (d : A) :
  map (fun i => nth i l d) (seq 0 (List.length l)) = l.
Proof.
  induction l as [|x l IH]; [reflexivity|].
  cbn [List.length seq map nth]. f_equal.
  rewrite <- seq_shift, map_map. exact IH.
Qed.

Lemma NoDup_map_on {A B : Type} (f : A -> B) (l : list A) :
  NoDup l ->
  (forall x y, In x l -> In y l -> f x = f y -> x = y) ->
  NoDup (map f l).
Proof.
  induction 1 as [|x l Hx Hl IH]; intros Hinj; [constructor|].
  cbn [map]. constructor.
  - intros Hin. apply in_map_iff in Hin as (y & Hy & Hyl).
    apply Hx. rewrite <- (Hinj y x); auto; [now right | now left].
  - apply IH. intros a b Ha Hb. apply Hinj; now right.
Qed.


End IsolationFacts.

(** * Facts about documents *)

Module DocFacts.
Import DOM Doc.

Lemma detach_element (i tag : string) (attrs : list (string * string))
    (kids : list node) :
  detach i (Element tag attrs kids) =
  if has_id i attrs then Some (Element tag attrs kids, None)
  else match detach_in i kids with
       | Some (found, kids') => Some (found, Some (Element tag attrs kids'))
       | None => None
       end.
Proof.
  cbn [detach]. destruct (has_id i attrs); [reflexivity|].
  match goal with
  | |- match ?f kids with _ => _ end = _ =>
      assert (E : forall l, f l = detach_in i l)
  end.
  { induction l as [|k l IH]; [reflexivity|]. cbn [detach_in]. now rewrite IH. }
  now rewrite E.
Qed.

Lemma detach_in_cons_none (i : string) (k : node) (l : list node) :
  detach_in i (k :: l) = None <-> detach i k = None /\ detach_in i l = None.
Proof.
  cbn [detach_in]. destruct (detach i k) as [[found [k'|]]|].
  - split; [discriminate | intros [? _]; discriminate].
  - split; [discriminate | intros [? _]; discriminate].
  - destruct (detach_in i l) as [[found l']|].
    + split; [discriminate | intros [_ ?]; discriminate].
    + split; auto.
Qed.

(** An element appended after nodes that hold no element with the id is the
    one found, and detaching it gives the nodes back. *)
Lemma detach_in_appended (i tag : string) (attrs : list (string * string))
    (kids l : list node) :
  detach_in i l = None -> has_id i attrs = true ->
  detach_in i (l ++ [Element tag attrs kids])
  = Some (Element tag attrs kids, l).
Proof.
  intros Hl Ha. induction l as [|k l IH].
  - cbn [app detach_in]. rewrite detach_element, Ha. reflexivity.
  - apply detach_in_cons_none in Hl as [Hk Hl].
    cbn [app detach_in]. rewrite Hk, (IH Hl). reflexivity.
Qed.

Lemma locate_none (doc : Document) (i : string) :
  locate doc i = None <-> detach_in i (head doc) = None /\ detach_in i (body doc) = None.
Proof.
  unfold locate. destruct (detach_in i (head doc)) as [[f h]|].
  - split; [discriminate | intros [? _]; discriminate].
  - destruct (detach_in i (body doc)) as [[f b]|].
    + split; [discriminate | intros [_ ?]; discriminate].
    + split; auto.
Qed.

Lemma getElementById_none (doc : Document) (i : string) :
  getElementById doc i = None <-> locate doc i = None.
Proof.
  unfold getElementById. destruct (locate doc i) as [[f d]|]; cbn;
    split; (discriminate || reflexivity).
Qed.

Lemma filter_not_same (type : string) (cb : EventListener)
    (ls : list (string * EventListener)) :
  forall l, In l (filter (fun l => negb (same_listener type cb l)) ls) ->
            same_listener type cb l = false.
Proof.
  intros l H. apply filter_In in H as [_ H]. now apply negb_true_iff.
Qed.

Lemma filter_absent (type : string) (cb : EventListener)
    (ls : list (string * EventListener)) :
  existsb (same_listener type cb) ls = false ->
  filter (fun l => negb (same_listener type cb l)) ls = ls.
Proof.
  induction ls as [|x ls IH]; [reflexivity|]. cbn [existsb filter].
  intros H. apply orb_false_elim in H as [Hx Hls].
  rewrite Hx. cbn [negb]. now rewrite (IH Hls).
Qed.

Lemma same_listener_refl (type : string) (cb : EventListener) :
  same_listener type cb (type, cb) = true.
Proof.
  unfold same_listener. cbn [fst snd]. rewrite String.eqb_refl.
  destruct cb; cbn; [reflexivity | apply Nat.eqb_refl].
Qed.

End DocFacts.

(** * The claims *)

Section Claims.
Import JS Spec StringFacts ScanFacts TextFacts PluginTextFacts.
Import Quoting QuotingFacts.
Import DOM Doc Template Slots IsolationFacts DocFacts Sample Sample2.

(** ** Examples of the text functions *)

Example tidy_scenario :
  tidyTikzSource ("  \draw (0,0) circle (1);  " ++ nl ++ nl)
  = "\draw (0,0) circle (1);".
Proof. reflexivity. Qed.

Example parse_scenario :
  let p := parseTikzBlock ("%color: red" ++ nl ++ "%padding: 4px" ++ nl
                           ++ "\begin{tikzpicture}" ++ nl ++ "\end{tikzpicture}") in
  cssLines p = ["color: red"; "padding: 4px"] /\
  cssString p = "color: red; padding: 4px" /\
  scriptText p = "\begin{tikzpicture}" ++ nl ++ "\end{tikzpicture}".
Proof. repeat split; reflexivity. Qed.

(** A style line whose percent sign is its first code unit loses it, and
    the white space around what follows. *)
Lemma cssText_of_percent (rest : string) :
  cssText_of (String "%" rest) = trim rest.
Proof.
  unfold cssText_of, replace_leading_percent, trim.
  destruct (trimStart_head rest) as [E | (c & r & E & W)]; rewrite E.
  - reflexivity.
  - cbn [trimStart]. now rewrite W.
Qed.

(** A line that starts with white space is left to [trim] alone. *)
Lemma cssText_of_indented (w : ascii) (rest : string) :
  is_whitespace w = true -> cssText_of (String w rest) = trim (String w rest).
Proof.
  intros W. unfold cssText_of, replace_leading_percent.
  destruct w as [[] [] [] [] [] [] [] []]; try reflexivity; discriminate.
Qed.

(** C3: on the block whose only style line is indented, [ %color: red], the
    line counts as a style line but its percent sign is not stripped: the
    declaration collected is [%color: red], where the claim has [color: red].
    On the block of the scenario, whose style lines start with the percent
    sign, the result is the one the claim gives ([parse_scenario]). *)
Theorem parseTikzBlock_indented_style_line_keeps_percent :
  let p := parseTikzBlock (" %color: red" ++ nl ++ "\draw (0,0) circle (1);") in
  is_style_line " %color: red" = true /\
  cssLines p = ["%color: red"] /\
  cssString p = "%color: red" /\
  scriptText p = "\draw (0,0) circle (1);".
Proof. repeat split; reflexivity. Qed.

Example color_path_markup :
  colorSVGinDarkMode (render_quoted (fst path_markup) (snd path_markup))
  = render_quoted
      [("<path stroke=", "currentColor");
       (" fill=", "var(--background-primary)"); (" d=", "M0 0")]
      "></path>".
Proof. vm_compute. reflexivity. Qed.

(** C4: [colorSVGinDarkMode] is two passes, each replacing from left to
    right the quoted literals it looks for (["#000"] and ["black"] by
    ["currentColor"], then ["#fff"] and ["white"] by
    ["var(--background-primary)"]) and copying every code unit that starts
    none of them.  A string that holds none of the four quoted literals is
    returned as it is, among them the unquoted, the capitalized and the
    longer colour tokens.  In text whose double quotes all delimit values,
    with no text before a quoted value that is itself one of the four
    colours, exactly the values that are one of the four colours are
    rewritten. *)
Theorem colorSVGinDarkMode_rewrites_only_quoted_tokens :
  (forall s, exists mid,
     Rewritten dark_tokens currentColor s mid /\
     Rewritten light_tokens background_primary mid (colorSVGinDarkMode s))
  /\ (forall s, (forall t, In t color_tokens -> includes s t = false) ->
                colorSVGinDarkMode s = s)
  /\ (forall segs tail, well_quoted segs tail = true ->
        colorSVGinDarkMode (render_quoted segs tail)
        = render_quoted (map recolor_segment segs) tail)
  /\ colorSVGinDarkMode (quoted "#000") = quoted "currentColor"
  /\ colorSVGinDarkMode (quoted "black") = quoted "currentColor"
  /\ colorSVGinDarkMode (quoted "#fff") = quoted "var(--background-primary)"
  /\ colorSVGinDarkMode (quoted "white") = quoted "var(--background-primary)"
  /\ colorSVGinDarkMode "stroke=black" = "stroke=black"
  /\ colorSVGinDarkMode (quoted "Black") = quoted "Black"
  /\ colorSVGinDarkMode (quoted "#FFF") = quoted "#FFF"
  /\ colorSVGinDarkMode (quoted "#000000") = quoted "#000000".
Proof.
  split; [|split; [exact color_of_token_free|]].
  - intros s. exists (replaceAll_regexp dark_tokens currentColor s). split.
    + apply scan_Rewritten, dark_tokens_nonempty.
    + apply scan_Rewritten, light_tokens_nonempty.
  - split; [exact color_well_quoted | repeat split; reflexivity].
Qed.

(** C5 (counterexample): tidying [&nb&nbsp;sp;] gives [&nbsp;], and tidying
    that gives the empty string. *)
Lemma tidyTikzSource_not_idempotent :
  tidyTikzSource (tidyTikzSource "&nb&nbsp;sp;") <> tidyTikzSource "&nb&nbsp;sp;".
Proof. intros H. apply String.eqb_eq in H. vm_compute in H. discriminate H. Qed.

(** C5 (amended): tidying a tidied string returns it unchanged exactly when
    the tidied string holds no literal [&nbsp;] sequence. *)
Theorem tidyTikzSource_idempotent_iff (s : string) :
  tidyTikzSource (tidyTikzSource s) = tidyTikzSource s
  <-> includes (tidyTikzSource s) "&nbsp;" = false.
Proof.
  split.
  - intros E.
    pose proof (tidy_length (tidyTikzSource s)) as H1.
    destruct (remove_nbsp_length (tidyTikzSource s)) as [H2 H3].
    rewrite E in H1. apply H3. lia.
  - intros H. rewrite tidy_unfold in *. apply tidy_of_clean_lines; [|exact H].
    apply tidy_lines_spec.
Qed.

(** C9 (counterexample): on the quoted literal of black followed by the
    word black and a double quote, the first application rewrites the
    literal and leaves the rest; the closing quote of the replacement and
    the rest then form the quoted literal of black again, and the second
    application rewrites it. *)
Lemma colorSVGinDarkMode_not_idempotent :
  colorSVGinDarkMode (colorSVGinDarkMode black_black)
  <> colorSVGinDarkMode black_black.
Proof. intros H. apply String.eqb_eq in H. vm_compute in H. discriminate H. Qed.

(** C9 (amended): a second application of [colorSVGinDarkMode] changes
    nothing exactly when the result of the first holds none of the four
    quoted literals; this is so for text whose double quotes all delimit
    values, with no text before a quoted value that is itself one of the
    four colours. *)
Theorem colorSVGinDarkMode_idempotent_iff :
  (forall s,
     colorSVGinDarkMode (colorSVGinDarkMode s) = colorSVGinDarkMode s
     <-> (forall t, In t color_tokens ->
                    includes (colorSVGinDarkMode s) t = false))
  /\ (forall segs tail, well_quoted segs tail = true ->
        colorSVGinDarkMode (colorSVGinDarkMode (render_quoted segs tail))
        = colorSVGinDarkMode (render_quoted segs tail)).
Proof.
  split.
  - intros s. split; [apply color_fixed_token_free | apply color_of_token_free].
  - intros segs tail H. rewrite (color_well_quoted _ _ H).
    rewrite (color_well_quoted _ _ (well_quoted_recolored _ _ H)).
    rewrite map_map. f_equal. apply map_ext. intros [p v].
    unfold recolor_segment. cbn [fst snd]. now rewrite recolor_value_idem.
Qed.

(** ** The rendered graphic *)

Example uuids_are_version_4 :
  UUID.is_uuid_v4 uuid_a = true /\ UUID.is_uuid_v4 uuid_b = true.
Proof. split; reflexivity. Qed.

Example parse_inverts_serialize_on_samples :
  parse_markup (innerHTML svg_d) = childNodes svg_d /\
  parse_markup (innerHTML svg_ab) = childNodes svg_ab /\
  parse_markup (innerHTML svg_XY) = childNodes svg_XY.
Proof. repeat split; vm_compute; reflexivity. Qed.

(** On [<circle id="d"/><use href="#d"/>] the pass for [d] also rewrites
    the name of the id attribute: the circle comes back without an id and
    the reference names nothing. *)
Example isolateIds_on_svg_d :
  childNodes (isolateIds parse_markup uuids svg_d)
  = [Element "circle" [("i" ++ uuid_a, uuid_a)] [];
     Element "use" [("href", "#" ++ uuid_a)] []].
Proof. vm_compute. reflexivity. Qed.

Example isolateIds_on_svg_XY :
  childNodes (isolateIds parse_markup uuids svg_XY)
  = [Element "circle" [("id", uuid_a)] []; Element "rect" [("id", uuid_b)] [];
     Element "use" [("href", "#" ++ uuid_a)] []].
Proof. vm_compute. reflexivity. Qed.

(** On [svg_XY] the isolation achieves what is asked of it. *)
Example isolates_svg_XY : isolates parse_markup uuids svg_XY.
Proof.
  unfold isolates. vm_compute. repeat split.
  - repeat constructor; cbn [In]; intuition discriminate.
  - intros _ r [<- | []]. now left.
Qed.

(** C1 (counterexample): in [<svg><circle id="d"/><use href="#d"/></svg>]
    every reference names an element; after [isolateIds] the reference names
    the fresh identifier and no element carries it. *)
Lemma isolateIds_leaves_dangling_reference :
  ~ isolates parse_markup uuids svg_d.
Proof.
  unfold isolates. intros (_ & _ & _ & H).
  assert (Hin : In uuid_a (ids_in (isolateIds parse_markup uuids svg_d))).
  { apply H.
    - vm_compute. intros r [<- | []]. now left.
    - vm_compute. now left. }
  vm_compute in Hin. exact Hin.
Qed.

(** Two elements that share an identifier share the fresh one afterwards:
    the pass for the first rewrites both, and the pass for the second finds
    nothing to replace. *)
Example isolateIds_on_svg_XX :
  ids_in (isolateIds parse_markup uuids svg_XX) = [uuid_a; uuid_a].
Proof. vm_compute. reflexivity. Qed.

(** Identifiers that share code units with the markup around them and with
    the fresh identifiers, and occur in neither, are renamed as wholes. *)
Example isolateIds_on_svg_pgf :
  childNodes (isolateIds parse_markup uuids svg_pgf)
  = [Element "path" [("id", uuid_a)] []; Element "rect" [("id", uuid_b)] [];
     Element "use" [("href", "#" ++ uuid_a)] []].
Proof. vm_compute. reflexivity. Qed.

(** C1 (amended): let the children of the graphic be a tree whose attribute
    values are literal text with slots for the identifiers, the id
    attribute of the [i]-th element that carries one being the slot [i].
    If every old identifier is non-empty and written without escapes, as
    the fresh ones are, if the fresh identifiers differ from one another,
    if in the markup before each pass the old identifier of that pass
    begins nowhere outside its own slots (not in the literal markup, not in
    a slot that holds another old identifier or an earlier fresh one), and
    if the parser gives back the tree whose markup it is handed after each
    pass, then after [isolateIds] the children are the same tree with the
    fresh identifier of the [i]-th element in every slot [i], id attributes
    and references alike; the identifiers the descendants carry are the
    fresh ones, no two the same; and every slot names an identifier that a
    descendant carries. *)
Theorem isolateIds_renames_whole_tokens (parseHTML : string -> list node)
    (uuidv4 : nat -> string) (svgEl : HTMLElement) (olds : list string)
    (Ts : list tnode) :
  childNodes svgEl = map (instantiate (fun i => nth i olds EmptyString)) Ts ->
  flat_map id_values Ts = id_slots (List.length olds) ->
  (forall i, In i (refs (flat_map flatten Ts)) -> i < List.length olds) ->
  (forall i, i < List.length olds ->
     nth i olds EmptyString <> EmptyString /\
     escape true (nth i olds EmptyString) = nth i olds EmptyString /\
     escape true (uuidv4 i) = uuidv4 i) ->
  (forall i j, i < List.length olds -> j < List.length olds ->
     uuidv4 i = uuidv4 j -> i = j) ->
  (forall k, k < List.length olds ->
     occurs_outside (nth k olds EmptyString) (ids_after olds uuidv4 k) k
       (flat_map flatten Ts) = false) ->
  (forall k, 1 <= k <= List.length olds ->
     parseHTML (serialize_nodes (map (instantiate (ids_after olds uuidv4 k)) Ts))
     = map (instantiate (ids_after olds uuidv4 k)) Ts) ->
  childNodes (isolateIds parseHTML uuidv4 svgEl) = map (instantiate uuidv4) Ts
  /\ innerHTML (isolateIds parseHTML uuidv4 svgEl)
     = render uuidv4 (flat_map flatten Ts)
  /\ ids_in (isolateIds parseHTML uuidv4 svgEl)
     = map uuidv4 (seq 0 (List.length olds))
  /\ NoDup (ids_in (isolateIds parseHTML uuidv4 svgEl))
  /\ (forall i, In i (refs (flat_map flatten Ts)) ->
        In (uuidv4 i) (ids_in (isolateIds parseHTML uuidv4 svgEl))).
Proof.
  intros Hm Hslots Hrefs Hid Hfresh Hout Hparse.
  assert (Hids : ids_in svgEl = olds).
  { unfold ids_in, querySelectorAll_id.
    rewrite Hm, ids_of_instantiate_all, Hslots, render_id_slots.
    apply nth_seq_all. }
  assert (E : childNodes (isolateIds parseHTML uuidv4 svgEl)
              = map (instantiate uuidv4) Ts).
  { unfold isolateIds.
    rewrite (loop_tree parseHTML uuidv4 olds (flat_map flatten Ts) Hrefs
               (fun i Hi => proj1 (Hid i Hi)) Hout Ts eq_refl
               (fun i Hi => proj1 (proj2 (Hid i Hi)))
               (fun i Hi => proj2 (proj2 (Hid i Hi))) Hparse
               (querySelectorAll_id svgEl) 0 svgEl).
    - apply instantiate_all_ext. intros i Hi. apply ids_after_all. auto.
    - exact Hids.
    - rewrite Hm. apply instantiate_all_ext. intros i _. reflexivity. }
  assert (Eids : ids_in (isolateIds parseHTML uuidv4 svgEl)
                 = map uuidv4 (seq 0 (List.length olds))).
  { unfold ids_in, querySelectorAll_id.
    now rewrite E, ids_of_instantiate_all, Hslots, render_id_slots. }
  split; [exact E|]. split.
  { unfold innerHTML. rewrite E.
    apply serialize_instantiate_all. intros i Hi. apply Hid. auto. }
  split; [exact Eids|]. rewrite Eids. split.
  - apply NoDup_map_on; [apply seq_NoDup|].
    intros i j Hi Hj. apply in_seq in Hi, Hj. apply Hfresh; lia.
  - intros i Hi. apply in_map, in_seq. specialize (Hrefs i Hi). lia.
Qed.

Lemma isolateIds_renames_whole_tokens_witness :
  childNodes (isolateIds parse_markup uuids svg_pgf)
  = map (instantiate uuids) tree_pgf
  /\ innerHTML (isolateIds parse_markup uuids svg_pgf)
     = render uuids (flat_map flatten tree_pgf)
  /\ ids_in (isolateIds parse_markup uuids svg_pgf)
     = map uuids (seq 0 (List.length ["pgfcp1"; "pgfcp2"]))
  /\ NoDup (ids_in (isolateIds parse_markup uuids svg_pgf))
  /\ (forall i, In i (refs (flat_map flatten tree_pgf)) ->
        In (uuids i) (ids_in (isolateIds parse_markup uuids svg_pgf))).
Proof.
  apply (isolateIds_renames_whole_tokens parse_markup uuids svg_pgf
           ["pgfcp1"; "pgfcp2"] tree_pgf).
  - vm_compute. reflexivity.
  - reflexivity.
  - intros i Hi. vm_compute in Hi. vm_compute.
    repeat (destruct Hi as [<- | Hi]; [lia|]). contradiction.
  - intros i Hi. vm_compute in Hi.
    destruct i as [|[|i]]; [| | lia];
      (split; [discriminate | split; vm_compute; reflexivity]).
  - intros i j Hi Hj E. vm_compute in Hi, Hj.
    destruct i as [|[|i]], j as [|[|j]]; try lia;
      apply String.eqb_eq in E; vm_compute in E; discriminate E.
  - intros k Hk. vm_compute in Hk.
    destruct k as [|[|k]]; [vm_compute; reflexivity | vm_compute; reflexivity | lia].
  - intros k Hk. vm_compute in Hk.
    destruct k as [|[|[|k]]];
      [lia | vm_compute; reflexivity | vm_compute; reflexivity | lia].
Defined.

(** C2 (counterexample): in [<svg><circle id="a"/><rect id="b"/>...] the
    pass for [b] replaces every [b] inside the fresh identifier the circle
    was given by the pass for [a]. *)
Lemma isolateIds_rewrites_earlier_fresh_id :
  ~ keeps_fresh_ids parse_markup uuids svg_ab.
Proof.
  unfold keeps_fresh_ids.
  change (querySelectorAll_id svg_ab)
    with [mkElement "circle" [("id", "a")] []; mkElement "rect" [("id", "b")] []].
  cbn [fresh_ids_kept]. intros (_ & H & _).
  specialize (H 0 (Nat.lt_0_succ 0)).
  set (m := innerHTML _) in H.
  specialize (H ("<circle id=" ++ String DQUOTE EmptyString) (drop 48 m)).
  assert (E : m = ("<circle id=" ++ String DQUOTE EmptyString) ++ uuids 0 ++ drop 48 m)
    by (vm_compute; reflexivity).
  specialize (H E). clear E. apply String.eqb_eq in H. vm_compute in H.
  discriminate H.
Qed.

(** What the second pass makes of the fresh identifier of the first on
    [svg_ab]: the circle carries [uuid_a] with [uuid_b] in place of every
    [b]. *)
Example isolateIds_on_svg_ab :
  ids_in (isolateIds parse_markup uuids svg_ab)
  = [replaceAll "b" uuid_b uuid_a; uuid_b].
Proof. vm_compute. reflexivity. Qed.

(** C2 (amended): a pass of the loop of [isolateIds] is one full-text
    replacement over the markup the earlier passes left.  Where a fresh
    identifier stands in that markup, the pass rewrites what is on its left
    and what is on its right and nothing of it, provided the old identifier
    of the pass is non-empty and none of its occurrences in the markup
    overlaps the fresh identifier there: each lies before it or after it. *)
Theorem isolateIds_pass_keeps_fresh_id (parseHTML : string -> list node)
    (uuidv4 : nat -> string) (element : HTMLElement) (rest : list HTMLElement)
    (k : nat) (svgEl : HTMLElement) (j : nat) (l r : string) :
  DOM.id element <> EmptyString ->
  innerHTML svgEl = l ++ uuidv4 j ++ r ->
  (forall p, prefix (DOM.id element) (drop p (innerHTML svgEl)) = true ->
     p + String.length (DOM.id element) <= String.length l
     \/ String.length l + String.length (uuidv4 j) <= p) ->
  replaceAll (DOM.id element) (uuidv4 k) (innerHTML svgEl)
  = replaceAll (DOM.id element) (uuidv4 k) l ++ uuidv4 j
    ++ replaceAll (DOM.id element) (uuidv4 k) r
  /\ isolate_loop parseHTML uuidv4 (element :: rest) k svgEl
     = isolate_loop parseHTML uuidv4 rest (S k)
         (set_innerHTML parseHTML svgEl
            (replaceAll (DOM.id element) (uuidv4 k) l ++ uuidv4 j
             ++ replaceAll (DOM.id element) (uuidv4 k) r)).
Proof.
  intros Ho Hm Hfree.
  assert (E : replaceAll (DOM.id element) (uuidv4 k) (innerHTML svgEl)
              = replaceAll (DOM.id element) (uuidv4 k) l ++ uuidv4 j
                ++ replaceAll (DOM.id element) (uuidv4 k) r).
  { rewrite Hm in Hfree |- *. now apply replaceAll_around. }
  split; [exact E|]. cbn [isolate_loop]. now rewrite E.
Qed.

Lemma isolateIds_pass_keeps_fresh_id_witness :
  replaceAll (DOM.id (mkElement "rect" [("id", "pgfcp2")] [])) (uuids 1)
    (innerHTML
       (set_innerHTML parse_markup svg_pgf
          (replaceAll "pgfcp1" (uuids 0) (innerHTML svg_pgf))))
  = replaceAll (DOM.id (mkElement "rect" [("id", "pgfcp2")] [])) (uuids 1)
      ("<path id=" ++ String DQUOTE EmptyString)
    ++ uuids 0
    ++ replaceAll (DOM.id (mkElement "rect" [("id", "pgfcp2")] [])) (uuids 1)
         (String DQUOTE EmptyString ++ "></path><rect id=" ++ quoted "pgfcp2"
          ++ "></rect><use href=" ++ quoted ("#" ++ uuid_a) ++ "></use>")
  /\ isolate_loop parse_markup uuids [mkElement "rect" [("id", "pgfcp2")] []] 1
       (set_innerHTML parse_markup svg_pgf
          (replaceAll "pgfcp1" (uuids 0) (innerHTML svg_pgf)))
     = isolate_loop parse_markup uuids [] 2
         (set_innerHTML parse_markup
            (set_innerHTML parse_markup svg_pgf
               (replaceAll "pgfcp1" (uuids 0) (innerHTML svg_pgf)))
            (replaceAll (DOM.id (mkElement "rect" [("id", "pgfcp2")] [])) (uuids 1)
               ("<path id=" ++ String DQUOTE EmptyString)
             ++ uuids 0
             ++ replaceAll (DOM.id (mkElement "rect" [("id", "pgfcp2")] []))
                  (uuids 1)
                  (String DQUOTE EmptyString ++ "></path><rect id="
                   ++ quoted "pgfcp2" ++ "></rect><use href="
                   ++ quoted ("#" ++ uuid_a) ++ "></use>"))).
Proof.
  apply (isolateIds_pass_keeps_fresh_id parse_markup uuids
           (mkElement "rect" [("id", "pgfcp2")] []) [] 1
           (set_innerHTML parse_markup svg_pgf
              (replaceAll "pgfcp1" (uuids 0) (innerHTML svg_pgf)))
           0 ("<path id=" ++ String DQUOTE EmptyString)
           (String DQUOTE EmptyString ++ "></path><rect id=" ++ quoted "pgfcp2"
            ++ "></rect><use href=" ++ quoted ("#" ++ uuid_a) ++ "></use>")).
  - discriminate.
  - vm_compute. reflexivity.
  - replace (innerHTML
               (set_innerHTML parse_markup svg_pgf
                  (replaceAll "pgfcp1" (uuids 0) (innerHTML svg_pgf))))
      with (("<path id=" ++ String DQUOTE EmptyString) ++ uuids 0
            ++ String DQUOTE EmptyString ++ "></path><rect id=" ++ quoted "pgfcp2"
            ++ "></rect><use href=" ++ quoted ("#" ++ uuid_a) ++ "></use>")
      by (vm_compute; reflexivity).
    apply overlaps_false. vm_compute. reflexivity.
Defined.

(** C10: [isolateIds] returns the root with the tag name and the attributes
    it had, its own id attribute among them, and the children it returns
    are the same whatever the tag name and the attributes of the root: no
    pass is made for an identifier of the root. *)
Theorem isolateIds_keeps_root (parseHTML : string -> list node)
    (uuidv4 : nat -> string) (svgEl : HTMLElement) :
  tagName (isolateIds parseHTML uuidv4 svgEl) = tagName svgEl
  /\ attributes (isolateIds parseHTML uuidv4 svgEl) = attributes svgEl
  /\ DOM.id (isolateIds parseHTML uuidv4 svgEl) = DOM.id svgEl
  /\ (forall tag attrs,
        childNodes (isolateIds parseHTML uuidv4
                      (mkElement tag attrs (childNodes svgEl)))
        = childNodes (isolateIds parseHTML uuidv4 svgEl)).
Proof.
  unfold isolateIds, DOM.id.
  destruct (isolate_loop_root parseHTML uuidv4 (querySelectorAll_id svgEl) 0 svgEl)
    as [-> ->].
  repeat split. intros tag attrs.
  change (querySelectorAll_id (mkElement tag attrs (childNodes svgEl)))
    with (querySelectorAll_id svgEl).
  apply isolate_loop_children. reflexivity.
Qed.

Example isolateIds_keeps_root_id :
  DOM.id (isolateIds parse_markup uuids svg_XY) = "root".
Proof. vm_compute. reflexivity. Qed.

(** C6: [postProcessSvg] calls [isolateIds], then [colorSVGinDarkMode] if
    and only if the setting is on, then [optimizeSVG], each on the result of
    the stage before, and assigns the outer markup once, at the end, with
    the result of [optimizeSVG]. *)
Theorem postProcessSvg_stage_order (parseHTML : string -> list node)
    (uuidv4 : nat -> string) (optimize : string -> SvgoConfig -> string)
    (settings : TikzjaxPluginSettings) (svgEl : HTMLElement) :
  let isolated := outerHTML (isolateIds parseHTML uuidv4 svgEl) in
  let recolored :=
    if invertColorsInDarkMode settings then colorSVGinDarkMode isolated
    else isolated in
  let minimized := optimizeSVG optimize recolored in
  postProcessSvg parseHTML uuidv4 optimize settings svgEl
  = ((CallIsolateIds
      :: (if invertColorsInDarkMode settings then [CallColorSVGinDarkMode] else [])
      ++ [CallOptimizeSVG; SetOuterHTML minimized])%list,
     parseHTML minimized).
Proof.
  unfold postProcessSvg. destruct (invertColorsInDarkMode settings); reflexivity.
Qed.

Example postProcessSvg_on_svg_path :
  postProcessSvg parse_markup uuids identity_optimize
    {| invertColorsInDarkMode := true |} svg_path
  = ([CallIsolateIds; CallColorSVGinDarkMode; CallOptimizeSVG;
      SetOuterHTML
        ("<svg><path id=" ++ quoted uuid_a ++ " stroke=" ++ currentColor
         ++ " fill=" ++ background_primary ++ "></path></svg>")],
     [Element "svg" []
        [Element "path"
           [("id", uuid_a); ("stroke", "currentColor");
            ("fill", "var(--background-primary)")] []]]).
Proof. vm_compute. reflexivity. Qed.

(** ** The engine in a document *)

(** C7 (counterexample): a document that holds an element with the id
    [tikzjax] of its own is not restored.  [unloadTikZJax] detaches that
    element, the first with the id in tree order; the injected script stays
    in the body and [getElementById] finds it. *)
Lemma load_then_unload_leaves_script :
  unloadTikZJax (loadTikZJax "tikzjax();" clash_document)
  = Ok (mkDocument []
          [Element "script" [("id", "tikzjax"); ("type", "text/javascript")]
             [Text "tikzjax();"]] [])
  /\ getElementById
       (mkDocument []
          [Element "script" [("id", "tikzjax"); ("type", "text/javascript")]
             [Text "tikzjax();"]] []) "tikzjax"
     = Some (Element "script" [("id", "tikzjax"); ("type", "text/javascript")]
               [Text "tikzjax();"])
  /\ mkDocument []
       [Element "script" [("id", "tikzjax"); ("type", "text/javascript")]
          [Text "tikzjax();"]] []
     <> clash_document.
Proof.
  split; [vm_compute; reflexivity|]. split; [vm_compute; reflexivity|].
  unfold clash_document. intros E. injection E as E. discriminate E.
Qed.

(** C7 (amended): on a document that holds no element with the id
    [tikzjax],
    [loadTikZJax] followed by [unloadTikZJax] completes and gives back the
    head and the body the document had: no element with the id is left, no
    [tikzjax-load-finished] listener with [postProcessSvg] is registered,
    and the document is the one before the injection when that listener was
    not registered then. *)
Theorem load_then_unload_restores (tikzjaxJs : string) (doc : Document) :
  getElementById doc "tikzjax" = None ->
  exists doc',
    unloadTikZJax (loadTikZJax tikzjaxJs doc) = Ok doc'
    /\ head doc' = head doc
    /\ body doc' = body doc
    /\ getElementById doc' "tikzjax" = None
    /\ (forall l, In l (listeners doc') ->
          same_listener "tikzjax-load-finished" PostProcessSvg l = false)
    /\ (existsb (same_listener "tikzjax-load-finished" PostProcessSvg)
          (listeners doc) = false -> doc' = doc).
Proof.
  intros H. apply getElementById_none in H. pose proof H as Hloc.
  apply locate_none in H as [Hh Hb].
  set (s := Element "script" [("id", "tikzjax"); ("type", "text/javascript")]
              (rendered_text_fragment EmptyString false tikzjaxJs)).
  set (ls := listeners (loadTikZJax tikzjaxJs doc)).
  exists (mkDocument (head doc) (body doc)
            (filter (fun l => negb (same_listener "tikzjax-load-finished"
                                      PostProcessSvg l)) ls)).
  assert (Hloaded : head (loadTikZJax tikzjaxJs doc) = head doc /\
                    body (loadTikZJax tikzjaxJs doc) = (body doc ++ [s])%list).
  { unfold loadTikZJax, addEventListener, appendChild_body. fold s.
    destruct (existsb _ _); split; reflexivity. }
  destruct Hloaded as [Eh Eb].
  repeat split.
  - unfold unloadTikZJax, locate. rewrite Eh, Eb, Hh.
    unfold s. rewrite detach_in_appended by (exact Hb || reflexivity).
    reflexivity.
  - apply getElementById_none, locate_none. cbn [head body]. auto.
  - cbn [listeners]. apply filter_not_same.
  - intros Hnone. destruct doc as [h b l]. cbn [head body listeners] in *.
    f_equal. subst ls. unfold loadTikZJax, addEventListener.
    cbn [listeners appendChild_body]. rewrite Hnone. cbn [listeners].
    rewrite filter_app, (filter_absent _ _ _ Hnone). cbn [filter].
    rewrite same_listener_refl. cbn [negb]. apply app_nil_r.
Qed.

Lemma load_then_unload_restores_witness :
  exists doc',
    unloadTikZJax (loadTikZJax "tikzjax();" note_document) = Ok doc'
    /\ head doc' = head note_document
    /\ body doc' = body note_document
    /\ getElementById doc' "tikzjax" = None
    /\ (forall l, In l (listeners doc') ->
          same_listener "tikzjax-load-finished" PostProcessSvg l = false)
    /\ (existsb (same_listener "tikzjax-load-finished" PostProcessSvg)
          (listeners note_document) = false -> doc' = note_document).
Proof.
  apply (load_then_unload_restores "tikzjax();" note_document).
  vm_compute. reflexivity.
Defined.

(** C8: on a document that holds no element with the id [tikzjax],
    [unloadTikZJax] throws; it does not return a document. *)
Theorem unloadTikZJax_without_script_throws (doc : Document) :
  getElementById doc "tikzjax" = None ->
  unloadTikZJax doc = Throw TypeError.
Proof.
  intros H. apply getElementById_none in H. unfold unloadTikZJax. now rewrite H.
Qed.

Lemma unloadTikZJax_without_script_throws_witness :
  unloadTikZJax note_document = Throw TypeError.
Proof.
  apply (unloadTikZJax_without_script_throws note_document).
  vm_compute. reflexivity.
Defined.

End Claims.

(** * Further properties: the code block processor and [tidyTikzSource] *)

Module ParserFacts.
Import JS Spec Spec2 StringFacts ScanFacts TextFacts PluginTextFacts.

(** ** [findIndex] and [slice] *)

Lemma findIndex_range {A : Type} (p : A -> bool) (l : list A) :
  (-1 <= findIndex p l < Z.of_nat (List.length l))%Z.
Proof.
  induction l as [|x l IH]; cbn [findIndex List.length]; [lia|].
  destruct (p x); [lia|]. destruct (Z.ltb_spec (findIndex p l) 0); lia.
Qed.

Lemma findIndex_none {A : Type} (p : A -> bool) (l : list A) :
  findIndex p l = (-1)%Z -> forallb (fun x => negb (p x)) l = true.
Proof.
  induction l as [|x l IH]; cbn [findIndex forallb]; [reflexivity|].
  destruct (p x); [discriminate|]. pose proof (findIndex_range p l) as Hr.
  destruct (Z.ltb_spec (findIndex p l) 0) as [Hlt | Hge]; intros E; [|lia].
  apply IH. lia.
Qed.

Lemma findIndex_some {A : Type} (p : A -> bool) (l : list A) (k : nat) :
  findIndex p l = Z.of_nat k ->
  forallb (fun x => negb (p x)) (firstn k l) = true /\
  exists x, nth_error l k = Some x /\ p x = true.
Proof.
  revert k; induction l as [|x l IH]; intros k; cbn [findIndex]; [lia|].
  destruct (p x) eqn:E.
  - intros H. assert (k = 0) by lia. subst k. split; [reflexivity|].
    exists x. auto.
  - pose proof (findIndex_range p l) as Hr.
    destruct (Z.ltb_spec (findIndex p l) 0) as [Hlt | Hge]; intros H; [lia|].
    destruct k as [|k]; [lia|]. destruct (IH k) as [H1 H2]; [lia|].
    cbn [firstn forallb nth_error]. now rewrite E, H1.
Qed.

Lemma slice_prefix {A : Type} (l : list A) (k : nat) :
  k <= List.length l -> slice l 0 (Z.of_nat k) = firstn k l.
Proof.
  intros H. unfold slice, clamp_index. cbn [Z.ltb Z.compare].
  destruct (Z.ltb_spec (Z.of_nat k) 0); [lia|].
  rewrite Z.min_l by lia. rewrite Z.min_l by lia.
  rewrite Nat2Z.id. cbn [Z.to_nat skipn]. now rewrite Nat.sub_0_r.
Qed.

Lemma slice_suffix {A : Type} (l : list A) (k : nat) :
  k <= List.length l -> slice_from l (Z.of_nat k) = skipn k l.
Proof.
  intros H. unfold slice_from, slice, clamp_index.
  destruct (Z.ltb_spec (Z.of_nat k) 0); [lia|].
  destruct (Z.ltb_spec (Z.of_nat (List.length l)) 0); [lia|].
  rewrite Z.min_l by lia. rewrite Z.min_l by lia. rewrite !Nat2Z.id.
  apply firstn_all2. rewrite length_skipn. lia.
Qed.

(** ** Joining lists of lines *)

Lemma join_app (sep : string) (a b : list string) :
  a <> [] -> b <> [] ->
  join sep (a ++ b) = join sep a ++ sep ++ join sep b.
Proof.
  intros Ha Hb. induction a as [|x a IH]; [congruence|].
  destruct a as [|y a].
  - destruct b as [|z b]; [congruence|]. reflexivity.
  - cbn [app] in *. rewrite !join_cons, IH by discriminate.
    now rewrite !append_assoc.
Qed.

Lemma join_empty (sep : string) (l : list string) :
  (forall x, In x l -> is_empty x = false) ->
  join sep l = EmptyString -> l = [].
Proof.
  destruct l as [|x l]; [reflexivity|]. intros H E.
  specialize (H x (or_introl eq_refl)).
  destruct x as [|c x]; [discriminate|]. destruct l; discriminate.
Qed.

Lemma split_app (sep : ascii) (a b : string) :
  split sep (a ++ String sep b) = (split sep a ++ split sep b)%list.
Proof.
  induction a as [|c a IH].
  - simpl append. cbn [split]. now rewrite Ascii.eqb_refl.
  - simpl append. cbn [split]. destruct (Ascii.eqb c sep); [now rewrite IH|].
    rewrite IH. destruct (split sep a) eqn:E; [now destruct (split_not_nil sep a)|].
    reflexivity.
Qed.

(** ** The lines of a block *)

(** The lines of the source are the style lines followed by the lines of the
    diagram. *)
Lemma parse_partition (source : string) :
  exists pre code,
    split LF source = (pre ++ code)%list
    /\ forallb is_style_line pre = true
    /\ match code with [] => True | line :: _ => is_style_line line = false end
    /\ cssLines (parseTikzBlock source)
       = filter (fun cssText => negb (is_empty cssText)) (map cssText_of pre)
    /\ cleanedSource (parseTikzBlock source) = join nl code.
Proof.
  unfold parseTikzBlock. cbn [cssLines cleanedSource].
  set (lines := split LF source).
  set (p := fun line => negb (is_style_line line)).
  pose proof (findIndex_range p lines) as Hr.
  destruct (Z.eqb_spec (findIndex p lines) (-1)) as [E | E].
  - exists lines, []. rewrite app_nil_r.
    apply findIndex_none in E.
    assert (Hs : forallb is_style_line lines = true).
    { rewrite forallb_forall in *. intros x Hx. specialize (E x Hx).
      unfold p in E. now rewrite negb_involutive in E. }
    repeat split; auto.
    rewrite slice_prefix by lia. now rewrite firstn_all.
  - assert (Hk : exists k, findIndex p lines = Z.of_nat k /\ k < List.length lines).
    { exists (Z.to_nat (findIndex p lines)). split; lia. }
    destruct Hk as (k & Ek & Hk). rewrite Ek.
    destruct (findIndex_some p lines k Ek) as (Hpre & x & Hx & Hpx).
    exists (firstn k lines), (skipn k lines).
    rewrite firstn_skipn, slice_prefix, slice_suffix by lia.
    repeat split; auto.
    + rewrite forallb_forall in *. intros y Hy. specialize (Hpre y Hy).
      unfold p in Hpre. now rewrite negb_involutive in Hpre.
    + destruct (skipn k lines) as [|y r] eqn:Es.
      * exact I.
      * assert (nth_error lines k = Some y).
        { rewrite <- (firstn_skipn k lines) at 1.
          rewrite nth_error_app2 by (rewrite length_firstn; lia).
          rewrite length_firstn, Es.
          replace (k - Nat.min k (List.length lines)) with 0 by lia. reflexivity. }
        assert (y = x) by congruence. subst y. unfold p in Hpx.
        now apply negb_true_iff in Hpx.
Qed.

End ParserFacts.

Module TextExtras.
Import JS Spec Spec2 StringFacts ScanFacts TextFacts PluginTextFacts ParserFacts.
Import DOM.

(** X1: the code block processor loses no line and moves none: the lines
    of the block are its leading style lines followed by the lines it joins
    into [cleanedSource]; the first of these, if there is one, is no style
    line; the declarations come from the style lines in order; and
    [cleanedSource] is a suffix of the block. *)
Theorem parseTikzBlock_keeps_every_line (source : string) :
  exists pre code,
    split LF source = (pre ++ code)%list
    /\ forallb is_style_line pre = true
    /\ match code with [] => True | line :: _ => is_style_line line = false end
    /\ cssLines (parseTikzBlock source)
       = filter (fun cssText => negb (is_empty cssText)) (map cssText_of pre)
    /\ cleanedSource (parseTikzBlock source) = join nl code
    /\ exists before, source = before ++ cleanedSource (parseTikzBlock source).
Proof.
  destruct (parse_partition source) as (pre & code & Hs & Hpre & Hcode & Hcss & Hc).
  exists pre, code. repeat split; auto.
  rewrite Hc. pose proof (join_split LF source) as J. fold nl in J. rewrite Hs in J.
  destruct pre as [|x pre].
  - exists EmptyString. now rewrite <- J.
  - destruct code as [|y code].
    + exists source. cbn [join]. now rewrite append_nil_r.
    + exists (join nl (x :: pre) ++ nl).
      rewrite <- J, join_app by discriminate. now rewrite append_assoc.
Qed.

(** X2: when every line of the block is a style line, nothing is left for
    the diagram: [cleanedSource] and the text of the script element are
    empty, and every line contributes to the declarations. *)
Theorem parseTikzBlock_all_style_lines (source : string) :
  forallb is_style_line (split LF source) = true ->
  cleanedSource (parseTikzBlock source) = EmptyString
  /\ scriptText (parseTikzBlock source) = EmptyString
  /\ cssLines (parseTikzBlock source)
     = filter (fun cssText => negb (is_empty cssText))
         (map cssText_of (split LF source)).
Proof.
  intros H.
  destruct (parse_partition source) as (pre & code & Hs & Hpre & Hcode & Hcss & Hc).
  assert (code = []).
  { destruct code as [|y code]; [reflexivity|]. rewrite Hs in H.
    rewrite forallb_app in H. apply andb_prop in H as [_ H].
    cbn [forallb] in H. apply andb_prop in H as [H _]. congruence. }
  subst code. rewrite app_nil_r in Hs. subst pre.
  assert (E : cleanedSource (parseTikzBlock source) = EmptyString) by exact Hc.
  repeat split; auto.
  change (scriptText (parseTikzBlock source))
    with (tidyTikzSource (cleanedSource (parseTikzBlock source))).
  now rewrite E.
Qed.

Lemma parseTikzBlock_all_style_lines_witness :
  cleanedSource (parseTikzBlock ("%color: red" ++ nl ++ "  % ")) = EmptyString
  /\ scriptText (parseTikzBlock ("%color: red" ++ nl ++ "  % ")) = EmptyString
  /\ cssLines (parseTikzBlock ("%color: red" ++ nl ++ "  % "))
     = filter (fun cssText => negb (is_empty cssText))
         (map cssText_of (split LF ("%color: red" ++ nl ++ "  % "))).
Proof.
  apply (parseTikzBlock_all_style_lines ("%color: red" ++ nl ++ "  % ")).
  vm_compute. reflexivity.
Defined.

(** X3: when the first line of the block is no style line, the block has no
    declarations, the wrapper gets no style attribute, [cleanedSource] is
    the whole block (later lines that start with a percent sign included)
    and the script element holds the tidied block. *)
Theorem parseTikzBlock_without_style_lines (source : string) :
  is_style_line (hd EmptyString (split LF source)) = false ->
  cssLines (parseTikzBlock source) = []
  /\ cssString (parseTikzBlock source) = EmptyString
  /\ cleanedSource (parseTikzBlock source) = source
  /\ registerTikzCodeBlock source
     = Element "div" []
         [Element "script" [("type", "text/tikz"); ("data-show-console", "true")]
            (match tidyTikzSource source with
             | EmptyString => []
             | t => [Text t]
             end)].
Proof.
  intros H.
  destruct (parse_partition source) as (pre & code & Hs & Hpre & Hcode & Hcss & Hc).
  assert (pre = []).
  { destruct pre as [|x pre]; [reflexivity|]. rewrite Hs in H. cbn [app hd] in H.
    cbn [forallb] in Hpre. apply andb_prop in Hpre as [Hx _]. congruence. }
  subst pre. cbn [app] in Hs. cbn [map filter] in Hcss.
  assert (Ec : cleanedSource (parseTikzBlock source) = source).
  { rewrite Hc, <- Hs. apply join_split. }
  assert (Es : cssString (parseTikzBlock source) = EmptyString).
  { change (cssString (parseTikzBlock source))
      with (join "; " (cssLines (parseTikzBlock source))). now rewrite Hcss. }
  repeat split; auto.
  unfold registerTikzCodeBlock.
  change (scriptText (parseTikzBlock source))
    with (tidyTikzSource (cleanedSource (parseTikzBlock source))).
  now rewrite Es, Ec.
Qed.

Lemma parseTikzBlock_without_style_lines_witness :
  cssLines (parseTikzBlock ("\draw (0,0);" ++ nl ++ "% note")) = []
  /\ cssString (parseTikzBlock ("\draw (0,0);" ++ nl ++ "% note")) = EmptyString
  /\ cleanedSource (parseTikzBlock ("\draw (0,0);" ++ nl ++ "% note"))
     = "\draw (0,0);" ++ nl ++ "% note"
  /\ registerTikzCodeBlock ("\draw (0,0);" ++ nl ++ "% note")
     = Element "div" []
         [Element "script" [("type", "text/tikz"); ("data-show-console", "true")]
            (match tidyTikzSource ("\draw (0,0);" ++ nl ++ "% note") with
             | EmptyString => []
             | t => [Text t]
             end)].
Proof.
  apply (parseTikzBlock_without_style_lines ("\draw (0,0);" ++ nl ++ "% note")).
  vm_compute. reflexivity.
Defined.

Lemma replace_leading_percent_mem (c : ascii) (s : string) :
  mem c (replace_leading_percent s) = true -> mem c s = true.
Proof.
  unfold replace_leading_percent. destruct s as [|d s]; [auto|].
  destruct (ascii_dec d "%") as [->|Hd].
  - intros H. apply trimStart_mem in H. rewrite mem_cons, H. apply orb_true_r.
  - destruct d as [[] [] [] [] [] [] [] []]; auto; congruence.
Qed.

(** X4: every style declaration the processor collects is non-empty, has no
    white space at either end and holds no line break; the style string is
    empty, and the wrapper without a style attribute, exactly when no
    declaration was collected. *)
Theorem parseTikzBlock_declarations_clean (source : string) :
  Forall (fun cssText => is_empty cssText = false /\ trim cssText = cssText
                         /\ mem LF cssText = false)
    (cssLines (parseTikzBlock source))
  /\ (cssString (parseTikzBlock source) = EmptyString
      <-> cssLines (parseTikzBlock source) = []).
Proof.
  destruct (parse_partition source) as (pre & code & Hs & _ & _ & Hcss & _).
  assert (F : forall x, In x (cssLines (parseTikzBlock source)) ->
                is_empty x = false /\ trim x = x /\ mem LF x = false).
  { rewrite Hcss. intros x Hx. apply filter_In in Hx as [Hx Hne].
    apply in_map_iff in Hx as (line & <- & Hline).
    split; [now apply negb_true_iff|]. split; [apply trim_idem|].
    assert (Hl : mem LF line = false).
    { apply (split_no_sep LF source). rewrite Hs. apply in_or_app. now left. }
    unfold cssText_of. apply trim_mem.
    destruct (mem LF (replace_leading_percent line)) eqn:E; [|reflexivity].
    apply replace_leading_percent_mem in E. congruence. }
  split; [now apply Forall_forall|].
  change (cssString (parseTikzBlock source))
    with (join "; " (cssLines (parseTikzBlock source))).
  split.
  - apply join_empty. intros x Hx. now apply F.
  - now intros ->.
Qed.

(** ** [tidyTikzSource] *)

Lemma tidy_empty_iff (s : string) :
  tidyTikzSource s = EmptyString <-> tidy_lines s = [].
Proof.
  rewrite tidy_unfold. split.
  - apply join_empty. intros x Hx. now destruct (tidy_lines_spec s x Hx) as (_ & _ & ?).
  - now intros ->.
Qed.

(** X5: a non-empty result of [tidyTikzSource] has no blank line and no
    line with white space at either end. *)
Theorem tidyTikzSource_lines_clean (s : string) :
  tidyTikzSource s <> EmptyString ->
  Forall (fun line => is_empty line = false /\ trim line = line)
    (split LF (tidyTikzSource s)).
Proof.
  intros H. rewrite tidy_unfold in *. unfold nl.
  rewrite split_join.
  - apply Forall_forall. intros x Hx.
    destruct (tidy_lines_spec s x Hx) as (_ & Ht & He). auto.
  - intros E. rewrite E in H. now apply H.
  - intros x Hx. now destruct (tidy_lines_spec s x Hx) as (? & _ & _).
Qed.

Lemma tidyTikzSource_lines_clean_witness :
  Forall (fun line => is_empty line = false /\ trim line = line)
    (split LF (tidyTikzSource ("  \draw (0,0);  " ++ nl ++ nl ++ " \end "))).
Proof.
  apply (tidyTikzSource_lines_clean ("  \draw (0,0);  " ++ nl ++ nl ++ " \end ")).
  vm_compute. discriminate.
Defined.

Lemma tidy_lines_app (a b : string) :
  tidy_lines (a ++ nl ++ b) = (tidy_lines a ++ tidy_lines b)%list.
Proof.
  unfold tidy_lines.
  rewrite replaceAll_barrier by (discriminate || reflexivity).
  unfold nl. simpl append. rewrite split_app, map_app, filter_app. reflexivity.
Qed.

(** X6: [tidyTikzSource] works line by line: the result for two texts put
    on separate lines is the result for the first, a line break and the
    result for the second, the line break being left out when either
    result is empty. *)
Theorem tidyTikzSource_of_lines (a b : string) :
  tidyTikzSource (a ++ nl ++ b)
  = if is_empty (tidyTikzSource a) then tidyTikzSource b
    else if is_empty (tidyTikzSource b) then tidyTikzSource a
    else tidyTikzSource a ++ nl ++ tidyTikzSource b.
Proof.
  rewrite (tidy_unfold (a ++ nl ++ b)), tidy_lines_app.
  destruct (tidyTikzSource a) as [|c ta] eqn:Ea.
  - apply tidy_empty_iff in Ea. rewrite Ea. cbn [app is_empty].
    now rewrite tidy_unfold.
  - cbn [is_empty].
    assert (Ha : tidy_lines a <> []).
    { intros E. apply tidy_empty_iff in E. congruence. }
    destruct (tidyTikzSource b) as [|d tb] eqn:Eb.
    + apply tidy_empty_iff in Eb. rewrite Eb, app_nil_r. cbn [is_empty].
      now rewrite <- Ea, tidy_unfold.
    + cbn [is_empty].
      assert (Hb : tidy_lines b <> []).
      { intros E. apply tidy_empty_iff in E. congruence. }
      rewrite join_app by assumption.
      now rewrite <- Ea, <- Eb, !tidy_unfold.
Qed.

(** X7: [tidyTikzSource] never returns more code units than it is given. *)
Theorem tidyTikzSource_not_longer (s : string) :
  String.length (tidyTikzSource s) <= String.length s.
Proof.
  pose proof (tidy_length s). destruct (remove_nbsp_length s). lia.
Qed.

Lemma non_whitespace_append (a b : string) :
  non_whitespace (a ++ b) = (non_whitespace a ++ non_whitespace b)%list.
Proof.
  unfold non_whitespace, chars. induction a as [|c a IH]; [reflexivity|].
  simpl append. cbn [list_ascii_of_string filter].
  destruct (negb (is_whitespace c)); cbn [app]; now rewrite IH.
Qed.

Lemma non_whitespace_trimStart (s : string) :
  non_whitespace (trimStart s) = non_whitespace s.
Proof.
  induction s as [|c s IH]; [reflexivity|]. cbn [trimStart].
  destruct (is_whitespace c) eqn:W; [|reflexivity].
  rewrite IH. unfold non_whitespace, chars. cbn [list_ascii_of_string filter].
  now rewrite W.
Qed.

Lemma non_whitespace_cons (c : ascii) (s : string) :
  non_whitespace (String c s)
  = if is_whitespace c then non_whitespace s else c :: non_whitespace s.
Proof.
  unfold non_whitespace, chars. cbn [list_ascii_of_string filter].
  now destruct (is_whitespace c).
Qed.

Lemma non_whitespace_trimEnd (s : string) :
  non_whitespace (trimEnd s) = non_whitespace s.
Proof.
  induction s as [|c s IH]; [reflexivity|]. cbn [trimEnd].
  destruct (trimEnd s) as [|d t] eqn:E.
  - rewrite non_whitespace_cons, <- IH.
    destruct (is_whitespace c) eqn:W; [reflexivity|].
    now rewrite non_whitespace_cons, W.
  - rewrite (non_whitespace_cons c (String d t)), (non_whitespace_cons c s).
    now rewrite IH.
Qed.

Lemma non_whitespace_trim (s : string) : non_whitespace (trim s) = non_whitespace s.
Proof.
  unfold trim. now rewrite non_whitespace_trimEnd, non_whitespace_trimStart.
Qed.

Lemma non_whitespace_join (l : list string) :
  non_whitespace (join nl l) = flat_map non_whitespace l.
Proof.
  induction l as [|x l IH]; [reflexivity|]. destruct l as [|y l].
  - cbn [join flat_map]. now rewrite app_nil_r.
  - rewrite join_cons, !non_whitespace_append, IH. reflexivity.
Qed.

Lemma non_whitespace_tidy_lines (l : list string) :
  flat_map non_whitespace
    (filter (fun line => negb (is_empty line)) (map trim l))
  = flat_map non_whitespace l.
Proof.
  induction l as [|x l IH]; [reflexivity|]. cbn [map filter flat_map].
  rewrite <- IH, <- (non_whitespace_trim x).
  destruct (trim x); reflexivity.
Qed.

(** X8: on a text without the sequence [&nbsp;], [tidyTikzSource] removes
    white space only: the other code units of the text come out all, and
    in the order they had. *)
Theorem tidyTikzSource_removes_only_white_space (s : string) :
  includes s "&nbsp;" = false ->
  non_whitespace (tidyTikzSource s) = non_whitespace s.
Proof.
  intros H. unfold tidyTikzSource. rewrite (replaceAll_absent _ _ _ H).
  rewrite non_whitespace_join, non_whitespace_tidy_lines.
  rewrite <- non_whitespace_join. unfold nl. now rewrite join_split.
Qed.

Lemma tidyTikzSource_removes_only_white_space_witness :
  non_whitespace (tidyTikzSource ("  \draw (0,0) ;  " ++ nl ++ nl ++ "x"))
  = non_whitespace ("  \draw (0,0) ;  " ++ nl ++ nl ++ "x").
Proof.
  apply (tidyTikzSource_removes_only_white_space
           ("  \draw (0,0) ;  " ++ nl ++ nl ++ "x")).
  vm_compute. reflexivity.
Defined.

End TextExtras.

(** * Further properties: the rewriting of the graphic *)

Module GraphicExtras.
Import JS Spec Spec2 StringFacts ScanFacts TextFacts PluginTextFacts.
Import DOM Sample.

#[local] Arguments scan_replace : simpl never.

(** X9: [colorSVGinDarkMode] never returns fewer code units than it is
    given, and returns as many only when it returns its argument. *)
Theorem colorSVGinDarkMode_never_shortens (svg : string) :
  String.length svg <= String.length (colorSVGinDarkMode svg)
  /\ (String.length (colorSVGinDarkMode svg) = String.length svg ->
      colorSVGinDarkMode svg = svg).
Proof.
  unfold colorSVGinDarkMode, replaceAll_regexp.
  set (m := scan_replace dark_tokens currentColor 0 svg).
  destruct (scan_grows dark_tokens currentColor svg dark_tokens_nonempty
              dark_tokens_short) as [D1 D2]. fold m in D1, D2.
  destruct (scan_grows light_tokens background_primary m light_tokens_nonempty
              light_tokens_short) as [L1 L2].
  split; [lia|]. intros E.
  assert (Em : m = svg) by (apply scan_absent, D2; lia).
  rewrite (scan_absent light_tokens) by (apply L2; lia). exact Em.
Qed.

(** X10: the recolouring is local: across a non-empty piece of text that
    shares no code unit with the four quoted literals (a space, an angle
    bracket, an equals sign), the result is the result for what stands
    before, the piece, and the result for what stands after. *)
Theorem colorSVGinDarkMode_local (l b r : string) :
  b <> EmptyString ->
  (forall t, In t color_tokens -> disjoint_chars t b = true) ->
  colorSVGinDarkMode (l ++ b ++ r)
  = colorSVGinDarkMode l ++ b ++ colorSVGinDarkMode r.
Proof.
  intros Hb Hd. unfold colorSVGinDarkMode, replaceAll_regexp.
  rewrite (scan_barrier dark_tokens) by
    (auto using dark_tokens_nonempty;
     intros p Hp; apply Hd, in_or_app; now left).
  apply scan_barrier; auto using light_tokens_nonempty.
  intros p Hp. apply Hd, in_or_app. now right.
Qed.

Lemma colorSVGinDarkMode_local_witness :
  colorSVGinDarkMode ((" stroke=" ++ quoted "black") ++ "> <" ++ ("g fill=" ++ quoted "white"))
  = colorSVGinDarkMode (" stroke=" ++ quoted "black") ++ "> <"
    ++ colorSVGinDarkMode ("g fill=" ++ quoted "white").
Proof.
  apply (colorSVGinDarkMode_local (" stroke=" ++ quoted "black") "> <"
           ("g fill=" ++ quoted "white")).
  - discriminate.
  - intros t Ht. vm_compute in Ht.
    repeat (destruct Ht as [<- | Ht]; [vm_compute; reflexivity|]). contradiction.
Defined.

Lemma count_char_append (c : ascii) (a b : string) :
  count_char c (a ++ b) = count_char c a + count_char c b.
Proof.
  unfold count_char, chars. induction a as [|d a IH]; [reflexivity|].
  simpl append. cbn [list_ascii_of_string filter].
  destruct (Ascii.eqb c d); cbn [List.length]; now rewrite IH.
Qed.

Lemma count_char_cons (c d : ascii) (s : string) :
  count_char c (String d s) = count_char c (String d EmptyString) + count_char c s.
Proof. apply (count_char_append c (String d EmptyString) s). Qed.

(** A pass whose replacement holds [c] as often as each pattern does keeps
    the number of [c]. *)
Lemma scan_count (c : ascii) (pats : list string) (rep s : string) :
  Forall (fun p => p <> EmptyString) pats ->
  (forall p, In p pats -> count_char c p = count_char c rep) ->
  count_char c (scan_replace pats rep 0 s) = count_char c s.
Proof.
  intros Hne Hc. revert s. apply (scan_ind pats); [exact Hne | | |].
  - reflexivity.
  - intros d s Hm IH. rewrite (scan_miss _ _ _ _ Hm).
    rewrite (count_char_cons c d s), (count_char_cons c d (scan_replace _ _ _ _)).
    now rewrite IH.
  - intros p r Hp Hm IH. rewrite (scan_hit _ _ _ _ Hp Hm).
    rewrite !count_char_append, IH. f_equal. symmetry. apply Hc.
    now destruct (first_match_In _ _ _ Hm).
Qed.

(** X11: [colorSVGinDarkMode] keeps the number of double quotes of the
    markup: a quoted literal is replaced by a quoted one. *)
Theorem colorSVGinDarkMode_keeps_quotes (svg : string) :
  count_char DQUOTE (colorSVGinDarkMode svg) = count_char DQUOTE svg.
Proof.
  unfold colorSVGinDarkMode, replaceAll_regexp.
  rewrite (scan_count DQUOTE light_tokens) by
    (auto using light_tokens_nonempty; intros p [<- | [<- | []]]; reflexivity).
  apply scan_count; auto using dark_tokens_nonempty.
  intros p [<- | [<- | []]]; reflexivity.
Qed.

(** ** One pass of [isolateIds] *)

(** What the scan returns starts with a string that shares no code unit
    with the replacement only if its argument does. *)
Lemma prefix_of_scan (o n : string) :
  o <> EmptyString -> n <> EmptyString ->
  forall s q, disjoint_chars q n = true ->
    prefix q (scan_replace [o] n 0 s) = true -> prefix q s = true.
Proof.
  intros Ho Hn.
  apply (scan_ind [o] (fun s => forall q, disjoint_chars q n = true ->
           prefix q (scan_replace [o] n 0 s) = true -> prefix q s = true)).
  - constructor; auto.
  - intros q _ H. exact H.
  - intros c s Hm IH q Hq H. rewrite (scan_miss _ _ _ _ Hm) in H.
    destruct q as [|d q]; [apply prefix_nil|].
    rewrite prefix_cons in *. apply andb_prop in H as [-> H]. cbn [andb].
    apply IH; [|exact H]. rewrite disjoint_cons_l in Hq.
    now apply andb_prop in Hq as [_ Hq].
  - intros p r Hp Hm _ q Hq H. rewrite (scan_hit _ _ _ _ Hp Hm) in H.
    destruct q as [|d q]; [apply prefix_nil|].
    destruct n as [|e n]; [congruence|]. simpl append in H.
    rewrite prefix_cons in H. apply andb_prop in H as [H _].
    apply disjoint_head in Hq. congruence.
Qed.

Lemma includes_after_disjoint (o n x : string) :
  o <> EmptyString -> disjoint_chars o n = true ->
  includes (n ++ x) o = includes x o.
Proof.
  intros Ho Hd. induction n as [|e n IH]; [reflexivity|].
  simpl append. cbn [includes]. rewrite IH.
  - destruct o as [|c o]; [congruence|]. rewrite prefix_cons.
    apply disjoint_head in Hd. now rewrite Hd.
  - apply disjoint_sym in Hd. rewrite disjoint_cons_l in Hd.
    apply andb_prop in Hd as [_ Hd]. now apply disjoint_sym.
Qed.

Lemma replaceAll_removes (o n s : string) :
  o <> EmptyString -> n <> EmptyString -> disjoint_chars o n = true ->
  includes (replaceAll o n s) o = false.
Proof.
  intros Ho Hn Hd. rewrite replaceAll_scan by exact Ho. revert s.
  apply (scan_ind [o]).
  - constructor; auto.
  - destruct o; [congruence | reflexivity].
  - intros c s Hm IH.
    assert (Hp : prefix o (scan_replace [o] n 0 (String c s)) = false).
    { destruct (prefix o (scan_replace [o] n 0 (String c s))) eqn:E; [|reflexivity].
      apply (prefix_of_scan o n Ho Hn _ _ Hd) in E.
      rewrite first_match_None in Hm. rewrite (Hm o) in E; [discriminate | now left]. }
    rewrite (scan_miss _ _ _ _ Hm) in *. cbn [includes]. now rewrite Hp, IH.
  - intros p r Hp Hm IH. rewrite (scan_hit _ _ _ _ Hp Hm).
    now rewrite includes_after_disjoint.
Qed.

Lemma replace_at_every_index_length (rep s : string) :
  String.length (replace_at_every_index rep s)
  = String.length s + (String.length s + 1) * String.length rep.
Proof.
  induction s as [|c s IH]; cbn [replace_at_every_index String.length].
  - lia.
  - rewrite length_append. cbn [String.length]. rewrite IH. lia.
Qed.

(** X12: the markup a pass of the loop of [isolateIds] assigns no longer
    holds the old identifier of its element anywhere, when that identifier
    is non-empty and shares no code unit with the (non-empty) identifier
    [uuidv4] returns for the pass. *)
Theorem isolateIds_pass_removes_old_id (parseHTML : string -> list node)
    (uuidv4 : nat -> string) (element : HTMLElement) (rest : list HTMLElement)
    (k : nat) (svgEl : HTMLElement) :
  DOM.id element <> EmptyString ->
  uuidv4 k <> EmptyString ->
  disjoint_chars (DOM.id element) (uuidv4 k) = true ->
  exists markup,
    isolate_loop parseHTML uuidv4 (element :: rest) k svgEl
    = isolate_loop parseHTML uuidv4 rest (S k)
        (set_innerHTML parseHTML svgEl markup)
    /\ includes markup (DOM.id element) = false.
Proof.
  intros Ho Hn Hd.
  exists (replaceAll (DOM.id element) (uuidv4 k) (innerHTML svgEl)).
  split; [reflexivity|]. now apply replaceAll_removes.
Qed.

Lemma isolateIds_pass_removes_old_id_witness :
  exists markup,
    isolate_loop parse_markup uuids
      (mkElement "circle" [("id", "X")] [] :: [mkElement "rect" [("id", "Y")] []])
      0 svg_XY
    = isolate_loop parse_markup uuids [mkElement "rect" [("id", "Y")] []] 1
        (set_innerHTML parse_markup svg_XY markup)
    /\ includes markup (DOM.id (mkElement "circle" [("id", "X")] [])) = false.
Proof.
  apply (isolateIds_pass_removes_old_id parse_markup uuids
           (mkElement "circle" [("id", "X")] [])
           [mkElement "rect" [("id", "Y")] []] 0 svg_XY).
  - discriminate.
  - discriminate.
  - vm_compute. reflexivity.
Defined.

(** X13: for an element whose id attribute is empty the pass of the loop
    of [isolateIds] puts the fresh identifier before every code unit of the
    markup and at its end: markup of [L] code units becomes markup of
    [L + (L + 1) * |newId|] code units before it is parsed again. *)
Theorem isolateIds_pass_for_empty_id (parseHTML : string -> list node)
    (uuidv4 : nat -> string) (element : HTMLElement) (rest : list HTMLElement)
    (k : nat) (svgEl : HTMLElement) :
  DOM.id element = EmptyString ->
  isolate_loop parseHTML uuidv4 (element :: rest) k svgEl
  = isolate_loop parseHTML uuidv4 rest (S k)
      (set_innerHTML parseHTML svgEl
         (replace_at_every_index (uuidv4 k) (innerHTML svgEl)))
  /\ String.length (replace_at_every_index (uuidv4 k) (innerHTML svgEl))
     = String.length (innerHTML svgEl)
       + (String.length (innerHTML svgEl) + 1) * String.length (uuidv4 k).
Proof.
  intros H. split; [|apply replace_at_every_index_length].
  cbn [isolate_loop]. rewrite H. reflexivity.
Qed.

Lemma isolateIds_pass_for_empty_id_witness :
  isolate_loop parse_markup uuids [mkElement "g" [("id", EmptyString)] []] 0 svg_d
  = isolate_loop parse_markup uuids [] 1
      (set_innerHTML parse_markup svg_d
         (replace_at_every_index (uuids 0) (innerHTML svg_d)))
  /\ String.length (replace_at_every_index (uuids 0) (innerHTML svg_d))
     = String.length (innerHTML svg_d)
       + (String.length (innerHTML svg_d) + 1) * String.length (uuids 0).
Proof.
  apply (isolateIds_pass_for_empty_id parse_markup uuids
           (mkElement "g" [("id", EmptyString)] []) [] 0 svg_d).
  reflexivity.
Defined.

End GraphicExtras.

(** * Further properties: the loop of [isolateIds] *)

Module IsolationExtras.
Import JS DOM Sample.

Lemma isolate_loop_ext (parseHTML : string -> list node) (u u' : nat -> string)
    (l : list HTMLElement) (k : nat) (svgEl : HTMLElement) :
  (forall j, k <= j < k + List.length l -> u j = u' j) ->
  isolate_loop parseHTML u l k svgEl = isolate_loop parseHTML u' l k svgEl.
Proof.
  revert k svgEl. induction l as [|element rest IH]; intros k svgEl H.
  - reflexivity.
  - cbn [isolate_loop]. cbn [List.length] in H. rewrite (H k) by lia.
    apply IH. intros j Hj. apply H. lia.
Qed.

(** The loop is a fold over the identifiers read from the elements of the
    list, paired with the values of the calls of [uuidv4] from the
    [k]-th on. *)
Lemma isolate_loop_fold (parseHTML : string -> list node) (u : nat -> string)
    (l : list HTMLElement) (k : nat) (svgEl : HTMLElement) :
  isolate_loop parseHTML u l k svgEl
  = fold_left
      (fun e (pass : string * string) =>
         set_innerHTML parseHTML e
           (replaceAll (fst pass) (snd pass) (innerHTML e)))
      (combine (map DOM.id l) (map u (seq k (List.length l))))
      svgEl.
Proof.
  revert k svgEl. induction l as [|element rest IH]; intros k svgEl;
    [reflexivity|].
  cbn [isolate_loop map List.length seq combine fold_left fst snd].
  apply IH.
Qed.

(** X14: [isolateIds] is one full-text replacement per descendant that
    carried an id attribute when the method began, made in tree order: the
    [i]-th replaces the identifier read from that descendant by the value
    of the [i]-th call of [uuidv4].  As many values of [uuidv4] as there
    are such descendants enter the result, and no other: two runs whose
    first calls return the same identifiers return the same element. *)
Theorem isolateIds_one_uuid_per_element (parseHTML : string -> list node)
    (uuidv4 : nat -> string) (svgEl : HTMLElement) :
  isolateIds parseHTML uuidv4 svgEl
  = fold_left
      (fun e (pass : string * string) =>
         set_innerHTML parseHTML e
           (replaceAll (fst pass) (snd pass) (innerHTML e)))
      (combine (ids_in svgEl)
         (map uuidv4 (seq 0 (List.length (querySelectorAll_id svgEl)))))
      svgEl
  /\ forall uuidv4' : nat -> string,
       (forall k, k < List.length (querySelectorAll_id svgEl) ->
                  uuidv4 k = uuidv4' k) ->
       isolateIds parseHTML uuidv4 svgEl = isolateIds parseHTML uuidv4' svgEl.
Proof.
  split.
  - unfold isolateIds, ids_in. apply isolate_loop_fold.
  - intros uuidv4' H. unfold isolateIds. apply isolate_loop_ext.
    intros j Hj. apply H. lia.
Qed.

(** On [svg_XY] the two passes are the one for [X] with the first value
    and the one for [Y] with the second. *)
Example isolateIds_passes_on_svg_XY :
  combine (ids_in svg_XY)
    (map uuids (seq 0 (List.length (querySelectorAll_id svg_XY))))
  = [("X", uuid_a); ("Y", uuid_b)].
Proof. reflexivity. Qed.

(** X15: a graphic without a descendant that carries an id attribute
    comes out of [isolateIds] as it went in, its markup not parsed again;
    with the colour setting off [postProcessSvg] then hands the outer
    markup of the event target to [optimizeSVG] as it stands. *)
Theorem postProcessSvg_without_ids (parseHTML : string -> list node)
    (uuidv4 : nat -> string) (optimize : string -> SvgoConfig -> string)
    (svgEl : HTMLElement) :
  querySelectorAll_id svgEl = [] ->
  isolateIds parseHTML uuidv4 svgEl = svgEl
  /\ postProcessSvg parseHTML uuidv4 optimize
       {| invertColorsInDarkMode := false |} svgEl
     = ([CallIsolateIds; CallOptimizeSVG;
         SetOuterHTML (optimizeSVG optimize (outerHTML svgEl))],
        parseHTML (optimizeSVG optimize (outerHTML svgEl))).
Proof.
  intros H.
  assert (E : isolateIds parseHTML uuidv4 svgEl = svgEl)
    by (unfold isolateIds; now rewrite H).
  split; [exact E|]. unfold postProcessSvg.
  cbn [invertColorsInDarkMode traced ret bind app]. now rewrite E.
Qed.

Lemma postProcessSvg_without_ids_witness :
  isolateIds parse_markup uuids (mkElement "svg" [("id", "root")] [Text "plain"])
  = mkElement "svg" [("id", "root")] [Text "plain"]
  /\ postProcessSvg parse_markup uuids identity_optimize
       {| invertColorsInDarkMode := false |}
       (mkElement "svg" [("id", "root")] [Text "plain"])
     = ([CallIsolateIds; CallOptimizeSVG;
         SetOuterHTML
           (optimizeSVG identity_optimize
              (outerHTML (mkElement "svg" [("id", "root")] [Text "plain"])))],
        parse_markup
          (optimizeSVG identity_optimize
             (outerHTML (mkElement "svg" [("id", "root")] [Text "plain"])))).
Proof.
  apply (postProcessSvg_without_ids parse_markup uuids identity_optimize
           (mkElement "svg" [("id", "root")] [Text "plain"])).
  reflexivity.
Defined.

End IsolationExtras.

(** * Further properties: the engine in the windows *)

Module LifecycleExtras.
Import JS Spec Spec2 DOM Doc Workspace DocFacts Sample Sample2.

Lemma loadTikZJax_unfold (js : string) (doc : Document) :
  loadTikZJax js doc
  = mkDocument (head doc) (body doc ++ [engine_script js])
      (if existsb is_plugin_listener (listeners doc) then listeners doc
       else listeners doc ++ [("tikzjax-load-finished", PostProcessSvg)]).
Proof.
  unfold loadTikZJax, addEventListener, appendChild_body. cbn [listeners head body].
  fold is_plugin_listener. fold (engine_script js).
  now destruct (existsb is_plugin_listener (listeners doc)).
Qed.

Lemma engine_script_has_id (js : string) :
  detach_in "tikzjax" [engine_script js] = Some (engine_script js, []).
Proof. apply (detach_in_appended "tikzjax" _ _ _ []); reflexivity. Qed.

Lemma detach_in_found_app (i : string) (l l' x : list node) (found : node) :
  detach_in i l = Some (found, l') ->
  detach_in i (l ++ x) = Some (found, (l' ++ x)%list).
Proof.
  revert l'. induction l as [|k l IH]; intros l' H; [discriminate|].
  cbn [app detach_in] in *. destruct (detach i k) as [[f [k'|]]|].
  - injection H as <- <-. reflexivity.
  - injection H as <- <-. reflexivity.
  - destruct (detach_in i l) as [[f l'']|]; [|discriminate].
    injection H as <- <-. now rewrite (IH l'' eq_refl).
Qed.

Lemma plugin_listener_added (ls : list (string * EventListener)) :
  existsb is_plugin_listener
    (if existsb is_plugin_listener ls then ls
     else ls ++ [("tikzjax-load-finished", PostProcessSvg)]) = true.
Proof.
  destruct (existsb is_plugin_listener ls) eqn:E; [exact E|].
  rewrite existsb_app. cbn. apply orb_true_r.
Qed.

Lemma plugin_listener_filtered (ls : list (string * EventListener)) :
  filter (fun l => negb (is_plugin_listener l))
    (if existsb is_plugin_listener ls then ls
     else ls ++ [("tikzjax-load-finished", PostProcessSvg)])
  = filter (fun l => negb (is_plugin_listener l)) ls.
Proof.
  destruct (existsb is_plugin_listener ls); [reflexivity|].
  rewrite filter_app. cbn. apply app_nil_r.
Qed.

Lemma unloadTikZJax_unfold (doc : Document) :
  unloadTikZJax doc
  = match locate doc "tikzjax" with
    | None => Throw TypeError
    | Some (_, d) =>
        Ok (mkDocument (head d) (body d)
              (filter (fun l => negb (is_plugin_listener l)) (listeners d)))
    end.
Proof. reflexivity. Qed.

(** X16: a second [loadTikZJax] on the same document appends a second
    script element with the id [tikzjax] and registers nothing: the
    listeners are those after the first call. *)
Theorem loadTikZJax_twice (js : string) (doc : Document) :
  loadTikZJax js (loadTikZJax js doc)
  = mkDocument (head doc) (body doc ++ [engine_script js; engine_script js])
      (listeners (loadTikZJax js doc)).
Proof.
  rewrite (loadTikZJax_unfold js (loadTikZJax js doc)).
  rewrite (loadTikZJax_unfold js doc). cbn [head body listeners].
  rewrite plugin_listener_added, <- app_assoc. reflexivity.
Qed.

Lemma locate_with_script (js : string) (h b : list node)
    (ls : list (string * EventListener)) :
  exists found rest,
    locate (mkDocument h (b ++ [engine_script js]) ls) "tikzjax"
    = Some (found, rest).
Proof.
  unfold locate. cbn [head body listeners].
  destruct (detach_in "tikzjax" h) as [[f h']|]; [eauto|].
  destruct (detach_in "tikzjax" b) as [[f b']|] eqn:Eb.
  - rewrite (detach_in_found_app _ _ _ _ _ Eb). eauto.
  - unfold engine_script.
    rewrite detach_in_appended by (exact Eb || reflexivity). eauto.
Qed.

Lemma unload_load_located (js : string) (doc before : Document) (found : node) :
  locate doc "tikzjax" = Some (found, before) ->
  unloadTikZJax (loadTikZJax js doc)
  = Ok (mkDocument (head before) (body before ++ [engine_script js])
          (filter (fun l => negb (is_plugin_listener l)) (listeners doc))).
Proof.
  intros H. rewrite unloadTikZJax_unfold, loadTikZJax_unfold.
  unfold locate in *. cbn [head body listeners].
  destruct (detach_in "tikzjax" (head doc)) as [[f h]|] eqn:Eh.
  - injection H as <- <-. cbn [head body listeners].
    now rewrite plugin_listener_filtered.
  - destruct (detach_in "tikzjax" (body doc)) as [[f b]|] eqn:Eb; [|discriminate].
    injection H as <- <-. rewrite (detach_in_found_app _ _ _ _ _ Eb).
    cbn [head body listeners]. now rewrite plugin_listener_filtered.
Qed.

(** X17: when the document holds an element with the id [tikzjax] before
    the injection, [unloadTikZJax] after [loadTikZJax] detaches that
    element, the first in tree order, and leaves the injected script in the
    body, where [getElementById] still finds an element with the id; the
    listener of the plugin is removed all the same. *)
Theorem unloadTikZJax_detaches_first_match (js : string) (doc before : Document)
    (found : node) :
  locate doc "tikzjax" = Some (found, before) ->
  unloadTikZJax (loadTikZJax js doc)
  = Ok (mkDocument (head before) (body before ++ [engine_script js])
          (filter (fun l => negb (is_plugin_listener l)) (listeners doc)))
  /\ getElementById
       (mkDocument (head before) (body before ++ [engine_script js])
          (filter (fun l => negb (is_plugin_listener l)) (listeners doc)))
       "tikzjax" <> None.
Proof.
  intros H. split; [exact (unload_load_located js doc before found H)|].
  destruct (locate_with_script js (head before) (body before)
              (filter (fun l => negb (is_plugin_listener l)) (listeners doc)))
    as (f & rest & E).
  unfold getElementById. rewrite E. discriminate.
Qed.

Lemma unloadTikZJax_detaches_first_match_witness :
  unloadTikZJax (loadTikZJax "tikzjax();" clash_document)
  = Ok (mkDocument (head (mkDocument [] [] []))
          (body (mkDocument [] [] []) ++ [engine_script "tikzjax();"])
          (filter (fun l => negb (is_plugin_listener l)) (listeners clash_document)))
  /\ getElementById
       (mkDocument (head (mkDocument [] [] []))
          (body (mkDocument [] [] []) ++ [engine_script "tikzjax();"])
          (filter (fun l => negb (is_plugin_listener l)) (listeners clash_document)))
       "tikzjax" <> None.
Proof.
  apply (unloadTikZJax_detaches_first_match "tikzjax();" clash_document
           (mkDocument [] [] [])
           (Element "div" [("id", "tikzjax")] [Text "mine"])).
  vm_compute. reflexivity.
Defined.

Lemma pristine_spec (doc : Document) :
  pristine doc = true ->
  detach_in "tikzjax" (head doc) = None /\
  detach_in "tikzjax" (body doc) = None /\
  existsb is_plugin_listener (listeners doc) = false.
Proof.
  unfold pristine. destruct (locate doc "tikzjax") eqn:E; [discriminate|].
  apply locate_none in E as [Hh Hb]. intros H. apply negb_true_iff in H. auto.
Qed.

(** On a pristine document [unloadTikZJax] undoes [loadTikZJax]. *)
Lemma unload_load_pristine (js : string) (doc : Document) :
  pristine doc = true -> unloadTikZJax (loadTikZJax js doc) = Ok doc.
Proof.
  intros H. apply pristine_spec in H as (Hh & Hb & Hl).
  rewrite unloadTikZJax_unfold, loadTikZJax_unfold. unfold locate.
  cbn [head body listeners]. rewrite Hh.
  unfold engine_script. rewrite detach_in_appended by (exact Hb || reflexivity).
  cbn [head body listeners]. rewrite plugin_listener_filtered.
  unfold is_plugin_listener. rewrite filter_absent by exact Hl.
  now destruct doc.
Qed.

(** X18: after two calls of [loadTikZJax] on a pristine document one call
    of [unloadTikZJax] leaves an engine script in the body and no listener
    of the plugin; a second call gives the document back. *)
Theorem two_loads_need_two_unloads (js : string) (doc : Document) :
  pristine doc = true ->
  unloadTikZJax (loadTikZJax js (loadTikZJax js doc))
  = Ok (mkDocument (head doc) (body doc ++ [engine_script js]) (listeners doc))
  /\ unloadTikZJax
       (mkDocument (head doc) (body doc ++ [engine_script js]) (listeners doc))
     = Ok doc.
Proof.
  intros H. pose proof (pristine_spec doc H) as (Hh & Hb & Hl).
  assert (Hloc : forall ls,
             locate (mkDocument (head doc) (body doc ++ [engine_script js]) ls)
               "tikzjax"
             = Some (engine_script js, mkDocument (head doc) (body doc) ls)).
  { intros ls. unfold locate. cbn [head body listeners]. rewrite Hh.
    unfold engine_script. now rewrite detach_in_appended by (exact Hb || reflexivity). }
  split.
  - rewrite (unload_load_located js (loadTikZJax js doc)
               (mkDocument (head doc) (body doc) (listeners (loadTikZJax js doc)))
               (engine_script js)).
    + cbn [head body]. rewrite loadTikZJax_unfold. cbn [listeners].
      rewrite plugin_listener_filtered. unfold is_plugin_listener.
      now rewrite filter_absent by exact Hl.
    + rewrite loadTikZJax_unfold at 1. rewrite Hloc. f_equal. f_equal. f_equal.
      now rewrite loadTikZJax_unfold.
  - rewrite unloadTikZJax_unfold, Hloc. cbn [head body listeners].
    unfold is_plugin_listener. rewrite filter_absent by exact Hl. now destruct doc.
Qed.

Lemma two_loads_need_two_unloads_witness :
  unloadTikZJax (loadTikZJax "tikzjax();" (loadTikZJax "tikzjax();" note_document))
  = Ok (mkDocument (head note_document)
          (body note_document ++ [engine_script "tikzjax();"])
          (listeners note_document))
  /\ unloadTikZJax
       (mkDocument (head note_document)
          (body note_document ++ [engine_script "tikzjax();"])
          (listeners note_document))
     = Ok note_document.
Proof.
  apply (two_loads_need_two_unloads "tikzjax();" note_document).
  vm_compute. reflexivity.
Defined.

(** ** All windows *)

Lemma windows_of_set_children (children : list SplitChild) (docs : list Document) :
  List.length docs = List.length (windows_of children) ->
  windows_of (set_children children docs) = docs.
Proof.
  revert docs. induction children as [|[win|] children IH]; intros docs H.
  - destruct docs; [reflexivity | discriminate].
  - cbn [windows_of flat_map app List.length] in H.
    destruct docs as [|d ds]; [discriminate|]. cbn [set_children].
    change (windows_of (WorkspaceWindow d :: set_children children ds))
      with (d :: windows_of (set_children children ds)).
    f_equal. apply IH. cbn in H. now injection H.
  - cbn [set_children]. apply IH. exact H.
Qed.

Lemma getAllWindows_set (ws : Workspace) (docs : list Document) :
  List.length docs = List.length (getAllWindows ws) ->
  getAllWindows (set_windows ws docs) = docs.
Proof.
  unfold getAllWindows. destruct docs as [|d ds]; [discriminate|].
  cbn [set_windows rootSplit_win floatingSplit_children List.length].
  intros H. f_equal. apply windows_of_set_children. now injection H.
Qed.

Lemma set_children_same (children : list SplitChild) :
  set_children children (windows_of children) = children.
Proof.
  induction children as [|[win|] children IH]; [reflexivity | |].
  - change (windows_of (WorkspaceWindow win :: children))
      with (win :: windows_of children).
    cbn [set_children]. now rewrite IH.
  - change (windows_of (OtherItem :: children)) with (windows_of children).
    cbn [set_children]. now rewrite IH.
Qed.

Lemma set_children_twice (children : list SplitChild) (a b : list Document) :
  List.length b = List.length (windows_of children) ->
  set_children (set_children children a) b = set_children children b.
Proof.
  revert a b. induction children as [|[win|] children IH]; intros a b H.
  - reflexivity.
  - change (windows_of (WorkspaceWindow win :: children))
      with (win :: windows_of children) in H.
    destruct b as [|y b]; [discriminate|]. cbn [List.length] in H.
    destruct a as [|x a]; cbn [set_children]; f_equal; apply IH; lia.
  - cbn [set_children]. f_equal. apply IH. exact H.
Qed.

Lemma set_windows_same (ws : Workspace) : set_windows ws (getAllWindows ws) = ws.
Proof.
  destruct ws as [root children]. unfold getAllWindows, set_windows.
  cbn [rootSplit_win floatingSplit_children]. now rewrite set_children_same.
Qed.

Lemma set_windows_same_pair (ws : Workspace) :
  (set_windows ws (getAllWindows ws), @None exn) = (ws, None).
Proof. now rewrite set_windows_same. Qed.

Lemma set_windows_twice (ws : Workspace) (a b : list Document) :
  List.length a = List.length (getAllWindows ws) ->
  List.length b = List.length (getAllWindows ws) ->
  set_windows (set_windows ws a) b = set_windows ws b.
Proof.
  unfold getAllWindows. destruct a as [|x a]; [discriminate|].
  destruct b as [|y b]; [discriminate|]. cbn [List.length]. intros _ Hb.
  cbn [set_windows floatingSplit_children]. f_equal.
  apply set_children_twice. lia.
Qed.

Lemma set_children_popout (children : list SplitChild) (docs : list Document)
    (x y : Document) :
  List.length docs = List.length (windows_of children) ->
  set_children (children ++ [WorkspaceWindow x]) (docs ++ [y])
  = (set_children children docs ++ [WorkspaceWindow y])%list.
Proof.
  revert docs. induction children as [|[win|] children IH]; intros docs H.
  - destruct docs; [reflexivity | discriminate].
  - change (windows_of (WorkspaceWindow win :: children))
      with (win :: windows_of children) in H.
    destruct docs as [|d docs]; [discriminate|]. cbn [List.length] in H.
    cbn [app set_children]. f_equal. apply IH. lia.
  - cbn [app set_children]. f_equal. apply IH. exact H.
Qed.

Lemma windows_of_app (a b : list SplitChild) :
  windows_of (a ++ b) = (windows_of a ++ windows_of b)%list.
Proof. unfold windows_of. apply flat_map_app. Qed.

Lemma getAllWindows_popout (ws : Workspace) (doc : Document) :
  getAllWindows (with_popout ws doc) = (getAllWindows ws ++ [doc])%list.
Proof.
  unfold getAllWindows, with_popout. cbn [rootSplit_win floatingSplit_children].
  now rewrite windows_of_app.
Qed.

(** The handler of the window-open event brings the new window to the
    state of the windows that were open when the layout became ready. *)
Lemma load_all_popout (js : string) (ws : Workspace) (doc : Document) :
  with_popout (loadTikZJaxAllWindows js ws) (onWindowOpen js doc)
  = loadTikZJaxAllWindows js (with_popout ws doc).
Proof.
  unfold loadTikZJaxAllWindows, onWindowOpen. rewrite getAllWindows_popout, map_app.
  unfold getAllWindows. cbn [map app set_windows].
  unfold with_popout at 1. cbn [rootSplit_win floatingSplit_children].
  f_equal. unfold with_popout. cbn [floatingSplit_children].
  rewrite set_children_popout; [reflexivity|]. now rewrite length_map.
Qed.

Lemma unload_each_loaded (js : string) (windows : list Document) :
  Forall (fun doc => pristine doc = true) windows ->
  unload_each (map (loadTikZJax js) windows) = (windows, None).
Proof.
  induction 1 as [|doc rest Hdoc _ IH]; [reflexivity|].
  cbn [map unload_each]. now rewrite (unload_load_pristine js doc Hdoc), IH.
Qed.

Lemma unload_all_load_all (js : string) (ws : Workspace) :
  Forall (fun doc => pristine doc = true) (getAllWindows ws) ->
  unloadTikZJaxAllWindows (loadTikZJaxAllWindows js ws) = (ws, None).
Proof.
  intros H. unfold unloadTikZJaxAllWindows, loadTikZJaxAllWindows.
  rewrite getAllWindows_set by now rewrite length_map.
  rewrite (unload_each_loaded js _ H).
  rewrite set_windows_twice by (now rewrite ?length_map).
  now rewrite set_windows_same.
Qed.

(** X19: [unloadTikZJaxAllWindows] undoes [loadTikZJaxAllWindows] when no
    window held an element with the id [tikzjax] or the listener of the
    plugin before: every window, root and pop-outs, has its document back
    and no exception is raised. *)
Theorem unloadTikZJaxAllWindows_undoes_load (js : string) (ws : Workspace) :
  Forall (fun doc => pristine doc = true) (getAllWindows ws) ->
  unloadTikZJaxAllWindows (loadTikZJaxAllWindows js ws) = (ws, None).
Proof.
  intros H. unfold unloadTikZJaxAllWindows, loadTikZJaxAllWindows.
  (* the windows the second loop visits are the loaded ones, in order *)
  rewrite getAllWindows_set by now rewrite length_map.
  rewrite (unload_each_loaded js _ H).
  (* writing the documents back twice is writing the last ones *)
  rewrite set_windows_twice by (now rewrite ?length_map).
  apply set_windows_same_pair.
Qed.

Lemma unloadTikZJaxAllWindows_undoes_load_witness :
  unloadTikZJaxAllWindows (loadTikZJaxAllWindows "tikzjax();" sample_workspace)
  = (sample_workspace, None).
Proof.
  apply (unloadTikZJaxAllWindows_undoes_load "tikzjax();" sample_workspace).
  repeat constructor.
Defined.

(** X20: a pop-out window that opens after the layout is ready is loaded
    by the handler of the window-open event, and [unloadTikZJaxAllWindows]
    then restores it with the other windows. *)
Theorem popout_opened_later_is_unloaded (js : string) (ws : Workspace)
    (doc : Document) :
  Forall (fun d => pristine d = true) (getAllWindows ws) ->
  pristine doc = true ->
  unloadTikZJaxAllWindows
    (with_popout (loadTikZJaxAllWindows js ws) (onWindowOpen js doc))
  = (with_popout ws doc, None).
Proof.
  intros H Hdoc. rewrite load_all_popout. apply unload_all_load_all.
  rewrite getAllWindows_popout. apply Forall_app. split; [exact H|].
  now constructor.
Qed.

Lemma popout_opened_later_is_unloaded_witness :
  unloadTikZJaxAllWindows
    (with_popout (loadTikZJaxAllWindows "tikzjax();" sample_workspace)
       (onWindowOpen "tikzjax();" popout_document))
  = (with_popout sample_workspace popout_document, None).
Proof.
  apply (popout_opened_later_is_unloaded "tikzjax();" sample_workspace
           popout_document).
  - repeat constructor.
  - reflexivity.
Defined.

Lemma unload_each_stops (before after before' : list Document) (doc : Document) :
  Forall2 (fun d d' => unloadTikZJax d = Ok d') before before' ->
  locate doc "tikzjax" = None ->
  unload_each (before ++ doc :: after)
  = ((before' ++ doc :: after)%list, Some TypeError).
Proof.
  intros H Hdoc. induction H as [|d d' before before' Hd _ IH].
  - cbn [app unload_each]. rewrite unloadTikZJax_unfold, Hdoc. reflexivity.
  - cbn [app unload_each]. now rewrite Hd, IH.
Qed.

(** X21: [unloadTikZJaxAllWindows] stops at the first window whose
    document holds no element with the id [tikzjax]: the windows before it
    are unloaded, that window and every later one keep their documents,
    script and listener included, and the TypeError leaves the method. *)
Theorem unloadTikZJaxAllWindows_stops_at_first_fault (ws : Workspace)
    (before after before' : list Document) (doc : Document) :
  getAllWindows ws = (before ++ doc :: after)%list ->
  Forall2 (fun d d' => unloadTikZJax d = Ok d') before before' ->
  locate doc "tikzjax" = None ->
  snd (unloadTikZJaxAllWindows ws) = Some TypeError /\
  getAllWindows (fst (unloadTikZJaxAllWindows ws))
  = (before' ++ doc :: after)%list.
Proof.
  intros Hw H Hdoc. unfold unloadTikZJaxAllWindows.
  rewrite Hw, (unload_each_stops before after before' doc H Hdoc).
  cbn [fst snd]. split; [reflexivity|]. apply getAllWindows_set.
  rewrite Hw, !length_app. cbn [List.length].
  now rewrite (Forall2_length H).
Qed.

Lemma unloadTikZJaxAllWindows_stops_at_first_fault_witness :
  snd (unloadTikZJaxAllWindows
         (mkWorkspace (loadTikZJax "tikzjax();" note_document)
            [WorkspaceWindow popout_document;
             WorkspaceWindow (loadTikZJax "tikzjax();" popout_document)]))
  = Some TypeError /\
  getAllWindows
    (fst (unloadTikZJaxAllWindows
            (mkWorkspace (loadTikZJax "tikzjax();" note_document)
               [WorkspaceWindow popout_document;
                WorkspaceWindow (loadTikZJax "tikzjax();" popout_document)])))
  = ([note_document] ++ popout_document
       :: [loadTikZJax "tikzjax();" popout_document])%list.
Proof.
  apply (unloadTikZJaxAllWindows_stops_at_first_fault
           (mkWorkspace (loadTikZJax "tikzjax();" note_document)
              [WorkspaceWindow popout_document;
               WorkspaceWindow (loadTikZJax "tikzjax();" popout_document)])
           [loadTikZJax "tikzjax();" note_document]
           [loadTikZJax "tikzjax();" popout_document]
           [note_document] popout_document).
  - reflexivity.
  - constructor; [vm_compute; reflexivity | constructor].
  - vm_compute. reflexivity.
Defined.

Lemma locate_loaded (js : string) (doc : Document) :
  exists found rest, locate (loadTikZJax js doc) "tikzjax" = Some (found, rest).
Proof. rewrite loadTikZJax_unfold. apply locate_with_script. Qed.

Lemma no_plugin_listener_after_filter (ls : list (string * EventListener)) :
  existsb is_plugin_listener
    (filter (fun l => negb (is_plugin_listener l)) ls) = false.
Proof.
  induction ls as [|l ls IH]; [reflexivity|]. cbn [filter].
  destruct (is_plugin_listener l) eqn:E; cbn [negb]; [exact IH|].
  cbn [existsb]. now rewrite E, IH.
Qed.

Lemma unloadTikZJax_loaded (js : string) (doc : Document) :
  exists doc', unloadTikZJax (loadTikZJax js doc) = Ok doc' /\
               existsb is_plugin_listener (listeners doc') = false.
Proof.
  destruct (locate_loaded js doc) as (found & rest & H).
  rewrite unloadTikZJax_unfold, H. eexists. split; [reflexivity|].
  cbn [listeners]. apply no_plugin_listener_after_filter.
Qed.

Lemma unload_each_after_load (js : string) (windows : list Document) :
  exists docs,
    unload_each (map (loadTikZJax js) windows) = (docs, None) /\
    List.length docs = List.length windows /\
    Forall (fun d => existsb is_plugin_listener (listeners d) = false) docs.
Proof.
  induction windows as [|doc rest (docs & E & Hlen & Hall)].
  - exists []. repeat split. constructor.
  - destruct (unloadTikZJax_loaded js doc) as (doc' & Hd & Hl).
    exists (doc' :: docs). cbn [map unload_each]. rewrite Hd, E.
    repeat split; [cbn; lia | now constructor].
Qed.

(** X22: whatever the windows held before, [unloadTikZJaxAllWindows]
    after [loadTikZJaxAllWindows] raises no exception and leaves no window
    with the listener of the plugin. *)
Theorem unloadTikZJaxAllWindows_after_load_never_throws (js : string)
    (ws : Workspace) :
  snd (unloadTikZJaxAllWindows (loadTikZJaxAllWindows js ws)) = None /\
  Forall (fun doc => existsb is_plugin_listener (listeners doc) = false)
    (getAllWindows (fst (unloadTikZJaxAllWindows (loadTikZJaxAllWindows js ws)))).
Proof.
  unfold unloadTikZJaxAllWindows, loadTikZJaxAllWindows.
  rewrite getAllWindows_set by now rewrite length_map.
  destruct (unload_each_after_load js (getAllWindows ws)) as (docs & E & Hlen & H).
  rewrite E. cbn [fst snd]. split; [reflexivity|].
  rewrite getAllWindows_set; [exact H|].
  rewrite getAllWindows_set by now rewrite length_map.
  now rewrite length_map.
Qed.

(** ** Syntax highlighting and the life cycle *)

Lemma remove_add (info : list ModeInfo) :
  removeSyntaxHighlighting (addSyntaxHighlighting info)
  = removeSyntaxHighlighting info.
Proof.
  unfold removeSyntaxHighlighting, addSyntaxHighlighting.
  rewrite filter_app. cbn. apply app_nil_r.
Qed.

Lemma filter_same_iff {A : Type} (f : A -> bool) (l : list A) :
  filter f l = l <-> forall x, In x l -> f x = true.
Proof.
  induction l as [|a l IH]; [easy|]. cbn [filter]. split.
  - intros H x [<-|Hx].
    + destruct (f a) eqn:E; [reflexivity|].
      assert (Hlen : List.length (filter f l) = S (List.length l))
        by now rewrite H.
      pose proof (filter_length_le f l). lia.
    + destruct (f a); [injection H as H; now apply IH|].
      assert (Hlen : List.length (filter f l) = S (List.length l))
        by now rewrite H.
      pose proof (filter_length_le f l). lia.
  - intros H. rewrite (H a (or_introl eq_refl)). f_equal. apply IH.
    intros x Hx. apply H. now right.
Qed.

Lemma remove_same_iff (info : list ModeInfo) :
  removeSyntaxHighlighting info = info
  <-> forall el, In el info -> name el <> "Tikz".
Proof.
  unfold removeSyntaxHighlighting. rewrite filter_same_iff. split.
  - intros H el Hel E. specialize (H el Hel). rewrite E in H. discriminate H.
  - intros H el Hel. apply negb_true_iff. apply String.eqb_neq. now apply H.
Qed.

(** X23: [removeSyntaxHighlighting] after [addSyntaxHighlighting] removes
    the added entry together with every other entry named Tikz; it gives
    the earlier list of modes back exactly when that list had no entry of
    this name. *)
Theorem removeSyntaxHighlighting_after_add (info : list ModeInfo) :
  removeSyntaxHighlighting (addSyntaxHighlighting info)
  = filter (fun el => negb (is_tikz_mode el)) info
  /\ (removeSyntaxHighlighting (addSyntaxHighlighting info) = info
      <-> forall el, In el info -> name el <> "Tikz").
Proof.
  rewrite remove_add. split; [reflexivity | apply remove_same_iff].
Qed.

(** X24: entries are added one per call and removed all at once: after
    any number of calls of [addSyntaxHighlighting] one call of
    [removeSyntaxHighlighting] leaves no entry named Tikz, and the entries
    with other names keep their order. *)
Theorem removeSyntaxHighlighting_after_adds (n : nat) (info : list ModeInfo) :
  removeSyntaxHighlighting (Nat.iter n addSyntaxHighlighting info)
  = removeSyntaxHighlighting info
  /\ List.length (Nat.iter n addSyntaxHighlighting info) = List.length info + n
  /\ Forall (fun el => name el <> "Tikz") (removeSyntaxHighlighting info).
Proof.
  split; [|split].
  - induction n as [|n IH]; [reflexivity|].
    change (Nat.iter (S n) addSyntaxHighlighting info)
      with (addSyntaxHighlighting (Nat.iter n addSyntaxHighlighting info)).
    now rewrite remove_add.
  - induction n as [|n IH]; [cbn; lia|].
    change (Nat.iter (S n) addSyntaxHighlighting info)
      with (addSyntaxHighlighting (Nat.iter n addSyntaxHighlighting info)).
    unfold addSyntaxHighlighting at 1. rewrite length_app, IH. cbn. lia.
  - apply Forall_forall. intros el Hel. unfold removeSyntaxHighlighting in Hel.
    apply filter_In in Hel as [_ Hel]. apply negb_true_iff in Hel.
    now apply String.eqb_neq.
Qed.

(** X25: [onunload] undoes [onload], whether the layout was ready when
    the plugin loaded or became ready afterwards, when no window held an
    element with the id [tikzjax] or the listener of the plugin and no mode
    was named Tikz. *)
Theorem onunload_undoes_onload (js : string) (app : App) :
  Forall (fun doc => pristine doc = true) (getAllWindows (workspace app)) ->
  (forall el, In el (modeInfo app) -> name el <> "Tikz") ->
  onunload (fst (onload js true app)) = (app, None) /\
  onunload (whenLayoutReady js (fst (onload js false app))) = (app, None).
Proof.
  intros Hw Hm. apply remove_same_iff in Hm.
  split; unfold onunload, onload, whenLayoutReady;
    cbn [fst workspace modeInfo]; rewrite (unload_all_load_all js _ Hw);
    cbn iota; rewrite remove_add, Hm; now destruct app.
Qed.

Lemma onunload_undoes_onload_witness :
  onunload (fst (onload "tikzjax();" true (mkApp sample_workspace sample_modes)))
  = (mkApp sample_workspace sample_modes, None) /\
  onunload
    (whenLayoutReady "tikzjax();"
       (fst (onload "tikzjax();" false (mkApp sample_workspace sample_modes))))
  = (mkApp sample_workspace sample_modes, None).
Proof.
  apply (onunload_undoes_onload "tikzjax();" (mkApp sample_workspace sample_modes)).
  - repeat constructor.
  - intros el [<-|[]] E. apply String.eqb_eq in E. vm_compute in E. discriminate E.
Defined.

(** X26: when the plugin is unloaded before the layout is ready, so that
    the root window holds no engine script, [onunload] raises the TypeError
    of [unloadTikZJax] and changes nothing: the mode entry that [onload]
    added stays registered. *)
Theorem onunload_before_layout_ready (js : string) (app : App) :
  locate (rootSplit_win (workspace app)) "tikzjax" = None ->
  onunload (fst (onload js false app))
  = (mkApp (workspace app) (modeInfo app ++ [tikz_mode]), Some TypeError).
Proof.
  intros H. unfold onunload, onload, unloadTikZJaxAllWindows.
  cbn [fst workspace modeInfo]. unfold getAllWindows at 1.
  cbn [unload_each]. rewrite unloadTikZJax_unfold, H.
  fold (getAllWindows (workspace app)). now rewrite set_windows_same.
Qed.

Lemma onunload_before_layout_ready_witness :
  onunload (fst (onload "tikzjax();" false (mkApp sample_workspace sample_modes)))
  = (mkApp (workspace (mkApp sample_workspace sample_modes))
       (modeInfo (mkApp sample_workspace sample_modes) ++ [tikz_mode]),
     Some TypeError).
Proof.
  apply (onunload_before_layout_ready "tikzjax();"
           (mkApp sample_workspace sample_modes)).
  vm_compute. reflexivity.
Defined.

End LifecycleExtras.
